(** * Emoji sprite editor: state manager, hit testing and scale gizmo

  A shallow embedding of the editor's TypeScript sources:

  - [StateManager] (state.ts, src/unnamed/part_005): sprite model, z-order,
    compact JSON export/import, snapshot history (undo/redo);
  - [CanvasRenderer] (canvas.ts, the second class in
    src/src/propertyPanel.ts): glyph bounds, hit testing, the canvas
    transform under which a sprite is painted;
  - [Gizmo] (gizmo.ts, src/unnamed/part_000): world/local conversion,
    pointer moves, corner scaling.

  JavaScript numbers are idealised as real numbers; [zIndex] and [nextId]
  only ever hold integers and are kept in [Z].  Arrays are lists in array
  order (index 0 first); an object held in an array is referred to by its
  position in it.  The embedding comes first, the facts about it after. *)

From Stdlib Require Import Reals Lra Lia ZArith Ascii String Bool List.
From Stdlib Require Import Permutation Sorted Finite DecimalString.
From Stdlib Require DecimalPos DecimalZ.
Import ListNotations.

Set Implicit Arguments.

#[local] Open Scope string_scope.
#[local] Open Scope Z_scope.

(* ===================================================================== *)
(** * The JavaScript platform as the sources use it                      *)
(* ===================================================================== *)

Module JS.

(** ** Numbers *)

(** [a === b] and the comparisons on numbers. *)
Definition num_eq (a b : R) : bool := if Req_dec_T a b then true else false.
Definition num_gt (a b : R) : bool := if Rlt_dec b a then true else false.
Definition num_ge (a b : R) : bool := if Rle_dec b a then true else false.
Definition num_le (a b : R) : bool := if Rle_dec a b then true else false.

(** [Math.round v]: nearest integer, ties towards +infinity. *)
Definition Math_round (v : R) : R := IZR (Zfloor (v + / 2)).
Definition Math_max (a b : R) : R := Rmax a b.
Definition Math_abs (v : R) : R := Rabs v.
Definition Math_sqrt (v : R) : R := sqrt v.
Definition Math_PI : R := PI.
Definition num_lt (a b : R) : bool := if Rlt_dec a b then true else false.

(** [a % b]: the quotient is truncated towards zero, so the remainder has
    the sign of the dividend. *)
Definition num_rem (a b : R) : R :=
  let q := (a / b)%R in
  (a - b * IZR (if Rle_dec 0 q then Zfloor q else Zceil q))%R.

(** [v || d] on a number: 0 is the only falsy real. *)
Definition num_or (v d : R) : R := if num_eq v 0 then d else v.

(** A number inside a template literal; only integers are ever printed. *)
Definition String_of_int (n : Z) : string := NilZero.string_of_int (Z.to_int n).

(** ** Values produced by [JSON.parse] *)

#[local] Unset Elimination Schemes.

Inductive json : Type :=
| JNull
| JBool (b : bool)
| JNum (r : R)
| JStr (s : string)
| JArr (items : list json)
| JObj (props : list (string * json)).

#[local] Set Elimination Schemes.

(** The result of reading a property: a value or [undefined]. *)
Inductive jsval : Type :=
| Undefined
| Val (j : json).

(** Evaluation either yields a value or throws. *)
Inductive completion (A : Type) : Type :=
| Return (a : A)
| Throw.
Arguments Throw {A}.

Definition bind {A B} (c : completion A) (k : A -> completion B) : completion B :=
  match c with
  | Return a => k a
  | Throw => Throw
  end.

Notation "x <- c ;; k" := (bind c (fun x => k))
  (at level 61, c at next level, right associativity).

(** Own property lookup; for a repeated member name the last one wins, as in
    [JSON.parse]. *)
Fixpoint lookup (k : string) (props : list (string * json)) : jsval :=
  match props with
  | [] => Undefined
  | (k', v) :: rest =>
      match lookup k rest with
      | Val w => Val w
      | Undefined => if String.eqb k k' then Val v else Undefined
      end
  end.

(** [v.k] for the property names the sources read ([e], [x], [sprites],
    ...): a [TypeError] on [null], the own property on an object, and
    [undefined] on every other parsed value. *)
Definition prop (v : json) (k : string) : completion jsval :=
  match v with
  | JNull => Throw
  | JObj props => Return (lookup k props)
  | _ => Return Undefined
  end.

Definition truthy (v : jsval) : bool :=
  match v with
  | Undefined => false
  | Val JNull => false
  | Val (JBool b) => b
  | Val (JNum r) => negb (num_eq r 0)
  | Val (JStr s) => negb (String.eqb s "")
  | Val (JArr _) => true
  | Val (JObj _) => true
  end.

(** [a || b] *)
Definition or_else (a b : jsval) : jsval := if truthy a then a else b.

Definition is_undefined (v : jsval) : bool :=
  match v with
  | Undefined => true
  | Val _ => false
  end.

Definition Array_isArray (v : jsval) : bool :=
  match v with
  | Val (JArr _) => true
  | _ => false
  end.

(** Structural equality of parsed values. *)
Fixpoint json_eqb (a b : json) {struct a} : bool :=
  match a, b with
  | JNull, JNull => true
  | JBool p, JBool q => Bool.eqb p q
  | JNum p, JNum q => num_eq p q
  | JStr p, JStr q => String.eqb p q
  | JArr ps, JArr qs =>
      (fix items (ps qs : list json) {struct ps} : bool :=
         match ps, qs with
         | [], [] => true
         | p :: ps', q :: qs' => json_eqb p q && items ps' qs'
         | _, _ => false
         end) ps qs
  | JObj ps, JObj qs =>
      (fix members (ps qs : list (string * json)) {struct ps} : bool :=
         match ps, qs with
         | [], [] => true
         | (k, p) :: ps', (k', q) :: qs' =>
             String.eqb k k' && json_eqb p q && members ps' qs'
         | _, _ => false
         end) ps qs
  | _, _ => false
  end.

(** ** JSON text

    A string handed to [JSON.parse] either is not JSON text, and the parser
    throws, or it is a text of one value.  A value has many texts (white
    space, escapes, the way a number is written); [JSON.stringify] writes one
    of them, here spelling 0.  Strings are equal when they are the same text:
    the same value in the same spelling. *)
Inductive JSONText : Type :=
| NotJSON (raw : string)
| Text (spelling : nat) (j : json).

Definition JSON_parse (s : JSONText) : completion json :=
  match s with
  | NotJSON _ => Throw
  | Text _ j => Return j
  end.

Definition JSON_stringify (j : json) : JSONText := Text 0 j.

(** [s === t] on strings that hold JSON text. *)
Definition text_eqb (s t : JSONText) : bool :=
  match s, t with
  | NotJSON a, NotJSON b => String.eqb a b
  | Text m a, Text n b => Nat.eqb m n && json_eqb a b
  | _, _ => false
  end.

(** ** Arrays *)

Section Arrays.
Context {A : Type}.

(** [arr[i]] for an index computed as a number. *)
Definition at_index (l : list A) (i : Z) : option A :=
  if i <? 0 then None else nth_error l (Z.to_nat i).

(** [arr[arr.length - 1]] *)
Fixpoint last_entry (l : list A) : option A :=
  match l with
  | [] => None
  | [a] => Some a
  | _ :: rest => last_entry rest
  end.

(** [arr.push(a)] *)
Definition push (l : list A) (a : A) : list A := (l ++ [a])%list.

(** [arr.find(p)], as the position of the element found. *)
Fixpoint find_ref (p : A -> bool) (l : list A) : option nat :=
  match l with
  | [] => None
  | a :: rest => if p a then Some O else option_map S (find_ref p rest)
  end.

(** [arr.findIndex(p)]: -1 when nothing matches. *)
Definition findIndex (p : A -> bool) (l : list A) : Z :=
  match find_ref p l with
  | Some i => Z.of_nat i
  | None => -1
  end.

(** In-place update of the object at a position. *)
Fixpoint modify_at (i : nat) (f : A -> A) (l : list A) : list A :=
  match l, i with
  | [], _ => []
  | a :: rest, O => f a :: rest
  | a :: rest, S i' => a :: modify_at i' f rest
  end.

(** [arr.sort(cmp)]: the sort is stable; [cmp a b > 0] puts [a] after
    [b]. *)
Fixpoint sort_insert (cmp : A -> A -> Z) (a : A) (sorted : list A) : list A :=
  match sorted with
  | [] => [a]
  | b :: rest =>
      if cmp a b <=? 0 then a :: b :: rest
      else b :: sort_insert cmp a rest
  end.

Fixpoint Array_sort (cmp : A -> A -> Z) (l : list A) : list A :=
  match l with
  | [] => []
  | a :: rest => sort_insert cmp a (Array_sort cmp rest)
  end.
End Arrays.

(** [arr.map((a, index) => f(a, index))] into another element type, for a
    callback that may throw. *)
Fixpoint map_indexed {A B : Type} (start : Z) (f : A -> Z -> completion B)
    (l : list A) : completion (list B) :=
  match l with
  | [] => Return []
  | a :: rest =>
      b <- f a start ;;
      bs <- map_indexed (start + 1) f rest ;;
      Return (b :: bs)
  end.

End JS.

(* ===================================================================== *)
(** * types.ts                                                           *)
(* ===================================================================== *)

Record SpriteObject : Type := mkSprite {
  id : string;
  emoji : string;
  x : R;
  y : R;
  rotation : R;
  scaleX : R;
  scaleY : R;
  zIndex : Z
}.

Record EditorState : Type := mkState {
  sprites : list SpriteObject;
  selectedId : option string;
  nextId : Z;
  showOrigin : bool;
  axesOnTop : bool;
  borderOnTop : bool;
  customFont : string
}.

Module Point.
Record t : Type := mk { x : R; y : R }.
End Point.

Module Bounds.
Record t : Type := mk {
  x : R;
  y : R;
  width : R;
  height : R;
  penX : R;
  penY : R
}.
End Bounds.

(** [Partial<SpriteObject>]: the members an update object carries. *)
Record SpriteUpdates : Type := mkUpdates {
  new_id : option string;
  new_emoji : option string;
  new_x : option R;
  new_y : option R;
  new_rotation : option R;
  new_scaleX : option R;
  new_scaleY : option R;
  new_zIndex : option Z
}.

Definition no_updates : SpriteUpdates :=
  mkUpdates None None None None None None None None.

Definition or_keep {A : Type} (update : option A) (old : A) : A :=
  match update with
  | Some v => v
  | None => old
  end.

(** [Object.assign(sprite, updates)] *)
Definition Object_assign (sprite : SpriteObject) (updates : SpriteUpdates) : SpriteObject :=
  {| id := or_keep (new_id updates) (id sprite);
     emoji := or_keep (new_emoji updates) (emoji sprite);
     x := or_keep (new_x updates) (x sprite);
     y := or_keep (new_y updates) (y sprite);
     rotation := or_keep (new_rotation updates) (rotation sprite);
     scaleX := or_keep (new_scaleX updates) (scaleX sprite);
     scaleY := or_keep (new_scaleY updates) (scaleY sprite);
     zIndex := or_keep (new_zIndex updates) (zIndex sprite) |}.

(** [sprite.zIndex = z] *)
Definition with_zIndex (z : Z) (sprite : SpriteObject) : SpriteObject :=
  {| id := id sprite; emoji := emoji sprite; x := x sprite; y := y sprite;
     rotation := rotation sprite; scaleX := scaleX sprite; scaleY := scaleY sprite;
     zIndex := z |}.

Definition with_sprites (l : list SpriteObject) (st : EditorState) : EditorState :=
  {| sprites := l; selectedId := selectedId st; nextId := nextId st;
     showOrigin := showOrigin st; axesOnTop := axesOnTop st;
     borderOnTop := borderOnTop st; customFont := customFont st |}.

Definition with_selectedId (sel : option string) (st : EditorState) : EditorState :=
  {| sprites := sprites st; selectedId := sel; nextId := nextId st;
     showOrigin := showOrigin st; axesOnTop := axesOnTop st;
     borderOnTop := borderOnTop st; customFont := customFont st |}.

Definition with_nextId (n : Z) (st : EditorState) : EditorState :=
  {| sprites := sprites st; selectedId := selectedId st; nextId := n;
     showOrigin := showOrigin st; axesOnTop := axesOnTop st;
     borderOnTop := borderOnTop st; customFont := customFont st |}.

Definition with_showOrigin (b : bool) (st : EditorState) : EditorState :=
  {| sprites := sprites st; selectedId := selectedId st; nextId := nextId st;
     showOrigin := b; axesOnTop := axesOnTop st;
     borderOnTop := borderOnTop st; customFont := customFont st |}.

Definition with_axesOnTop (b : bool) (st : EditorState) : EditorState :=
  {| sprites := sprites st; selectedId := selectedId st; nextId := nextId st;
     showOrigin := showOrigin st; axesOnTop := b;
     borderOnTop := borderOnTop st; customFont := customFont st |}.

Definition with_borderOnTop (b : bool) (st : EditorState) : EditorState :=
  {| sprites := sprites st; selectedId := selectedId st; nextId := nextId st;
     showOrigin := showOrigin st; axesOnTop := axesOnTop st;
     borderOnTop := b; customFont := customFont st |}.

Definition with_customFont (f : string) (st : EditorState) : EditorState :=
  {| sprites := sprites st; selectedId := selectedId st; nextId := nextId st;
     showOrigin := showOrigin st; axesOnTop := axesOnTop st;
     borderOnTop := borderOnTop st; customFont := f |}.

(** [s => s.id === id] *)
Definition has_id (i : string) (s : SpriteObject) : bool := String.eqb (id s) i.

(** ** Sprites reached through references

    [[...sprites]] copies the array, not the sprites: an assignment through
    the copy lands in [this.state.sprites].  A reference is the position of
    the sprite in that array. *)

Definition deref (arr : list SpriteObject) (ref : nat) : option SpriteObject :=
  nth_error arr ref.

Definition zIndex_at (arr : list SpriteObject) (ref : nat) : Z :=
  match deref arr ref with
  | Some s => zIndex s
  | None => 0
  end.

Definition id_at (arr : list SpriteObject) (ref : nat) : string :=
  match deref arr ref with
  | Some s => id s
  | None => ""
  end.

Definition write_zIndex (ref : nat) (z : Z) (arr : list SpriteObject) : list SpriteObject :=
  JS.modify_at ref (with_zIndex z) arr.

(** [[...sprites].sort((a, b) => a.zIndex - b.zIndex)], as references. *)
Definition sorted_refs (arr : list SpriteObject) : list nat :=
  JS.Array_sort (fun a b => zIndex_at arr a - zIndex_at arr b) (seq 0 (length arr)).

(* ===================================================================== *)
(** * The editor state as JSON                                           *)
(* ===================================================================== *)

Module Snapshot.
Import JS.

(** What [JSON.stringify] writes for a sprite and for [this.state]: the
    members in the order the object literals of the sources create them. *)
Definition json_of_sprite (s : SpriteObject) : json :=
  JObj [("id", JStr (id s)); ("emoji", JStr (emoji s));
        ("x", JNum (x s)); ("y", JNum (y s));
        ("rotation", JNum (rotation s));
        ("scaleX", JNum (scaleX s)); ("scaleY", JNum (scaleY s));
        ("zIndex", JNum (IZR (zIndex s)))].

Definition json_of_selected (sel : option string) : json :=
  match sel with
  | Some i => JStr i
  | None => JNull
  end.

Definition json_of_state (st : EditorState) : json :=
  JObj [("sprites", JArr (map json_of_sprite (sprites st)));
        ("selectedId", json_of_selected (selectedId st));
        ("nextId", JNum (IZR (nextId st)));
        ("showOrigin", JBool (showOrigin st));
        ("axesOnTop", JBool (axesOnTop st));
        ("borderOnTop", JBool (borderOnTop st));
        ("customFont", JStr (customFont st))].

Definition serialize (st : EditorState) : JSONText :=
  JSON_stringify (json_of_state st).

(** Reading a parsed object as a typed record, member by member. *)
Definition str_member (props : list (string * json)) (k : string) : string :=
  match lookup k props with
  | Val (JStr s) => s
  | _ => ""
  end.

Definition num_member (props : list (string * json)) (k : string) : R :=
  match lookup k props with
  | Val (JNum r) => r
  | _ => 0%R
  end.

Definition int_member (props : list (string * json)) (k : string) : Z :=
  Zfloor (num_member props k).

Definition bool_member (props : list (string * json)) (k : string) : bool :=
  match lookup k props with
  | Val (JBool b) => b
  | _ => false
  end.

Definition sprite_view (j : json) : SpriteObject :=
  let props := match j with JObj props => props | _ => [] end in
  {| id := str_member props "id";
     emoji := str_member props "emoji";
     x := num_member props "x";
     y := num_member props "y";
     rotation := num_member props "rotation";
     scaleX := num_member props "scaleX";
     scaleY := num_member props "scaleY";
     zIndex := int_member props "zIndex" |}.

Definition state_view (j : json) : EditorState :=
  let props := match j with JObj props => props | _ => [] end in
  {| sprites :=
       match lookup "sprites" props with
       | Val (JArr items) => map sprite_view items
       | _ => []
       end;
     selectedId :=
       match lookup "selectedId" props with
       | Val (JStr i) => Some i
       | _ => None
       end;
     nextId := int_member props "nextId";
     showOrigin := bool_member props "showOrigin";
     axesOnTop := bool_member props "axesOnTop";
     borderOnTop := bool_member props "borderOnTop";
     customFont := str_member props "customFont" |}.

(** [this.state = parsed]: the parsed object becomes the state as it is.  It
    is an [EditorState] when it has exactly the members of one, so that it is
    written back as the same text; any other object is outside the declared
    types. *)
Definition state_of_json (j : json) : option EditorState :=
  let st := state_view j in
  if json_eqb (json_of_state st) j then Some st else None.

End Snapshot.

(* ===================================================================== *)
(** * state.ts: StateManager                                             *)
(* ===================================================================== *)

Module StateManager.
Import JS Snapshot.

(** A sprite as [importJSON] builds it from parsed data, before anything
    constrains the members to their declared types. *)
Record RawSprite : Type := mkRaw {
  raw_id : string;
  raw_emoji : jsval;
  raw_x : jsval;
  raw_y : jsval;
  raw_rotation : jsval;
  raw_scaleX : jsval;
  raw_scaleY : jsval;
  raw_zIndex : Z
}.

(** What a listener finds in a manager whose state is not of the declared
    types: the sprites [importJSON] has built from an array, or the value
    that [importJSON] or [loadFromLocalStorage] has installed as the
    state. *)
Inductive Untyped : Type :=
| UntypedSprites (raws : list RawSprite)
| UntypedState (j : json).

(** A listener registered by [onChange]: a [() => void] written against the
    declared types.  On a state of these types it runs to its end; what is
    kept of it is whether it throws on a state outside them. *)
Definition Listener : Type := Untyped -> bool.

(** [window.localStorage] as the manager uses it: the entry under its key,
    and the texts the browser refuses to store (a quota that is exceeded, a
    storage that is switched off), on which [setItem] throws; what it
    refuses is taken not to change while the manager runs. *)
Record Storage : Type := mkStorage {
  entry : option JSONText;
  refuses : JSONText -> bool
}.

Definition getItem (storage : Storage) : option JSONText := entry storage.

Definition setItem (text : JSONText) (storage : Storage) : completion Storage :=
  if refuses storage text then Throw
  else Return {| entry := Some text; refuses := refuses storage |}.

(** The manager's fields, the number of times the listeners have been called
    on a state of the declared types, and [localStorage]. *)
Record t : Type := mk {
  state : EditorState;
  undoStack : list JSONText;
  redoStack : list JSONText;
  listeners : list Listener;
  notifications : nat;
  localStorage : Storage
}.

Definition with_state (st : EditorState) (sm : t) : t :=
  {| state := st; undoStack := undoStack sm; redoStack := redoStack sm;
     listeners := listeners sm;
     notifications := notifications sm; localStorage := localStorage sm |}.

(** Where a call leaves the manager: within the declared types, or holding
    data that TypeScript's types do not describe (the sources assign parsed
    JSON unchecked); the model follows the manager no further then. *)
Inductive Store : Type :=
| Typed (sm : t)
| SpritesOutsideTypes (raws : list RawSprite)
| StateOutsideTypes (j : json).

(** [new StateManager()], in a browser whose storage is [storage]. *)
Definition constructor (storage : Storage) : t :=
  {| state := {| sprites := []; selectedId := None; nextId := 1;
                 showOrigin := true; axesOnTop := false; borderOnTop := false;
                 customFont := "@googlefont:Noto Color Emoji" |};
     undoStack := []; redoStack := []; listeners := []; notifications := 0;
     localStorage := storage |}.

Definition getState (sm : t) : EditorState := state sm.

Definition onChange (listener : Listener) (sm : t) : t :=
  {| state := state sm; undoStack := undoStack sm; redoStack := redoStack sm;
     listeners := push (listeners sm) listener;
     notifications := notifications sm; localStorage := localStorage sm |}.

(** [notifyListeners()] on a state of the declared types: every listener
    runs to its end. *)
Definition notifyListeners (sm : t) : t :=
  {| state := state sm; undoStack := undoStack sm; redoStack := redoStack sm;
     listeners := listeners sm;
     notifications := S (notifications sm); localStorage := localStorage sm |}.

(** [notifyListeners()] on a state outside the declared types: whether one
    of the listeners throws. *)
Definition listener_throws (sm : t) (seen : Untyped) : bool :=
  existsb (fun listener : Listener => listener seen) (listeners sm).

(** [this.undoStack[this.undoStack.length - 1] !== snapshot] *)
Definition top_differs (stack : list JSONText) (snapshot : JSONText) : bool :=
  match last_entry stack with
  | Some top => negb (text_eqb top snapshot)
  | None => true
  end.

(** [try { localStorage.setItem(KEY, snapshot) } catch (e) { ... }]: a write
    that throws is logged and leaves the storage as it was. *)
Definition store_snapshot (snapshot : JSONText) (storage : Storage) : Storage :=
  match setItem snapshot storage with
  | Return stored => stored
  | Throw => storage
  end.

Definition saveSnapshot (sm : t) : t :=
  let snapshot := JSON_stringify (json_of_state (state sm)) in
  if top_differs (undoStack sm) snapshot then
    let pushed := push (undoStack sm) snapshot in
    {| state := state sm;
       undoStack := if (50 <? length pushed)%nat then tl pushed else pushed;
       redoStack := [];
       listeners := listeners sm;
       notifications := notifications sm;
       localStorage := store_snapshot snapshot (localStorage sm) |}
  else sm.

Definition setState (newState : EditorState) (sm : t) : t :=
  notifyListeners (with_state newState sm).

(** [`sprite-${n}`] *)
Definition sprite_id (n : Z) : string := String.append "sprite-" (String_of_int n).

Definition addSprite (emoji : string) (x y : R) (sm : t) : SpriteObject * t :=
  let st := state sm in
  let sprite :=
    {| id := sprite_id (nextId st); emoji := emoji; x := x; y := y;
       rotation := 0; scaleX := 1; scaleY := 1;
       zIndex := Z.of_nat (length (sprites st)) |} in
  let st1 := with_nextId (nextId st + 1) st in
  let st2 := with_sprites (push (sprites st1) sprite) st1 in
  let st3 := with_selectedId (Some (id sprite)) st2 in
  (sprite, notifyListeners (saveSnapshot (with_state st3 sm))).

Definition updateSprite (i : string) (updates : SpriteUpdates) (sm : t) : t :=
  match find_ref (has_id i) (sprites (state sm)) with
  | Some sprite =>
      let arr := modify_at sprite (fun s => Object_assign s updates) (sprites (state sm)) in
      notifyListeners (saveSnapshot (with_state (with_sprites arr (state sm)) sm))
  | None => sm
  end.

Definition updateSpriteWithoutSnapshot (i : string) (updates : SpriteUpdates) (sm : t) : t :=
  match find_ref (has_id i) (sprites (state sm)) with
  | Some sprite =>
      let arr := modify_at sprite (fun s => Object_assign s updates) (sprites (state sm)) in
      notifyListeners (with_state (with_sprites arr (state sm)) sm)
  | None => sm
  end.

Definition finalizeChanges (sm : t) : t := saveSnapshot sm.

(** [sorted.forEach((sprite, index) => { sprite.zIndex = index; })] *)
Fixpoint assign_indices (index : Z) (sorted : list nat) (arr : list SpriteObject)
  : list SpriteObject :=
  match sorted with
  | [] => arr
  | sprite :: rest => assign_indices (index + 1) rest (write_zIndex sprite index arr)
  end.

Definition reindexZOrder (arr : list SpriteObject) : list SpriteObject :=
  assign_indices 0 (sorted_refs arr) arr.

(** [this.state.selectedId === id] *)
Definition selected_is (i : string) (sel : option string) : bool :=
  match sel with
  | Some j => String.eqb j i
  | None => false
  end.

Definition deleteSprite (i : string) (sm : t) : t :=
  let st1 := with_sprites (filter (fun s => negb (has_id i s)) (sprites (state sm))) (state sm) in
  let st2 := if selected_is i (selectedId st1) then with_selectedId None st1 else st1 in
  let st3 := with_sprites (reindexZOrder (sprites st2)) st2 in
  notifyListeners (saveSnapshot (with_state st3 sm)).

Definition clearAll (sm : t) : t :=
  let st := with_selectedId None (with_sprites [] (state sm)) in
  notifyListeners (saveSnapshot (with_state st sm)).

Definition selectSprite (sel : option string) (sm : t) : t :=
  notifyListeners (saveSnapshot (with_state (with_selectedId sel (state sm)) sm)).

Definition setShowOrigin (show : bool) (sm : t) : t :=
  notifyListeners (saveSnapshot (with_state (with_showOrigin show (state sm)) sm)).

Definition setAxesOnTop (onTop : bool) (sm : t) : t :=
  notifyListeners (saveSnapshot (with_state (with_axesOnTop onTop (state sm)) sm)).

Definition setBorderOnTop (onTop : bool) (sm : t) : t :=
  notifyListeners (saveSnapshot (with_state (with_borderOnTop onTop (state sm)) sm)).

Definition getCustomFontInput (sm : t) : string := customFont (state sm).

Definition setCustomFontInput (fontInput : string) (sm : t) : t :=
  notifyListeners (saveSnapshot (with_state (with_customFont fontInput (state sm)) sm)).

(** [null] also for an empty [selectedId], which is falsy. *)
Definition getSelectedSprite (sm : t) : option SpriteObject :=
  match selectedId (state sm) with
  | None => None
  | Some i =>
      if String.eqb i "" then None
      else find (has_id i) (sprites (state sm))
  end.

(** The two sprites exchange their [zIndex]: the one found by id in the state
    and the one right above the first sprite with that id in z-order. *)
Definition swap_with_neighbour (sprite neighbour : nat) (arr : list SpriteObject)
  : list SpriteObject :=
  let temp := zIndex_at arr neighbour in
  let arr1 := write_zIndex neighbour (zIndex_at arr sprite) arr in
  write_zIndex sprite temp arr1.

Definition moveLayerUp (i : string) (sm : t) : t :=
  let arr := sprites (state sm) in
  match find_ref (has_id i) arr with
  | None => sm
  | Some sprite =>
      let sorted := sorted_refs arr in
      let index := findIndex (fun s => String.eqb (id_at arr s) i) sorted in
      if index <? Z.of_nat (length sorted) - 1 then
        match at_index sorted (index + 1) with
        | Some above =>
            let arr' := swap_with_neighbour sprite above arr in
            notifyListeners (saveSnapshot (with_state (with_sprites arr' (state sm)) sm))
        | None => sm (* not reached: [index + 1] is a position of [sorted] *)
        end
      else sm
  end.

Definition moveLayerDown (i : string) (sm : t) : t :=
  let arr := sprites (state sm) in
  match find_ref (has_id i) arr with
  | None => sm
  | Some sprite =>
      let sorted := sorted_refs arr in
      let index := findIndex (fun s => String.eqb (id_at arr s) i) sorted in
      if 0 <? index then
        match at_index sorted (index - 1) with
        | Some below =>
            let arr' := swap_with_neighbour sprite below arr in
            notifyListeners (saveSnapshot (with_state (with_sprites arr' (state sm)) sm))
        | None => sm (* not reached: [index - 1] is a position of [sorted] *)
        end
      else sm
  end.

(** [Math.max(...zs)] and [Math.min(...zs)] of a non-empty spread; every
    caller has found a sprite in the array first. *)
Definition Math_max_of (zs : list Z) : Z :=
  match zs with
  | [] => 0
  | z :: rest => fold_left Z.max rest z
  end.

Definition Math_min_of (zs : list Z) : Z :=
  match zs with
  | [] => 0
  | z :: rest => fold_left Z.min rest z
  end.

Definition moveLayerToFront (i : string) (sm : t) : t :=
  let arr := sprites (state sm) in
  match find_ref (has_id i) arr with
  | None => sm
  | Some sprite =>
      let maxZ := Math_max_of (map zIndex arr) in
      let arr1 := write_zIndex sprite (maxZ + 1) arr in
      let arr2 := reindexZOrder arr1 in
      notifyListeners (saveSnapshot (with_state (with_sprites arr2 (state sm)) sm))
  end.

Definition moveLayerToBack (i : string) (sm : t) : t :=
  let arr := sprites (state sm) in
  match find_ref (has_id i) arr with
  | None => sm
  | Some sprite =>
      let minZ := Math_min_of (map zIndex arr) in
      let arr1 := write_zIndex sprite (minZ - 1) arr in
      let arr2 := reindexZOrder arr1 in
      notifyListeners (saveSnapshot (with_state (with_sprites arr2 (state sm)) sm))
  end.

(** [Math.round(v * k) / k] *)
Definition round_to (k : R) (v : R) : R := (Math_round (v * k) / k)%R.

(** One element of the compact array: [e], then the members that differ from
    their defaults, in the order the source assigns them. *)
Definition compact (sprite : SpriteObject) : json :=
  let x := round_to 100 (x sprite) in
  let y := round_to 100 (y sprite) in
  let rotation := round_to 10 (rotation sprite) in
  let scaleX := round_to 10000 (scaleX sprite) in
  let scaleY := round_to 10000 (scaleY sprite) in
  JObj ([("e", JStr (emoji sprite))]
        ++ (if negb (num_eq x 0) then [("x", JNum x)] else [])
        ++ (if negb (num_eq y 0) then [("y", JNum y)] else [])
        ++ (if negb (num_eq rotation 0) then [("r", JNum rotation)] else [])
        ++ (if num_eq scaleX scaleY && negb (num_eq scaleX 1)
            then [("s", JNum scaleX)]
            else (if negb (num_eq scaleX 1) then [("sx", JNum scaleX)] else [])
                 ++ (if negb (num_eq scaleY 1) then [("sy", JNum scaleY)] else [])))%list.

(** [[...sprites].sort((a, b) => a.zIndex - b.zIndex)]; nothing is assigned
    through this copy. *)
Definition sorted_by_zIndex (arr : list SpriteObject) : list SpriteObject :=
  Array_sort (fun a b => zIndex a - zIndex b) arr.

Definition exportJSON (sm : t) : JSONText :=
  let sorted := sorted_by_zIndex (sprites (state sm)) in
  let compactSprites := map compact sorted in
  JSON_stringify (JArr compactSprites).

(** [sprite.k] once the first read has shown [sprite] not to be [null]. *)
Definition member (sprite : json) (k : string) : jsval :=
  match sprite with
  | JObj props => lookup k props
  | _ => Undefined
  end.

Definition defined (v : jsval) : bool := negb (is_undefined v).

Definition one : jsval := Val (JNum 1).
Definition zero : jsval := Val (JNum 0).

(** The callback of [imported.map((sprite, index) => ...)].  The first
    property read, [sprite.e], throws on [null]. *)
Definition import_sprite (nextId : Z) (sprite : json) (index : Z) : completion RawSprite :=
  match sprite with
  | JNull => Throw
  | _ =>
      let get := member sprite in
      let emoji := or_else (get "e") (get "emoji") in
      let rotation :=
        if defined (get "r") then get "r" else or_else (get "rotation") zero in
      let scales :=
        if defined (get "s") then (get "s", get "s")
        else if defined (get "sx") || defined (get "sy") then
          (if defined (get "sx") then get "sx" else one,
           if defined (get "sy") then get "sy" else one)
        else if defined (get "scaleX") || defined (get "scaleY") then
          (if defined (get "scaleX") then get "scaleX" else one,
           if defined (get "scaleY") then get "scaleY" else one)
        else if defined (get "scale") then (get "scale", get "scale")
        else (one, one) in
      Return {| raw_id := sprite_id (nextId + index);
                raw_emoji := emoji;
                raw_x := or_else (get "x") zero;
                raw_y := or_else (get "y") zero;
                raw_rotation := rotation;
                raw_scaleX := fst scales;
                raw_scaleY := snd scales;
                raw_zIndex := index |}
  end.

(** The sprite a raw sprite is, when its members have their declared types. *)
Definition typed_sprite (raw : RawSprite) : option SpriteObject :=
  match raw_emoji raw, raw_x raw, raw_y raw, raw_rotation raw, raw_scaleX raw, raw_scaleY raw with
  | Val (JStr e), Val (JNum x), Val (JNum y), Val (JNum r), Val (JNum sx), Val (JNum sy) =>
      Some {| id := raw_id raw; emoji := e; x := x; y := y; rotation := r;
              scaleX := sx; scaleY := sy; zIndex := raw_zIndex raw |}
  | _, _, _, _, _, _ => None
  end.

Fixpoint typed_sprites (raws : list RawSprite) : option (list SpriteObject) :=
  match raws with
  | [] => Some []
  | raw :: rest =>
      match typed_sprite raw, typed_sprites rest with
      | Some s, Some l => Some (s :: l)
      | _, _ => None
      end
  end.

(** [importJSON]: the returned boolean and where the manager is left.  Every
    exception raised inside the [try] block ends in [return false], also one
    a listener raises once the state has been replaced. *)
Definition importJSON (json : JSONText) (sm : t) : bool * Store :=
  match JSON_parse json with
  | Throw => (false, Typed sm)
  | Return imported =>
      if Array_isArray (Val imported) then
        let items := match imported with JArr items => items | _ => [] end in
        match map_indexed 0 (import_sprite (nextId (state sm))) items with
        | Throw => (false, Typed sm)
        | Return raws =>
            match typed_sprites raws with
            | Some sprites =>
                let st1 := with_sprites sprites (state sm) in
                let st2 := with_nextId (nextId st1 + Z.of_nat (length sprites)) st1 in
                let st3 := with_selectedId None st2 in
                (true, Typed (notifyListeners (saveSnapshot (with_state st3 sm))))
            | None =>
                (negb (listener_throws sm (UntypedSprites raws)), SpritesOutsideTypes raws)
            end
        end
      else
        match prop imported "sprites" with
        | Throw => (false, Typed sm)
        | Return found =>
            if truthy found && Array_isArray found then
              match state_of_json imported with
              | Some st => (true, Typed (notifyListeners (saveSnapshot (with_state st sm))))
              | None =>
                  (negb (listener_throws sm (UntypedState imported)),
                   StateOutsideTypes imported)
              end
            else (false, Typed sm)
        end
  end.

(** [undo] and [redo] re-parse a stack entry; [JSON.parse] throwing there
    leaves the call by an exception, and so does a listener that throws on
    the state installed. *)
Definition undo (sm : t) : completion Store :=
  if (length (undoStack sm) <=? 1)%nat then Return (Typed sm)
  else
    match last_entry (undoStack sm) with
    | None => Return (Typed sm) (* not reached: the stack has two entries *)
    | Some current =>
        let undoStack' := removelast (undoStack sm) in
        let redoStack' := push (redoStack sm) current in
        match last_entry undoStack' with
        | None => Throw (* not reached: one entry is left *)
        | Some previous =>
            parsed <- JSON_parse previous ;;
            match state_of_json parsed with
            | Some st =>
                Return (Typed (notifyListeners
                  {| state := st; undoStack := undoStack'; redoStack := redoStack';
                     listeners := listeners sm; notifications := notifications sm;
                     localStorage := localStorage sm |}))
            | None =>
                if listener_throws sm (UntypedState parsed) then Throw
                else Return (StateOutsideTypes parsed)
            end
        end
    end.

Definition redo (sm : t) : completion Store :=
  match last_entry (redoStack sm) with
  | None => Return (Typed sm)
  | Some next =>
      let redoStack' := removelast (redoStack sm) in
      let undoStack' := push (undoStack sm) next in
      parsed <- JSON_parse next ;;
      match state_of_json parsed with
      | Some st =>
          Return (Typed (notifyListeners
            {| state := st; undoStack := undoStack'; redoStack := redoStack';
               listeners := listeners sm; notifications := notifications sm;
               localStorage := localStorage sm |}))
      | None =>
          if listener_throws sm (UntypedState parsed) then Throw
          else Return (StateOutsideTypes parsed)
      end
  end.

Definition canUndo (sm : t) : bool := (1 <? length (undoStack sm))%nat.

Definition canRedo (sm : t) : bool := (0 <? length (redoStack sm))%nat.

(** [loadFromLocalStorage]: a missing, unparsable or shapeless entry falls
    through to the last two lines, which reset the undo stack only; so does
    an exception a listener raises once the state has been replaced. *)
Definition loadFromLocalStorage (sm : t) : bool * Store :=
  let fallback :=
    (false, Typed {| state := state sm;
                     undoStack := [JSON_stringify (json_of_state (state sm))];
                     redoStack := redoStack sm;
                     listeners := listeners sm; notifications := notifications sm;
                     localStorage := localStorage sm |}) in
  match getItem (localStorage sm) with
  | None => fallback
  | Some stored =>
      match JSON_parse stored with
      | Throw => fallback
      | Return parsed =>
          match prop parsed "sprites" with
          | Throw => fallback
          | Return found =>
              if truthy found && Array_isArray found then
                match state_of_json parsed with
                | Some st =>
                    (true, Typed (notifyListeners
                       {| state := st; undoStack := [stored]; redoStack := [];
                          listeners := listeners sm; notifications := notifications sm;
                          localStorage := localStorage sm |}))
                | None =>
                    (negb (listener_throws sm (UntypedState parsed)),
                     StateOutsideTypes parsed)
                end
              else fallback
          end
      end
  end.

(** ** The public operations as calls *)

Inductive Op : Type :=
| SetState (newState : EditorState)
| AddSprite (emoji : string) (x y : R)
| UpdateSprite (i : string) (updates : SpriteUpdates)
| UpdateSpriteWithoutSnapshot (i : string) (updates : SpriteUpdates)
| FinalizeChanges
| DeleteSprite (i : string)
| ClearAll
| SelectSprite (sel : option string)
| SetShowOrigin (show : bool)
| SetAxesOnTop (onTop : bool)
| SetBorderOnTop (onTop : bool)
| SetCustomFontInput (fontInput : string)
| MoveLayerUp (i : string)
| MoveLayerDown (i : string)
| MoveLayerToFront (i : string)
| MoveLayerToBack (i : string)
| ImportJSON (json : JSONText)
| Undo
| Redo.

Definition call (op : Op) (sm : t) : completion Store :=
  match op with
  | SetState newState => Return (Typed (setState newState sm))
  | AddSprite emoji x y => Return (Typed (snd (addSprite emoji x y sm)))
  | UpdateSprite i updates => Return (Typed (updateSprite i updates sm))
  | UpdateSpriteWithoutSnapshot i updates =>
      Return (Typed (updateSpriteWithoutSnapshot i updates sm))
  | FinalizeChanges => Return (Typed (finalizeChanges sm))
  | DeleteSprite i => Return (Typed (deleteSprite i sm))
  | ClearAll => Return (Typed (clearAll sm))
  | SelectSprite sel => Return (Typed (selectSprite sel sm))
  | SetShowOrigin show => Return (Typed (setShowOrigin show sm))
  | SetAxesOnTop onTop => Return (Typed (setAxesOnTop onTop sm))
  | SetBorderOnTop onTop => Return (Typed (setBorderOnTop onTop sm))
  | SetCustomFontInput fontInput => Return (Typed (setCustomFontInput fontInput sm))
  | MoveLayerUp i => Return (Typed (moveLayerUp i sm))
  | MoveLayerDown i => Return (Typed (moveLayerDown i sm))
  | MoveLayerToFront i => Return (Typed (moveLayerToFront i sm))
  | MoveLayerToBack i => Return (Typed (moveLayerToBack i sm))
  | ImportJSON json => Return (snd (importJSON json sm))
  | Undo => undo sm
  | Redo => redo sm
  end.

(** [onChange] for each listener of a list, in turn. *)
Definition register (registered : list Listener) (sm : t) : t :=
  fold_left (fun sm0 listener => onChange listener sm0) registered sm.

(** The editor creates its manager and loads the stored state at once:
    [new StateManager()] then [loadFromLocalStorage()]; listeners are
    registered after that. *)
Inductive Started : t -> Prop :=
| started (storage : Storage) (loaded : bool) (sm : t) (registered : list Listener) :
    loadFromLocalStorage (constructor storage) = (loaded, Typed sm) ->
    Started (register registered sm).

(** The managers a sequence of calls from [allowed] leads to. *)
Inductive ReachableBy (allowed : Op -> Prop) (start : t -> Prop) : t -> Prop :=
| reach_start (sm : t) : start sm -> ReachableBy allowed start sm
| reach_call (op : Op) (sm sm' : t) :
    ReachableBy allowed start sm ->
    allowed op ->
    call op sm = Return (Typed sm') ->
    ReachableBy allowed start sm'.

Definition Reachable : t -> Prop := ReachableBy (fun _ => True) Started.

(** The inputs for which [importJSON] takes its full-state branch. *)
Definition full_state_input (json : JSONText) : bool :=
  match JSON_parse json with
  | Return (JObj props) => Array_isArray (lookup "sprites" props)
  | _ => false
  end.

(** The calls under which the manager builds or edits sprites itself: all
    but those that install a state object handed in from outside
    ([setState], the full-state branch of [importJSON]) and updates that
    carry a [zIndex]. *)
Definition editing (op : Op) : Prop :=
  match op with
  | SetState _ => False
  | UpdateSprite _ updates => new_zIndex updates = None
  | UpdateSpriteWithoutSnapshot _ updates => new_zIndex updates = None
  | ImportJSON json => full_state_input json = false
  | _ => True
  end.

(** The [zIndex] values of the sprites are exactly 0, ..., n-1, each once. *)
Definition dense (arr : list SpriteObject) : Prop :=
  Permutation (map zIndex arr) (map Z.of_nat (seq 0 (length arr))).

(** A start from nothing stored (a first run), or from a stored state whose
    z-order is dense. *)
Definition DenseStart (sm : t) : Prop :=
  Started sm /\ dense (sprites (state sm)).

Definition EditReachable : t -> Prop := ReachableBy editing DenseStart.

End StateManager.

(* ===================================================================== *)
(** * canvas.ts: CanvasRenderer                                          *)
(* ===================================================================== *)

Module CanvasRenderer.
Import JS.
#[local] Open Scope R_scope.

(** What [ctx.measureText] reports of the rendered ink. *)
Record TextMetrics : Type := mkMetrics {
  actualBoundingBoxLeft : R;
  actualBoundingBoxRight : R;
  actualBoundingBoxAscent : R;
  actualBoundingBoxDescent : R
}.

(** The current transformation matrix of a 2D context: a point [(px, py)] of
    the current frame is drawn at
    [(m_a * px + m_c * py + m_e, m_b * px + m_d * py + m_f)]. *)
Record Matrix : Type := mkMatrix {
  m_a : R; m_b : R; m_c : R; m_d : R; m_e : R; m_f : R
}.

Definition identity : Matrix := mkMatrix 1 0 0 1 0 0.

(** [ctx.transform(a, b, c, d, e, f)] multiplies the current matrix on the
    right; [translate], [rotate] and [scale] are instances of it. *)
Definition ctx_transform (m : Matrix) (a b c d e f : R) : Matrix :=
  {| m_a := m_a m * a + m_c m * b;
     m_b := m_b m * a + m_d m * b;
     m_c := m_a m * c + m_c m * d;
     m_d := m_b m * c + m_d m * d;
     m_e := m_a m * e + m_c m * f + m_e m;
     m_f := m_b m * e + m_d m * f + m_f m |}.

Definition ctx_translate (tx ty : R) (m : Matrix) : Matrix :=
  ctx_transform m 1 0 0 1 tx ty.

Definition ctx_rotate (angle : R) (m : Matrix) : Matrix :=
  ctx_transform m (cos angle) (sin angle) (- sin angle) (cos angle) 0 0.

Definition ctx_scale (sx sy : R) (m : Matrix) : Matrix :=
  ctx_transform m sx 0 0 sy 0 0.

Definition map_point (m : Matrix) (p : Point.t) : Point.t :=
  {| Point.x := m_a m * Point.x p + m_c m * Point.y p + m_e m;
     Point.y := m_b m * Point.x p + m_d m * Point.y p + m_f m |}.

Section Renderer.

(** The glyph metrics of a text under a [ctx.font] setting, and the canvas
    centre. *)
Variable measureText : string -> string -> TextMetrics.
Variables centerX centerY : R.

Definition BASE_FONT_SIZE : Z := 80.

(** [`${fontSize}px ${customFont}`] *)
Definition font_setting (customFont : string) : string :=
  String.append (String_of_int BASE_FONT_SIZE) (String.append "px " customFont).

Definition getSpriteBounds (sprite : SpriteObject) (customFont : string) : Bounds.t :=
  let metrics := measureText (font_setting customFont) (emoji sprite) in
  let left := actualBoundingBoxLeft metrics in
  let right := actualBoundingBoxRight metrics in
  let ascent := actualBoundingBoxAscent metrics in
  let descent := actualBoundingBoxDescent metrics in
  let baseWidth := left + right in
  let baseHeight := ascent + descent in
  let width := baseWidth * scaleX sprite in
  let height := baseHeight * scaleY sprite in
  let penX := - baseWidth / 2 + left in
  let penY := ascent - baseHeight / 2 in
  {| Bounds.x := x sprite - width / 2;
     Bounds.y := y sprite - height / 2;
     Bounds.width := width;
     Bounds.height := height;
     Bounds.penX := penX;
     Bounds.penY := penY |}.

Definition screenToWorld (screenX screenY : R) : Point.t :=
  {| Point.x := screenX - centerX; Point.y := screenY - centerY |}.

Definition worldToScreen (worldX worldY : R) : Point.t :=
  {| Point.x := centerX + worldX; Point.y := centerY + worldY |}.

(** The matrix [drawSprite] has set up, from the identity, once it has
    translated to the sprite, rotated and scaled. *)
Definition sprite_frame (sprite : SpriteObject) : Matrix :=
  let screenX := centerX + x sprite in
  let screenY := centerY + y sprite in
  ctx_scale (scaleX sprite) (scaleY sprite)
    (ctx_rotate (rotation sprite * Math_PI / 180)
       (ctx_translate screenX screenY identity)).

(** ... and after the last [translate], to the pen position of the glyph. *)
Definition glyph_frame (sprite : SpriteObject) (customFont : string) : Matrix :=
  let bounds := getSpriteBounds sprite customFont in
  ctx_translate (Bounds.penX bounds) (Bounds.penY bounds) (sprite_frame sprite).

(** Where a point of the sprite's local frame is painted, in world
    coordinates. *)
Definition paint (sprite : SpriteObject) (local : Point.t) : Point.t :=
  let screen := map_point (sprite_frame sprite) local in
  screenToWorld (Point.x screen) (Point.y screen).

Definition isPointInSprite (sprite : SpriteObject) (worldX worldY : R)
    (customFont : string) : bool :=
  let bounds := getSpriteBounds sprite customFont in
  let localX := worldX - x sprite in
  let localY := worldY - y sprite in
  let rad := - rotation sprite * Math_PI / 180 in
  let cos := cos rad in
  let sin := sin rad in
  let rotatedX := localX * cos - localY * sin in
  let rotatedY := localX * sin + localY * cos in
  num_ge rotatedX (- Bounds.width bounds / 2)
  && num_le rotatedX (Bounds.width bounds / 2)
  && num_ge rotatedY (- Bounds.height bounds / 2)
  && num_le rotatedY (Bounds.height bounds / 2).

(** The loop of [hitTest] returns at the first sprite that contains the
    point. *)
Definition hitTest (sprites : list SpriteObject) (worldX worldY : R)
    (customFont : string) : option string :=
  let sorted := Array_sort (fun a b => (zIndex b - zIndex a)%Z) sprites in
  option_map id (find (fun sprite => isPointInSprite sprite worldX worldY customFont) sorted).

Definition rotatePoint (x y rotation : R) : Point.t :=
  let rad := rotation * Math_PI / 180 in
  let cos := cos rad in
  let sin := sin rad in
  {| Point.x := x * cos - y * sin; Point.y := x * sin + y * cos |}.

(** What the calls of [render] put on the cleared canvas, first to last: the
    axes, the border, and for a sprite its text, filled at the origin of the
    glyph frame in the font set. *)
Inductive Drawn : Type :=
| Axes
| Border
| Glyph (text font : string) (frame : Matrix).

Definition drawSprite (sprite : SpriteObject) (customFont : string) : Drawn :=
  Glyph (emoji sprite) (font_setting customFont) (glyph_frame sprite customFont).

Definition render (sprites : list SpriteObject) (showOrigin axesOnTop borderOnTop : bool)
    (customFont : string) : list Drawn :=
  let sorted := Array_sort (fun a b => (zIndex a - zIndex b)%Z) sprites in
  ((if showOrigin && negb axesOnTop then [Axes] else [])
   ++ (if showOrigin && negb borderOnTop then [Border] else [])
   ++ map (fun sprite => drawSprite sprite customFont) sorted
   ++ (if showOrigin && axesOnTop then [Axes] else [])
   ++ (if showOrigin && borderOnTop then [Border] else []))%list.

End Renderer.

End CanvasRenderer.

(* ===================================================================== *)
(** * gizmo.ts: Gizmo                                                    *)
(* ===================================================================== *)

Module InteractionMode.
Inductive t : Type :=
| None
| Dragging
| Rotating
| ScalingTopLeft
| ScalingTopRight
| ScalingBottomLeft
| ScalingBottomRight.
End InteractionMode.

Module Handle.
Record t : Type := mk {
  x : R;
  y : R;
  width : R;
  height : R;
  mode : InteractionMode.t
}.
End Handle.

Module Gizmo.
Import JS.
#[local] Open Scope R_scope.

Definition HANDLE_HIT_SIZE : R := 14.
Definition ROTATION_HANDLE_OFFSET : R := 25.
Definition ROTATION_HANDLE_RADIUS : R := 6.
Definition BOUNDS_MARGIN : R := 4.

(** The session fields of the gizmo. *)
Record t : Type := mk {
  mode : InteractionMode.t;
  dragStartPos : option Point.t;
  dragStartSpriteState : option SpriteObject;
  dragStartLocalPos : option Point.t
}.

Definition worldToLocalWithScale
    (spriteX spriteY rotation scaleX scaleY worldX worldY : R) : Point.t :=
  let localX := worldX - spriteX in
  let localY := worldY - spriteY in
  let rad := - rotation * Math_PI / 180 in
  let cos := cos rad in
  let sin := sin rad in
  let rotatedX := localX * cos - localY * sin in
  let rotatedY := localX * sin + localY * cos in
  {| Point.x := rotatedX / scaleX; Point.y := rotatedY / scaleY |}.

Definition worldToLocal (sprite : SpriteObject) (worldX worldY : R) : Point.t :=
  worldToLocalWithScale (x sprite) (y sprite) (rotation sprite)
    (scaleX sprite) (scaleY sprite) worldX worldY.

Definition scale_updates (sx sy : R) : SpriteUpdates :=
  mkUpdates Datatypes.None Datatypes.None Datatypes.None Datatypes.None Datatypes.None
    (Some sx) (Some sy) Datatypes.None.

(** [handleScaling(sprite, mousePos, shiftKey)]; [sprite] is the selected
    sprite as the state holds it at the call. *)
Definition handleScaling (g : t) (sprite : SpriteObject) (mousePos : Point.t)
    (shiftKey : bool) (sm : StateManager.t) : StateManager.t :=
  match dragStartPos g, dragStartSpriteState g, dragStartLocalPos g with
  | Some _, Some start, Some startLocal =>
      let currentLocal :=
        worldToLocalWithScale (x sprite) (y sprite) (rotation sprite)
          (num_or (scaleX start) 1) (num_or (scaleY start) 1)
          (Point.x mousePos) (Point.y mousePos) in
      let startScaleX := num_or (scaleX start) 1 in
      let startScaleY := num_or (scaleY start) 1 in
      if shiftKey then
        let newScaleX :=
          if num_gt (Math_abs (Point.x startLocal)) 0.001
          then startScaleX * (Point.x currentLocal / Point.x startLocal)
          else startScaleX in
        let newScaleY :=
          if num_gt (Math_abs (Point.y startLocal)) 0.001
          then startScaleY * (Point.y currentLocal / Point.y startLocal)
          else startScaleY in
        StateManager.updateSpriteWithoutSnapshot (id sprite)
          (scale_updates (Math_max 0.1 (Math_abs newScaleX))
                         (Math_max 0.1 (Math_abs newScaleY))) sm
      else
        let startDist :=
          Math_sqrt (Point.x startLocal * Point.x startLocal
                     + Point.y startLocal * Point.y startLocal) in
        let scaleRatio :=
          if num_gt startDist 0.001 then
            let currentDist :=
              Math_sqrt (Point.x currentLocal * Point.x currentLocal
                         + Point.y currentLocal * Point.y currentLocal) in
            currentDist / startDist
          else 1 in
        let newScaleX := startScaleX * scaleRatio in
        let newScaleY := startScaleY * scaleRatio in
        StateManager.updateSpriteWithoutSnapshot (id sprite)
          (scale_updates (Math_max 0.1 newScaleX) (Math_max 0.1 newScaleY)) sm
  | _, _, _ => sm
  end.

(** [Math.atan2(y, x)] *)
Definition Math_atan2 (y x : R) : R :=
  if num_gt x 0 then atan (y / x)
  else if num_gt 0 x then
    (if num_ge y 0 then atan (y / x) + PI else atan (y / x) - PI)
  else if num_gt y 0 then PI / 2
  else if num_gt 0 y then - PI / 2
  else 0.

Definition rotation_update (degrees : R) : SpriteUpdates :=
  mkUpdates Datatypes.None Datatypes.None Datatypes.None Datatypes.None (Some degrees)
    Datatypes.None Datatypes.None Datatypes.None.

Definition position_updates (x y : R) : SpriteUpdates :=
  mkUpdates Datatypes.None Datatypes.None (Some x) (Some y) Datatypes.None
    Datatypes.None Datatypes.None Datatypes.None.

Definition handleRotation (g : t) (sprite : SpriteObject) (mousePos : Point.t)
    (sm : StateManager.t) : StateManager.t :=
  match dragStartSpriteState g with
  | Datatypes.None => sm
  | Some _ =>
      let centerX := x sprite in
      let centerY := y sprite in
      let angle := Math_atan2 (Point.y mousePos - centerY) (Point.x mousePos - centerX) in
      let degrees := angle * 180 / Math_PI + 90 in
      StateManager.updateSpriteWithoutSnapshot (id sprite) (rotation_update degrees) sm
  end.

(** [onPointerMove(e)], for an event at world position [mousePos] with the
    shift key as given.  Outside a session only the cursor changes, which is
    not part of the model. *)
Definition onPointerMove (g : t) (mousePos : Point.t) (shiftKey : bool)
    (sm : StateManager.t) : StateManager.t :=
  match mode g, dragStartPos g, dragStartSpriteState g with
  | InteractionMode.None, _, _ => sm
  | _, Datatypes.None, _ => sm
  | _, _, Datatypes.None => sm
  | active, Some startPos, Some start =>
      match StateManager.getSelectedSprite sm with
      | Datatypes.None => sm
      | Some selected =>
          let dx := Point.x mousePos - Point.x startPos in
          let dy := Point.y mousePos - Point.y startPos in
          match active with
          | InteractionMode.None => sm
          | InteractionMode.Dragging =>
              StateManager.updateSpriteWithoutSnapshot (id selected)
                (position_updates (num_or (x start) 0 + dx) (num_or (y start) 0 + dy)) sm
          | InteractionMode.Rotating => handleRotation g selected mousePos sm
          | InteractionMode.ScalingTopLeft
          | InteractionMode.ScalingTopRight
          | InteractionMode.ScalingBottomLeft
          | InteractionMode.ScalingBottomRight =>
              handleScaling g selected mousePos shiftKey sm
          end
      end
  end.

(** [onPointerUp(e)]: pointer capture and the cursor are not part of the
    model. *)
Definition onPointerUp (g : t) (sm : StateManager.t) : t * StateManager.t :=
  let sm' :=
    match mode g with
    | InteractionMode.None => sm
    | _ => StateManager.finalizeChanges sm
    end in
  ({| mode := InteractionMode.None; dragStartPos := Datatypes.None;
      dragStartSpriteState := Datatypes.None; dragStartLocalPos := Datatypes.None |},
   sm').

(** [h.mode === InteractionMode.Rotating] *)
Definition is_rotating (m : InteractionMode.t) : bool :=
  match m with
  | InteractionMode.Rotating => true
  | _ => false
  end.

Definition isPointInRect (point : Point.t) (rect : Handle.t) : bool :=
  num_ge (Point.x point) (Handle.x rect - Handle.width rect / 2)
  && num_le (Point.x point) (Handle.x rect + Handle.width rect / 2)
  && num_ge (Point.y point) (Handle.y rect - Handle.height rect / 2)
  && num_le (Point.y point) (Handle.y rect + Handle.height rect / 2).

Definition isPointInCircle (point center : Point.t) (radius : R) : bool :=
  let dx := Point.x point - Point.x center in
  let dy := Point.y point - Point.y center in
  num_le (Math_sqrt (dx * dx + dy * dy)) radius.

Definition cursors : list string :=
  ["e-resize"; "se-resize"; "s-resize"; "sw-resize";
   "w-resize"; "nw-resize"; "n-resize"; "ne-resize"].

Definition getCursorForHandle (handle : Handle.t) (sprite : SpriteObject) : string :=
  let dx := Handle.x handle - x sprite in
  let dy := Handle.y handle - y sprite in
  let angle := Math_atan2 dy dx * 180 / Math_PI in
  let angle := if num_lt angle 0 then angle + 360 else angle in
  let angle := num_rem (angle + 22.5) 360 in
  let direction := Zfloor (angle / 45) in
  match at_index cursors direction with
  | Some cursor => cursor
  | Datatypes.None => "nwse-resize"
  end.

(** [if (hitId)] on [string | null] *)
Definition known (hitId : option string) : bool :=
  match hitId with
  | Some i => negb (String.eqb i "")
  | Datatypes.None => false
  end.

Section Pointer.

(** The glyph metrics behind the renderer, and [this.fontManager.getFontFamily()]. *)
Variable measureText : string -> string -> CanvasRenderer.TextMetrics.
Variable fontFamily : string.

Definition getHandles (sprite : SpriteObject) : list Handle.t :=
  let bounds := CanvasRenderer.getSpriteBounds measureText sprite fontFamily in
  let marginedWidth := Bounds.width bounds + BOUNDS_MARGIN * 2 in
  let marginedHeight := Bounds.height bounds + BOUNDS_MARGIN * 2 in
  let localHandles :=
    [ (- marginedWidth / 2, - marginedHeight / 2, InteractionMode.ScalingTopLeft);
      (marginedWidth / 2, - marginedHeight / 2, InteractionMode.ScalingTopRight);
      (- marginedWidth / 2, marginedHeight / 2, InteractionMode.ScalingBottomLeft);
      (marginedWidth / 2, marginedHeight / 2, InteractionMode.ScalingBottomRight);
      (0, - marginedHeight / 2 - ROTATION_HANDLE_OFFSET, InteractionMode.Rotating) ] in
  map (fun local : R * R * InteractionMode.t =>
         let '(localX, localY, localMode) := local in
         let rotated := CanvasRenderer.rotatePoint localX localY (rotation sprite) in
         let size :=
           if is_rotating localMode then ROTATION_HANDLE_RADIUS * 2 else HANDLE_HIT_SIZE in
         {| Handle.x := x sprite + Point.x rotated;
            Handle.y := y sprite + Point.y rotated;
            Handle.width := size;
            Handle.height := size;
            Handle.mode := localMode |})
      localHandles.

(** The pointer is on the rotation handle of the selected sprite. *)
Definition on_rotation_handle (mousePos : Point.t) (handles : list Handle.t) : bool :=
  match find (fun h => is_rotating (Handle.mode h)) handles with
  | Some rotHandle =>
      isPointInCircle mousePos
        {| Point.x := Handle.x rotHandle; Point.y := Handle.y rotHandle |}
        ROTATION_HANDLE_RADIUS
  | Datatypes.None => false
  end.

(** The first corner handle under the pointer. *)
Definition corner_handle_at (mousePos : Point.t) (handles : list Handle.t)
  : option Handle.t :=
  find (fun handle => negb (is_rotating (Handle.mode handle))
                      && isPointInRect mousePos handle) handles.

(** [onPointerDown(e)], for an event at world position [mousePos].  A sprite
    kept in [dragStartSpriteState] is a copy. *)
Definition onPointerDown (g : t) (mousePos : Point.t) (sm : StateManager.t)
  : t * StateManager.t :=
  let hitTest (sm0 : StateManager.t) :=
    CanvasRenderer.hitTest measureText (sprites (StateManager.getState sm0))
      (Point.x mousePos) (Point.y mousePos) fontFamily in
  let dragging (sprite : SpriteObject) :=
    {| mode := InteractionMode.Dragging; dragStartPos := Some mousePos;
       dragStartSpriteState := Some sprite; dragStartLocalPos := dragStartLocalPos g |} in
  let select_and_drag (hitId : string) :=
    let sm1 := StateManager.selectSprite (Some hitId) sm in
    match StateManager.getSelectedSprite sm1 with
    | Some newlySelected => (dragging newlySelected, sm1)
    | Datatypes.None => (g, sm1)
    end in
  (* no selected sprite, or a click outside the selected sprite *)
  let outside :=
    match hitTest sm with
    | Some hitId =>
        if known (Some hitId) then select_and_drag hitId
        else (g, StateManager.selectSprite Datatypes.None sm)
    | Datatypes.None => (g, StateManager.selectSprite Datatypes.None sm)
    end in
  match StateManager.getSelectedSprite sm with
  | Datatypes.None => outside
  | Some selected =>
      let handles := getHandles selected in
      if on_rotation_handle mousePos handles then
        ({| mode := InteractionMode.Rotating; dragStartPos := Some mousePos;
            dragStartSpriteState := Some selected;
            dragStartLocalPos := dragStartLocalPos g |}, sm)
      else
        match corner_handle_at mousePos handles with
        | Some handle =>
            ({| mode := Handle.mode handle; dragStartPos := Some mousePos;
                dragStartSpriteState := Some selected;
                dragStartLocalPos :=
                  Some (worldToLocal selected (Point.x mousePos) (Point.y mousePos)) |},
             sm)
        | Datatypes.None =>
            match hitTest sm with
            | Some hitId =>
                if known (Some hitId) && negb (String.eqb hitId (id selected))
                then select_and_drag hitId
                else if String.eqb hitId (id selected) then (dragging selected, sm)
                else outside
            | Datatypes.None => outside
            end
        end
  end.

(** The cursor [updateCursor(e)] sets.  Its last test reads the bounds under
    the renderer's default font. *)
Definition updateCursor (mousePos : Point.t) (sm : StateManager.t) : string :=
  match StateManager.getSelectedSprite sm with
  | Datatypes.None => "default"
  | Some selected =>
      let handles := getHandles selected in
      if on_rotation_handle mousePos handles then "grab"
      else
        match corner_handle_at mousePos handles with
        | Some handle => getCursorForHandle handle selected
        | Datatypes.None =>
            if CanvasRenderer.isPointInSprite measureText selected
                 (Point.x mousePos) (Point.y mousePos) "Arial"
            then "move"
            else "default"
        end
  end.

End Pointer.

End Gizmo.

(* ===================================================================== *)
(** * propertyPanel.ts: PropertyPanel                                    *)
(* ===================================================================== *)

Module PropertyPanel.
Import JS.
#[local] Open Scope R_scope.

(** What [onPropertyChange] reads of the panel: [isUpdating], the text of
    the first input, and the numbers [parseFloat] reads in the others,
    [None] standing for [NaN]. *)
Record t : Type := mk {
  isUpdating : bool;
  textInput : string;
  xInput : option R;
  yInput : option R;
  rotationInput : option R;
  scaleXInput : option R;
  scaleYInput : option R
}.



End PropertyPanel.

(* ===================================================================== *)
(** * main.ts: EmojiSpriteEditor                                         *)
(* ===================================================================== *)

Module EmojiSpriteEditor.
Import JS.
#[local] Open Scope R_scope.

Definition emoji_update (emoji : string) : SpriteUpdates :=
  mkUpdates None (Some emoji) None None None None None None.

(** [addSpriteToCanvas(emoji)]: the callback of the palette and of the
    search results. *)
Definition addSpriteToCanvas (emoji : string) (sm : StateManager.t) : StateManager.t :=
  match StateManager.getSelectedSprite sm with
  | Some selected => StateManager.updateSprite (id selected) (emoji_update emoji) sm
  | None => snd (StateManager.addSprite emoji 0 0 sm)
  end.

Definition shape_updates (rotation scaleX scaleY : R) : SpriteUpdates :=
  mkUpdates None None None None (Some rotation) (Some scaleX) (Some scaleY) None.

(** The key handler's branch for Ctrl+D. *)
Definition duplicateSelected (sm : StateManager.t) : StateManager.t :=
  match StateManager.getSelectedSprite sm with
  | Some selected =>
      let (newSprite, sm1) :=
        StateManager.addSprite (emoji selected) (x selected + 10) (y selected + 10) sm in
      let sm2 :=
        StateManager.updateSprite (id newSprite)
          (shape_updates (rotation selected) (scaleX selected) (scaleY selected)) sm1 in
      StateManager.selectSprite (Some (id newSprite)) sm2
  | None => sm
  end.

End EmojiSpriteEditor.

(* ===================================================================== *)
(** * Facts about the platform model                                     *)
(* ===================================================================== *)

Import JS Snapshot.

Lemma num_eq_true (a b : R) : num_eq a b = true <-> a = b.
Proof.
  unfold num_eq. destruct (Req_dec_T a b); split; auto; discriminate.
Qed.

Lemma num_eq_false (a b : R) : num_eq a b = false <-> a <> b.
Proof.
  unfold num_eq. destruct (Req_dec_T a b); split; auto; try discriminate.
  intros H; contradiction.
Qed.

Lemma num_eq_refl (a : R) : num_eq a a = true.
Proof. now apply num_eq_true. Qed.

(** Induction over parsed values, through the arrays and objects. *)
Lemma json_ind' (P : json -> Prop) :
  P JNull ->
  (forall b, P (JBool b)) ->
  (forall r, P (JNum r)) ->
  (forall s, P (JStr s)) ->
  (forall items, Forall P items -> P (JArr items)) ->
  (forall props, Forall (fun kv => P (snd kv)) props -> P (JObj props)) ->
  forall j, P j.
Proof.
  intros HNull HBool HNum HStr HArr HObj.
  fix IH 1.
  intros [ | b | r | s | items | props ].
  - exact HNull.
  - apply HBool.
  - apply HNum.
  - apply HStr.
  - apply HArr.
    induction items as [ | j items IHitems ]; constructor.
    + apply IH.
    + exact IHitems.
  - apply HObj.
    induction props as [ | [k j] props IHprops ]; constructor.
    + apply IH.
    + exact IHprops.
Qed.

Lemma json_eqb_eq (a b : json) : json_eqb a b = true <-> a = b.
Proof.
  revert b. induction a as [ | p | p | p | ps IH | ps IH ] using json_ind';
    intros [ | q | q | q | qs | qs ]; simpl;
    try (split; [ discriminate | intros H; discriminate H ]).
  - tauto.
  - rewrite Bool.eqb_true_iff. split; congruence.
  - rewrite num_eq_true. split; congruence.
  - rewrite String.eqb_eq. split; congruence.
  - revert qs. induction IH as [ | p ps Hp _ IHps ]; intros [ | q qs ];
      try (split; [ discriminate | intros H; discriminate H ]).
    + tauto.
    + rewrite andb_true_iff, Hp. specialize (IHps qs).
      split.
      * intros [-> H]. apply IHps in H. congruence.
      * intros H. injection H as -> H. split; [ reflexivity | ].
        apply IHps. now rewrite H.
  - revert qs. induction IH as [ | [k p] ps Hp _ IHps ]; intros [ | [k' q] qs ];
      try (split; [ discriminate | intros H; discriminate H ]).
    + tauto.
    + rewrite !andb_true_iff, String.eqb_eq. simpl in Hp. rewrite Hp.
      specialize (IHps qs).
      split.
      * intros [[-> ->] H]. apply IHps in H. congruence.
      * intros H. injection H as -> -> H. repeat split.
        apply IHps. now rewrite H.
Qed.

Lemma json_eqb_refl (a : json) : json_eqb a a = true.
Proof. now apply json_eqb_eq. Qed.

Lemma text_eqb_eq (s t : JSONText) : text_eqb s t = true <-> s = t.
Proof.
  destruct s as [a | m a], t as [b | n b]; simpl;
    try (split; [ discriminate | intros H; discriminate H ]).
  - rewrite String.eqb_eq. split; congruence.
  - rewrite andb_true_iff, Nat.eqb_eq, json_eqb_eq. split.
    + intros [-> ->]. reflexivity.
    + intros H. injection H as -> ->. now split.
Qed.

Lemma text_eqb_refl (s : JSONText) : text_eqb s s = true.
Proof. now apply text_eqb_eq. Qed.

Section ArrayFacts.
Context {A : Type}.

Lemma last_entry_push (l : list A) (a : A) : last_entry (push l a) = Some a.
Proof.
  unfold push. induction l as [ | b l IH ]; simpl; [ reflexivity | ].
  destruct (l ++ [a])%list eqn:E; [ | exact IH ].
  destruct l; discriminate E.
Qed.

Lemma removelast_push (l : list A) (a : A) : removelast (push l a) = l.
Proof. unfold push. apply removelast_last. Qed.

Lemma last_entry_none (l : list A) : last_entry l = None <-> l = [].
Proof.
  induction l as [ | a l IH ]; simpl; [ tauto | ].
  destruct l as [ | b l ].
  - split; discriminate.
  - rewrite IH. split; discriminate.
Qed.

Lemma push_unfold (l : list A) (a : A) (H : last_entry l = Some a) :
  l = push (removelast l) a.
Proof.
  assert (Hne : l <> []) by (intros ->; discriminate H).
  destruct (exists_last Hne) as [l' [b ->]].
  change (l' ++ [b])%list with (push l' b) in *.
  rewrite last_entry_push in H. injection H as ->.
  now rewrite removelast_push.
Qed.

Lemma find_ref_none (p : A -> bool) (l : list A) :
  (forall a, In a l -> p a = false) -> find_ref p l = None.
Proof.
  induction l as [ | a l IH ]; intros H; simpl; [ reflexivity | ].
  rewrite (H a (or_introl eq_refl)), IH; [ reflexivity | ].
  intros b Hb. apply H. now right.
Qed.

Lemma find_ref_some (p : A -> bool) (l : list A) (i : nat) :
  find_ref p l = Some i ->
  exists a, nth_error l i = Some a /\ p a = true.
Proof.
  revert i. induction l as [ | a l IH ]; intros i; simpl; [ discriminate | ].
  destruct (p a) eqn:Ha.
  - intros H. injection H as <-. exists a. now split.
  - destruct (find_ref p l) as [ j | ]; simpl; [ | discriminate ].
    intros H. injection H as <-. now apply IH.
Qed.

Lemma length_modify_at (i : nat) (f : A -> A) (l : list A) :
  length (modify_at i f l) = length l.
Proof.
  revert i. induction l as [ | a l IH ]; intros [ | i ]; simpl; auto.
Qed.

Lemma nth_error_modify_at (i j : nat) (f : A -> A) (l : list A) :
  nth_error (modify_at i f l) j =
  if Nat.eqb i j then option_map f (nth_error l j) else nth_error l j.
Proof.
  revert i j. induction l as [ | a l IH ]; intros [ | i ] [ | j ]; simpl; auto;
    now destruct (Nat.eqb _ _).
Qed.

End ArrayFacts.

(* ===================================================================== *)
(** * History: the undo and redo stacks                                  *)
(* ===================================================================== *)

Import StateManager.

(** The undo stack after a push, cut back to 50 entries. *)
Definition bounded (stack : list JSONText) : list JSONText :=
  if (50 <? length stack)%nat then tl stack else stack.

(** All a call can do to the two stacks. *)
Inductive history_step (u r : list JSONText) : list JSONText -> list JSONText -> Prop :=
| hs_same : history_step u r u r
| hs_commit (snapshot : JSONText) :
    last_entry u <> Some snapshot ->
    history_step u r (bounded (push u snapshot)) []
| hs_undo (u' : list JSONText) (current : JSONText) :
    u = push u' current -> u' <> [] ->
    history_step u r u' (push r current)
| hs_redo (r' : list JSONText) (next : JSONText) :
    r = push r' next ->
    history_step u r (push u next) r'.

(** No two neighbours of a stack are the same text. *)
Fixpoint no_repeat (l : list JSONText) : Prop :=
  match l with
  | a :: rest =>
      match rest with
      | b :: _ => a <> b
      | [] => True
      end /\ no_repeat rest
  | [] => True
  end.

(** The snapshots in the order they were committed: the undo stack, then the
    undone ones, latest undone first. *)
Definition timeline (sm : StateManager.t) : list JSONText :=
  (undoStack sm ++ rev (redoStack sm))%list.

Lemma top_differs_true (stack : list JSONText) (snapshot : JSONText) :
  top_differs stack snapshot = true <-> last_entry stack <> Some snapshot.
Proof.
  unfold top_differs. destruct (last_entry stack) as [top | ].
  - rewrite negb_true_iff. split.
    + intros H E. injection E as ->. now rewrite text_eqb_refl in H.
    + intros H. destruct (text_eqb top snapshot) eqn:E; [ | reflexivity ].
      apply text_eqb_eq in E. congruence.
  - split; [ discriminate | reflexivity ].
Qed.

Lemma top_differs_false (stack : list JSONText) (snapshot : JSONText) :
  top_differs stack snapshot = false <-> last_entry stack = Some snapshot.
Proof.
  destruct (top_differs stack snapshot) eqn:E.
  - apply top_differs_true in E. split; [ discriminate | contradiction ].
  - split; [ intros _ | reflexivity ].
    unfold top_differs in E. destruct (last_entry stack) as [top | ]; [ | discriminate ].
    apply negb_false_iff, text_eqb_eq in E. congruence.
Qed.

Lemma saveSnapshot_state (sm : StateManager.t) : state (saveSnapshot sm) = state sm.
Proof. unfold saveSnapshot. now destruct (top_differs _ _). Qed.

Lemma saveSnapshot_notifications (sm : StateManager.t) :
  notifications (saveSnapshot sm) = notifications sm.
Proof. unfold saveSnapshot. now destruct (top_differs _ _). Qed.

Lemma saveSnapshot_history (sm : StateManager.t) :
  history_step (undoStack sm) (redoStack sm)
    (undoStack (saveSnapshot sm)) (redoStack (saveSnapshot sm)).
Proof.
  unfold saveSnapshot.
  destruct (top_differs _ _) eqn:E; simpl.
  - apply top_differs_true in E. now apply hs_commit.
  - apply hs_same.
Qed.

Lemma commit_history (st : EditorState) (sm : StateManager.t) :
  history_step (undoStack sm) (redoStack sm)
    (undoStack (notifyListeners (saveSnapshot (with_state st sm))))
    (redoStack (notifyListeners (saveSnapshot (with_state st sm)))).
Proof. exact (saveSnapshot_history (with_state st sm)). Qed.

Lemma importJSON_history (json : JSONText) (sm sm' : StateManager.t) (ret : bool) :
  importJSON json sm = (ret, Typed sm') ->
  history_step (undoStack sm) (redoStack sm) (undoStack sm') (redoStack sm').
Proof.
  unfold importJSON.
  destruct (JSON_parse json) as [imported | ].
  2: { intros H. injection H as _ <-. apply hs_same. }
  destruct (Array_isArray (Val imported)).
  - destruct (map_indexed _ _ _) as [raws | ].
    2: { intros H. injection H as _ <-. apply hs_same. }
    destruct (typed_sprites raws) as [l | ]; [ | discriminate ].
    intros H. injection H as _ <-. apply commit_history.
  - destruct (prop imported "sprites") as [found | ].
    2: { intros H. injection H as _ <-. apply hs_same. }
    destruct (truthy found && Array_isArray found).
    2: { intros H. injection H as _ <-. apply hs_same. }
    destruct (state_of_json imported) as [st | ];
    [ | first [ discriminate | destruct (listener_throws _ _); discriminate ] ].
    intros H. injection H as _ <-. apply commit_history.
Qed.

Lemma undo_history (sm sm' : StateManager.t) :
  undo sm = Return (Typed sm') ->
  history_step (undoStack sm) (redoStack sm) (undoStack sm') (redoStack sm').
Proof.
  unfold undo.
  destruct (length (undoStack sm) <=? 1)%nat eqn:Hlen.
  { intros H. injection H as <-. apply hs_same. }
  apply Nat.leb_gt in Hlen.
  destruct (last_entry (undoStack sm)) as [current | ] eqn:Hlast.
  2: { intros H. injection H as <-. apply hs_same. }
  destruct (last_entry (removelast (undoStack sm))) as [previous | ]; [ | discriminate ].
  destruct (JSON_parse previous) as [parsed | ]; simpl; [ | discriminate ].
  destruct (state_of_json parsed) as [st | ];
    [ | first [ discriminate | destruct (listener_throws _ _); discriminate ] ].
  intros H. injection H as <-. simpl.
  apply hs_undo.
  - now apply push_unfold.
  - intros E. apply push_unfold in Hlast. rewrite E in Hlast.
    rewrite Hlast in Hlen. simpl in Hlen. lia.
Qed.

Lemma redo_history (sm sm' : StateManager.t) :
  redo sm = Return (Typed sm') ->
  history_step (undoStack sm) (redoStack sm) (undoStack sm') (redoStack sm').
Proof.
  unfold redo.
  destruct (last_entry (redoStack sm)) as [next | ] eqn:Hlast.
  2: { intros H. injection H as <-. apply hs_same. }
  destruct (JSON_parse next) as [parsed | ]; simpl; [ | discriminate ].
  destruct (state_of_json parsed) as [st | ];
    [ | first [ discriminate | destruct (listener_throws _ _); discriminate ] ].
  intros H. injection H as <-. simpl.
  apply hs_redo. now apply push_unfold.
Qed.

Lemma call_history (op : Op) (sm sm' : StateManager.t) :
  call op sm = Return (Typed sm') ->
  history_step (undoStack sm) (redoStack sm) (undoStack sm') (redoStack sm').
Proof.
  destruct op; simpl; intros H;
    try (injection H as <-; first [ apply commit_history | apply hs_same ]).
  - (* updateSprite *)
    injection H as <-. unfold updateSprite. destruct (find_ref _ _);
      [ apply commit_history | apply hs_same ].
  - injection H as <-.
    unfold updateSpriteWithoutSnapshot. destruct (find_ref _ _); apply hs_same.
  - injection H as <-. apply saveSnapshot_history.
  - injection H as <-.
    unfold moveLayerUp. destruct (find_ref _ _); [ | apply hs_same ].
    destruct (_ <? _); [ | apply hs_same ].
    destruct (at_index _ _); [ apply commit_history | apply hs_same ].
  - injection H as <-.
    unfold moveLayerDown. destruct (find_ref _ _); [ | apply hs_same ].
    destruct (_ <? _); [ | apply hs_same ].
    destruct (at_index _ _); [ apply commit_history | apply hs_same ].
  - injection H as <-. unfold moveLayerToFront. destruct (find_ref _ _);
      [ apply commit_history | apply hs_same ].
  - injection H as <-. unfold moveLayerToBack. destruct (find_ref _ _);
      [ apply commit_history | apply hs_same ].
  - destruct (importJSON _ sm) as [ret store] eqn:E.
    simpl in H. injection H as ->. now apply importJSON_history in E.
  - now apply undo_history.
  - now apply redo_history.
Qed.

Lemma no_repeat_app_l (a b : list JSONText) : no_repeat (a ++ b) -> no_repeat a.
Proof.
  induction a as [ | s a IH ]; simpl; [ tauto | ].
  intros [H1 H2]. split; [ | now apply IH ].
  destruct a; [ exact I | exact H1 ].
Qed.

Lemma no_repeat_push (l : list JSONText) (s : JSONText) :
  no_repeat l -> last_entry l <> Some s -> no_repeat (push l s).
Proof.
  unfold push. induction l as [ | a l IH ]; simpl; [ tauto | ].
  intros [H1 H2] Hlast.
  destruct l as [ | b l ]; simpl in *.
  - repeat split. congruence.
  - split; [ exact H1 | ]. now apply IH.
Qed.

Lemma no_repeat_tl (l : list JSONText) : no_repeat l -> no_repeat (tl l).
Proof. destruct l; simpl; tauto. Qed.

Lemma no_repeat_bounded (l : list JSONText) : no_repeat l -> no_repeat (bounded l).
Proof.
  unfold bounded. destruct (_ <? _)%nat; [ apply no_repeat_tl | trivial ].
Qed.

Lemma bounded_nonempty (l : list JSONText) (s : JSONText) : bounded (push l s) <> [].
Proof.
  unfold bounded, push.
  destruct (50 <? length (l ++ [s]))%nat eqn:E.
  - apply Nat.ltb_lt in E. destruct (l ++ [s])%list as [ | a [ | b rest ] ]; simpl in *;
      try lia. discriminate.
  - destruct l; discriminate.
Qed.

(** A step keeps the timeline free of repeats ... *)
Lemma history_step_no_repeat (u r u' r' : list JSONText) :
  history_step u r u' r' ->
  no_repeat (u ++ rev r) -> no_repeat (u' ++ rev r').
Proof.
  intros [ | snapshot Htop | u0 current -> Hne | r0 next -> ] H.
  - exact H.
  - simpl. rewrite app_nil_r. apply no_repeat_bounded, no_repeat_push; [ | exact Htop ].
    now apply no_repeat_app_l in H.
  - unfold push in *. rewrite rev_app_distr. simpl. now rewrite <- app_assoc in H.
  - unfold push in *. rewrite rev_app_distr in H. simpl in H. now rewrite <- app_assoc.
Qed.

(** ... and the undo stack inhabited. *)
Lemma history_step_nonempty (u r u' r' : list JSONText) :
  history_step u r u' r' -> u <> [] -> u' <> [].
Proof.
  intros [ | snapshot Htop | u0 current -> Hne | r0 next -> ] H.
  - exact H.
  - apply bounded_nonempty.
  - exact Hne.
  - unfold push. destruct u; discriminate.
Qed.

(** Registering listeners changes nothing else of the manager. *)
Lemma register_fields (registered : list Listener) (sm : StateManager.t) :
  state (register registered sm) = state sm
  /\ undoStack (register registered sm) = undoStack sm
  /\ redoStack (register registered sm) = redoStack sm
  /\ notifications (register registered sm) = notifications sm
  /\ localStorage (register registered sm) = localStorage sm.
Proof.
  unfold register. revert sm.
  induction registered as [ | listener registered IH ]; intros sm; [ now repeat split | ].
  simpl. destruct (IH (onChange listener sm)) as (-> & -> & -> & -> & ->).
  now repeat split.
Qed.

Lemma started_stacks (sm : StateManager.t) :
  Started sm -> exists entry, undoStack sm = [entry] /\ redoStack sm = [].
Proof.
  intros [storage loaded sm0 registered H].
  destruct (register_fields registered sm0) as (_ & -> & -> & _).
  unfold loadFromLocalStorage in H. simpl in H.
  destruct (getItem storage) as [stored | ].
  2: { injection H as _ <-. now eexists. }
  destruct (JSON_parse stored) as [parsed | ].
  2: { injection H as _ <-. now eexists. }
  destruct (prop parsed "sprites") as [found | ].
  2: { injection H as _ <-. now eexists. }
  destruct (truthy found && Array_isArray found).
  2: { injection H as _ <-. now eexists. }
  destruct (state_of_json parsed) as [st | ];
    [ | first [ discriminate | destruct (listener_throws _ _); discriminate ] ].
  injection H as _ <-. now eexists.
Qed.

Lemma reachable_timeline (sm : StateManager.t) :
  Reachable sm -> no_repeat (timeline sm) /\ undoStack sm <> [].
Proof.
  induction 1 as [ sm Hstart | op sm sm' _ [IH1 IH2] _ Hcall ].
  - destruct (started_stacks Hstart) as [entry [Hu Hr]].
    unfold timeline. rewrite Hu, Hr. simpl. repeat split. discriminate.
  - apply call_history in Hcall. split.
    + exact (history_step_no_repeat Hcall IH1).
    + exact (history_step_nonempty Hcall IH2).
Qed.

(** The manager of a first run and a manager holding two sprites, for
    examples. *)
Definition accepting (item : option JSONText) : Storage :=
  {| entry := item; refuses := fun _ => false |}.

Definition fresh : StateManager.t :=
  {| state := state (constructor (accepting None));
     undoStack := [serialize (state (constructor (accepting None)))];
     redoStack := []; listeners := []; notifications := 0;
     localStorage := accepting None |}.

Lemma fresh_started : Started fresh.
Proof. now apply (@started (accepting None) false _ []). Qed.

Lemma fresh_reachable : Reachable fresh.
Proof. apply reach_start, fresh_started. Qed.

(** C6 (undo floor).  With exactly one entry on the undo stack, [undo()]
    returns the manager as it is (state, undo stack and redo stack included)
    and [canUndo()] is false; and from the moment the editor has loaded, no
    call empties the undo stack. *)
Theorem undo_floor :
  (forall sm : StateManager.t,
      length (undoStack sm) = 1%nat ->
      undo sm = Return (Typed sm) /\ canUndo sm = false)
  /\ (forall sm : StateManager.t, Reachable sm -> undoStack sm <> []).
Proof.
  split.
  - intros sm H. unfold undo, canUndo. now rewrite H.
  - intros sm H. now apply reachable_timeline.
Qed.

Lemma undo_floor_witness :
  (undo fresh = Return (Typed fresh) /\ canUndo fresh = false)
  /\ undoStack (selectSprite (Some "sprite-1") fresh) <> [].
Proof.
  destruct undo_floor as [Hfloor Hnever]. split.
  - apply Hfloor. reflexivity.
  - apply Hnever.
    apply (@reach_call _ _ (SelectSprite (Some "sprite-1")) fresh);
      [ exact fresh_reachable | exact I | reflexivity ].
Defined.

(** C7 (snapshot de-duplication).  A commit whose serialized state is the
    text on top of the undo stack leaves both stacks as they are (the whole
    manager, in fact, when nothing else was touched); and in every manager the
    editor can reach, no two neighbouring entries of the undo stack are
    equal. *)
Theorem snapshot_deduplication :
  (forall (sm : StateManager.t) (st : EditorState),
      last_entry (undoStack sm) = Some (serialize st) ->
      undoStack (saveSnapshot (with_state st sm)) = undoStack sm
      /\ redoStack (saveSnapshot (with_state st sm)) = redoStack sm)
  /\ (forall sm : StateManager.t,
      last_entry (undoStack sm) = Some (serialize (state sm)) ->
      finalizeChanges sm = sm)
  /\ (forall sm : StateManager.t, Reachable sm -> no_repeat (undoStack sm)).
Proof.
  split; [ | split ].
  - intros sm st H. unfold saveSnapshot. simpl.
    apply top_differs_false in H. unfold serialize in H. now rewrite H.
  - intros sm H. unfold finalizeChanges, saveSnapshot.
    apply top_differs_false in H. unfold serialize in H. now rewrite H.
  - intros sm H. apply reachable_timeline in H. destruct H as [H _].
    now apply no_repeat_app_l in H.
Qed.

Lemma snapshot_deduplication_witness :
  (undoStack (saveSnapshot (with_state (state fresh) fresh)) = undoStack fresh
   /\ redoStack (saveSnapshot (with_state (state fresh) fresh)) = redoStack fresh)
  /\ finalizeChanges fresh = fresh
  /\ no_repeat (undoStack fresh).
Proof.
  destruct snapshot_deduplication as [Hcommit [Hfinal Hnever]].
  split; [ | split ].
  - apply Hcommit. reflexivity.
  - apply Hfinal. reflexivity.
  - apply (Hnever fresh fresh_reachable).
Defined.

(* ===================================================================== *)
(** * Updates addressed to no sprite                                     *)
(* ===================================================================== *)

(** A manager holding two sprites, for examples. *)
Definition star : SpriteObject :=
  {| id := "sprite-1"; emoji := "star"; x := 0; y := 0; rotation := 0;
     scaleX := 1; scaleY := 1; zIndex := 0 |}.

Definition moon : SpriteObject :=
  {| id := "sprite-2"; emoji := "moon"; x := 12; y := -7; rotation := 90;
     scaleX := 2; scaleY := 2; zIndex := 1 |}.

Definition two_sprites : StateManager.t :=
  with_state
    (with_nextId 3 (with_sprites [star; moon] (state fresh))) fresh.

Lemma find_ref_unknown (i : string) (arr : list SpriteObject) :
  (forall s, In s arr -> id s <> i) -> find_ref (has_id i) arr = None.
Proof.
  intros H. apply find_ref_none. intros s Hs.
  unfold has_id. apply String.eqb_neq. now apply H.
Qed.

(** C10.  For an id that no sprite of the state carries, [updateSprite] and
    [updateSpriteWithoutSnapshot] return with the manager exactly as it was:
    same state, same undo and redo stacks (no snapshot pushed), same count of
    listener notifications, same stored entry. *)
Theorem update_of_unknown_id_is_silent
    (sm : StateManager.t) (i : string) (updates : SpriteUpdates) :
  (forall s, In s (sprites (state sm)) -> id s <> i) ->
  updateSprite i updates sm = sm
  /\ updateSpriteWithoutSnapshot i updates sm = sm.
Proof.
  intros H. unfold updateSprite, updateSpriteWithoutSnapshot.
  now rewrite (find_ref_unknown _ H).
Qed.

Lemma update_of_unknown_id_is_silent_witness :
  updateSprite "sprite-7" (Gizmo.scale_updates 3 3) two_sprites = two_sprites
  /\ updateSpriteWithoutSnapshot "sprite-7" (Gizmo.scale_updates 3 3) two_sprites
     = two_sprites.
Proof.
  apply update_of_unknown_id_is_silent.
  intros s [<- | [<- | []]]; discriminate.
Defined.

(* ===================================================================== *)
(** * Sorting by a key                                                   *)
(* ===================================================================== *)

Lemma sort_insert_perm {A : Type} (cmp : A -> A -> Z) (a : A) (l : list A) :
  Permutation (sort_insert cmp a l) (a :: l).
Proof.
  induction l as [ | b l IH ]; simpl; [ reflexivity | ].
  destruct (cmp a b <=? 0); [ reflexivity | ].
  rewrite IH. apply perm_swap.
Qed.

Lemma Array_sort_perm {A : Type} (cmp : A -> A -> Z) (l : list A) :
  Permutation (Array_sort cmp l) l.
Proof.
  induction l as [ | a l IH ]; simpl; [ reflexivity | ].
  rewrite sort_insert_perm. now constructor.
Qed.

Lemma Array_sort_length {A : Type} (cmp : A -> A -> Z) (l : list A) :
  length (Array_sort cmp l) = length l.
Proof. apply Permutation_length, Array_sort_perm. Qed.

Section SortedByKey.
Context {A : Type}.
Variable cmp : A -> A -> Z.
Variable key : A -> Z.
Hypothesis cmp_key : forall a b, cmp a b <= 0 <-> key a <= key b.

Definition key_le (a b : A) : Prop := key a <= key b.

Lemma sort_insert_sorted (a : A) (l : list A) :
  StronglySorted key_le l -> StronglySorted key_le (sort_insert cmp a l).
Proof.
  induction 1 as [ | b l Hl IH Hb ]; simpl.
  - repeat constructor.
  - destruct (cmp a b <=? 0) eqn:E.
    + apply Z.leb_le, cmp_key in E.
      constructor; [ now constructor | ].
      constructor; [ exact E | ].
      eapply Forall_impl; [ | exact Hb ].
      unfold key_le. intros c Hc. lia.
    + apply Z.leb_gt in E.
      assert (Hba : key_le b a).
      { unfold key_le. destruct (Z.le_gt_cases (key a) (key b)) as [H | H]; [ | lia ].
        apply cmp_key in H. lia. }
      constructor; [ exact IH | ].
      apply (Permutation_Forall (Permutation_sym (sort_insert_perm cmp a l))).
      now constructor.
Qed.

Lemma Array_sort_sorted (l : list A) : StronglySorted key_le (Array_sort cmp l).
Proof.
  induction l as [ | a l IH ]; simpl; [ constructor | ].
  now apply sort_insert_sorted.
Qed.

End SortedByKey.

(** The first match of [find] and what precedes it. *)
Lemma find_split {A : Type} (p : A -> bool) (l : list A) (a : A) :
  find p l = Some a ->
  exists before after,
    l = (before ++ a :: after)%list /\ p a = true
    /\ forall b, In b before -> p b = false.
Proof.
  induction l as [ | b l IH ]; simpl; [ discriminate | ].
  destruct (p b) eqn:Hb.
  - intros H. injection H as ->. exists [], l. repeat split; [ exact Hb | ].
    intros c [].
  - intros H. destruct (IH H) as [before [after [-> [Ha Hbefore]]]].
    exists (b :: before), after. repeat split; [ exact Ha | ].
    intros c [<- | Hc]; auto.
Qed.

Lemma StronglySorted_app_inv {A : Type} (R : A -> A -> Prop) (l1 l2 : list A) :
  StronglySorted R (l1 ++ l2) -> StronglySorted R l2.
Proof.
  induction l1 as [ | a l1 IH ]; simpl; [ trivial | ].
  intros H. inversion H. auto.
Qed.

(* ===================================================================== *)
(** * Hit testing                                                        *)
(* ===================================================================== *)

Lemma num_ge_true (a b : R) : (b <= a)%R -> num_ge a b = true.
Proof. intros H. unfold num_ge. now destruct (Rle_dec b a). Qed.

Lemma num_le_true (a b : R) : (a <= b)%R -> num_le a b = true.
Proof. intros H. unfold num_le. now destruct (Rle_dec a b). Qed.

Lemma num_gt_true (a b : R) : (b < a)%R -> num_gt a b = true.
Proof. intros H. unfold num_gt. now destruct (Rlt_dec b a). Qed.

Lemma num_gt_false (a b : R) : (a <= b)%R -> num_gt a b = false.
Proof. intros H. unfold num_gt. destruct (Rlt_dec b a); [ lra | reflexivity ]. Qed.

Section HitTest.
Variable measureText : string -> string -> CanvasRenderer.TextMetrics.
Variables worldX worldY : R.
Variable customFont : string.

(** [isPointInSprite] at the point and font of the test. *)
Definition contains (s : SpriteObject) : bool :=
  CanvasRenderer.isPointInSprite measureText s worldX worldY customFont.

Definition hit (sprites : list SpriteObject) : option string :=
  CanvasRenderer.hitTest measureText sprites worldX worldY customFont.

Definition topmost_first (sprites : list SpriteObject) : list SpriteObject :=
  Array_sort (fun a b => zIndex b - zIndex a) sprites.

Lemma topmost_first_sorted (sprites : list SpriteObject) :
  StronglySorted (fun a b => zIndex b <= zIndex a) (topmost_first sprites).
Proof.
  assert (H : StronglySorted (key_le (fun s => - zIndex s)) (topmost_first sprites)).
  { apply Array_sort_sorted. intros a b. lia. }
  eapply StronglySorted_ind with (P := StronglySorted (fun a b => zIndex b <= zIndex a));
    [ constructor | | exact H ].
  intros a l _ IH Ha. constructor; [ exact IH | ].
  eapply Forall_impl; [ | exact Ha ]. unfold key_le. intros b Hb. lia.
Qed.

Lemma hit_some (sprites : list SpriteObject) (i : string) :
  hit sprites = Some i ->
  exists s, In s sprites /\ id s = i /\ contains s = true
            /\ forall s', In s' sprites -> contains s' = true -> zIndex s' <= zIndex s.
Proof.
  unfold hit, CanvasRenderer.hitTest. fold (topmost_first sprites). fold contains.
  destruct (find contains (topmost_first sprites)) as [s | ] eqn:Hfind; [ | discriminate ].
  simpl. intros H. injection H as <-.
  destruct (find_split _ _ Hfind) as [before [after [Hsplit [Hs Hbefore]]]].
  pose proof (Array_sort_perm (fun a b => zIndex b - zIndex a) sprites) as Hperm.
  fold (topmost_first sprites) in Hperm.
  exists s. repeat split.
  - apply (Permutation_in _ Hperm). rewrite Hsplit. apply in_elt.
  - exact Hs.
  - intros s' Hin Hs'.
    apply (Permutation_in _ (Permutation_sym Hperm)) in Hin.
    rewrite Hsplit in Hin. apply in_app_or in Hin.
    destruct Hin as [Hin | [<- | Hin]].
    + rewrite (Hbefore _ Hin) in Hs'. discriminate.
    + lia.
    + pose proof (topmost_first_sorted sprites) as Hsorted.
      rewrite Hsplit in Hsorted. apply StronglySorted_app_inv in Hsorted.
      inversion Hsorted as [ | ? ? _ Hall ]. subst.
      rewrite Forall_forall in Hall. now apply Hall.
Qed.

Lemma hit_none (sprites : list SpriteObject) :
  hit sprites = None -> forall s, In s sprites -> contains s = false.
Proof.
  unfold hit, CanvasRenderer.hitTest. fold (topmost_first sprites). fold contains.
  destruct (find contains (topmost_first sprites)) as [s | ] eqn:Hfind; [ discriminate | ].
  intros _ s Hin.
  apply (Permutation_in _ (Permutation_sym
           (Array_sort_perm (fun a b => zIndex b - zIndex a) sprites))) in Hin.
  exact (find_none _ _ Hfind s Hin).
Qed.

(** C2 (top-most hit wins).  [hitTest] returns the id of a sprite that
    contains the point and whose [zIndex] no other containing sprite exceeds,
    and returns nothing exactly when no sprite contains the point.  For two
    sprites with [zIndex] 0 and 1 that both contain the point, in either array
    order, the id returned is that of the sprite with [zIndex] 1. *)
Theorem hitTest_topmost_wins :
  (forall sprites : list SpriteObject,
      match hit sprites with
      | Some i =>
          exists s, In s sprites /\ id s = i /\ contains s = true
                    /\ forall s', In s' sprites -> contains s' = true ->
                                  zIndex s' <= zIndex s
      | None => forall s, In s sprites -> contains s = false
      end)
  /\ (forall A B : SpriteObject,
         zIndex A = 0 -> zIndex B = 1 ->
         contains A = true -> contains B = true ->
         hit [A; B] = Some (id B) /\ hit [B; A] = Some (id B)).
Proof.
  split.
  - intros sprites. destruct (hit sprites) as [i | ] eqn:H.
    + now apply hit_some.
    + now apply hit_none.
  - intros A B HA HB HcA HcB.
    unfold hit, CanvasRenderer.hitTest. simpl. rewrite HA, HB. simpl.
    unfold contains in HcB. now rewrite HcB.
Qed.

End HitTest.

(** Unrotated sprites under fixed glyph metrics, for examples. *)
Definition box_metrics (font text : string) : CanvasRenderer.TextMetrics :=
  CanvasRenderer.mkMetrics 20 20 30 10.

Lemma unrotated_contains (s : SpriteObject) (wx wy : R) (font : string) :
  rotation s = 0%R ->
  (- (40 * scaleX s) / 2 <= wx - x s <= 40 * scaleX s / 2)%R ->
  (- (40 * scaleY s) / 2 <= wy - y s <= 40 * scaleY s / 2)%R ->
  contains box_metrics wx wy font s = true.
Proof.
  intros Hrot Hx Hy.
  unfold contains, CanvasRenderer.isPointInSprite, CanvasRenderer.getSpriteBounds.
  simpl. rewrite Hrot.
  replace (- 0 * Math_PI / 180)%R with 0%R by (unfold Rdiv; ring).
  rewrite cos_0, sin_0.
  rewrite !num_ge_true, !num_le_true; try reflexivity; lra.
Qed.

Definition lower : SpriteObject :=
  {| id := "sprite-1"; emoji := "A"; x := 0; y := 0; rotation := 0;
     scaleX := 1; scaleY := 1; zIndex := 0 |}.

Definition upper : SpriteObject :=
  {| id := "sprite-2"; emoji := "B"; x := 5; y := 5; rotation := 0;
     scaleX := 1; scaleY := 1; zIndex := 1 |}.

Lemma hitTest_topmost_wins_witness :
  hit box_metrics 3 3 "Arial" [lower; upper] = Some "sprite-2"
  /\ hit box_metrics 3 3 "Arial" [upper; lower] = Some "sprite-2".
Proof.
  apply (proj2 (hitTest_topmost_wins box_metrics 3 3 "Arial") lower upper);
    try reflexivity;
    apply unrotated_contains; simpl; try reflexivity; lra.
Defined.

(* ===================================================================== *)
(** * World, local and painted coordinates                               *)
(* ===================================================================== *)

Section Transform.
#[local] Open Scope R_scope.
Variables centerX centerY : R.

Lemma point_eq (p q : Point.t) :
  Point.x p = Point.x q -> Point.y p = Point.y q -> p = q.
Proof. destruct p, q; simpl; intros -> ->; reflexivity. Qed.

Lemma negated_angle (rotation : R) :
  - rotation * Math_PI / 180 = - (rotation * Math_PI / 180).
Proof. unfold Rdiv. ring. Qed.

Lemma cos_sin_unit (a : R) : cos a * cos a + sin a * sin a = 1.
Proof. pose proof (sin2_cos2 a) as H. unfold Rsqr in H. lra. Qed.

(** The paint transform spelled out: scale, then [rotatePoint], then
    translate to the sprite. *)
Lemma paint_unfolded (sprite : SpriteObject) (p : Point.t) :
  let scaled_x := Point.x p * scaleX sprite in
  let scaled_y := Point.y p * scaleY sprite in
  let rotated := CanvasRenderer.rotatePoint scaled_x scaled_y (rotation sprite) in
  CanvasRenderer.paint centerX centerY sprite p
  = {| Point.x := x sprite + Point.x rotated; Point.y := y sprite + Point.y rotated |}.
Proof.
  destruct p as [px py]. simpl.
  unfold CanvasRenderer.paint, CanvasRenderer.screenToWorld, CanvasRenderer.rotatePoint.
  apply point_eq; simpl; ring.
Qed.

(** [worldToLocal] spelled out: translate back, [rotatePoint] by the opposite
    angle, divide by the scale. *)
Lemma worldToLocal_unfolded (sprite : SpriteObject) (worldX worldY : R) :
  let rotated :=
    CanvasRenderer.rotatePoint (worldX - x sprite) (worldY - y sprite) (- rotation sprite) in
  Gizmo.worldToLocal sprite worldX worldY
  = {| Point.x := Point.x rotated / scaleX sprite;
       Point.y := Point.y rotated / scaleY sprite |}.
Proof. reflexivity. Qed.

Lemma worldToLocalWithScale_paint (sprite : SpriteObject) (p : Point.t) :
  scaleX sprite <> 0 -> scaleY sprite <> 0 ->
  let world := CanvasRenderer.paint centerX centerY sprite p in
  Gizmo.worldToLocalWithScale (x sprite) (y sprite) (rotation sprite)
    (scaleX sprite) (scaleY sprite) (Point.x world) (Point.y world) = p.
Proof.
  intros Hsx Hsy. destruct p as [px py]. simpl.
  unfold Gizmo.worldToLocalWithScale. simpl.
  rewrite negated_angle, cos_neg, sin_neg.
  set (a := rotation sprite * Math_PI / 180).
  pose proof (cos_sin_unit a) as Hunit.
  apply point_eq; simpl.
  - apply (Rmult_eq_reg_r (scaleX sprite)); [ | exact Hsx ].
    unfold Rdiv. rewrite Rmult_assoc, Rinv_l, Rmult_1_r by exact Hsx.
    transitivity (scaleX sprite * px * (cos a * cos a + sin a * sin a));
      [ ring | rewrite Hunit; ring ].
  - apply (Rmult_eq_reg_r (scaleY sprite)); [ | exact Hsy ].
    unfold Rdiv. rewrite Rmult_assoc, Rinv_l, Rmult_1_r by exact Hsy.
    transitivity (scaleY sprite * py * (cos a * cos a + sin a * sin a));
      [ ring | rewrite Hunit; ring ].
Qed.

End Transform.

(** C8.  [worldToLocal] undoes the paint transform.  The point painted for a
    local point [p] is [p] scaled by [(scaleX, scaleY)], rotated by the
    sprite's rotation and translated to the sprite's position;
    [worldToLocal] translates back, rotates by the opposite angle and divides
    by the scale; and, for non-zero scales, [worldToLocal] of the painted
    point is [p] itself (an identity of real arithmetic). *)
Theorem worldToLocal_inverts_paint
    (centerX centerY : R) (sprite : SpriteObject) (p : Point.t) :
  scaleX sprite <> 0%R -> scaleY sprite <> 0%R ->
  let world := CanvasRenderer.paint centerX centerY sprite p in
  let rotated :=
    CanvasRenderer.rotatePoint (Point.x p * scaleX sprite) (Point.y p * scaleY sprite)
      (rotation sprite) in
  let unrotated :=
    CanvasRenderer.rotatePoint (Point.x world - x sprite) (Point.y world - y sprite)
      (- rotation sprite) in
  world = {| Point.x := (x sprite + Point.x rotated)%R;
             Point.y := (y sprite + Point.y rotated)%R |}
  /\ Gizmo.worldToLocal sprite (Point.x world) (Point.y world)
     = {| Point.x := (Point.x unrotated / scaleX sprite)%R;
          Point.y := (Point.y unrotated / scaleY sprite)%R |}
  /\ Gizmo.worldToLocal sprite (Point.x world) (Point.y world) = p.
Proof.
  intros Hsx Hsy world rotated unrotated. split; [ | split ].
  - apply paint_unfolded.
  - apply worldToLocal_unfolded.
  - now apply worldToLocalWithScale_paint.
Qed.

Lemma worldToLocal_inverts_paint_witness :
  let world := CanvasRenderer.paint 400 300 moon (Point.mk 3 4) in
  Gizmo.worldToLocal moon (Point.x world) (Point.y world) = Point.mk 3 4.
Proof.
  apply (worldToLocal_inverts_paint 400 300 moon (Point.mk 3 4));
    simpl; intros H; lra.
Defined.

(* ===================================================================== *)
(** * Corner scaling                                                     *)
(* ===================================================================== *)

Lemma find_ref_find {A : Type} (p : A -> bool) (l : list A) (a : A) :
  find p l = Some a ->
  exists i, find_ref p l = Some i /\ nth_error l i = Some a.
Proof.
  induction l as [ | b l IH ]; simpl; [ discriminate | ].
  destruct (p b).
  - intros H. injection H as ->. now exists O.
  - intros H. destruct (IH H) as [i [Hi Hnth]].
    exists (S i). rewrite Hi. now split.
Qed.

Lemma find_modify_at {A : Type} (p : A -> bool) (f : A -> A) (l : list A) (i : nat) (a : A) :
  find_ref p l = Some i -> nth_error l i = Some a -> p (f a) = true ->
  find p (modify_at i f l) = Some (f a).
Proof.
  revert i. induction l as [ | b l IH ]; intros i; simpl; [ discriminate | ].
  destruct (p b) eqn:Hb.
  - intros H. injection H as <-. simpl. intros H Hfa. injection H as ->.
    now rewrite Hfa.
  - destruct (find_ref p l) as [j | ]; simpl; [ | discriminate ].
    intros H. injection H as <-. simpl. rewrite Hb. now apply IH.
Qed.

Section UniformScale.
#[local] Open Scope R_scope.

Lemma num_or_nonzero (v d : R) : v <> 0 -> num_or v d = v.
Proof. intros H. unfold num_or. apply num_eq_false in H. now rewrite H. Qed.

Lemma sqrt_200_positive : 0.001 < sqrt (10 * 10 + 10 * 10).
Proof.
  rewrite <- (sqrt_square 0.001) by lra.
  apply sqrt_lt_1; lra.
Qed.

Lemma doubled_distance : sqrt (20 * 20 + 20 * 20) / sqrt (10 * 10 + 10 * 10) = 2.
Proof.
  replace (20 * 20 + 20 * 20) with (2 * 2 * (10 * 10 + 10 * 10)) by ring.
  rewrite sqrt_mult by lra. rewrite sqrt_square by lra.
  pose proof sqrt_200_positive. field. lra.
Qed.

(** The grab point at drag start and the pointer of the move. *)
Definition grab : Point.t := Point.mk 10 10.
Definition pointer : Point.t := Point.mk 20 20.

Definition corner_mode (m : InteractionMode.t) : Prop :=
  m = InteractionMode.ScalingTopLeft \/ m = InteractionMode.ScalingTopRight
  \/ m = InteractionMode.ScalingBottomLeft \/ m = InteractionMode.ScalingBottomRight.

Lemma handleScaling_doubles (g : Gizmo.t) (sm : StateManager.t) (sprite : SpriteObject)
    (startPos : Point.t) :
  x sprite = 0 -> y sprite = 0 -> rotation sprite = 0 ->
  scaleX sprite = 1 -> scaleY sprite = 1 ->
  Gizmo.dragStartPos g = Some startPos ->
  Gizmo.dragStartSpriteState g = Some sprite ->
  Gizmo.dragStartLocalPos g = Some grab ->
  Gizmo.handleScaling g sprite pointer false sm
  = updateSpriteWithoutSnapshot (id sprite) (Gizmo.scale_updates 2 2) sm.
Proof.
  intros Hx Hy Hrot Hsx Hsy Hpos Hstart Hlocal.
  unfold Gizmo.handleScaling. rewrite Hpos, Hstart, Hlocal.
  unfold Gizmo.worldToLocalWithScale. simpl.
  rewrite Hx, Hy, Hrot, Hsx, Hsy.
  rewrite !num_or_nonzero by lra.
  replace (- 0 * Math_PI / 180) with 0 by (unfold Rdiv; ring).
  rewrite cos_0, sin_0.
  unfold Math_sqrt.
  rewrite (num_gt_true sqrt_200_positive).
  replace ((20 - 0) * 1 - (20 - 0) * 0) with 20 by ring.
  replace ((20 - 0) * 0 + (20 - 0) * 1) with 20 by ring.
  replace (20 / 1) with 20 by field.
  rewrite doubled_distance.
  unfold Math_max. replace (1 * 2) with 2 by ring.
  rewrite Rmax_right by lra. reflexivity.
Qed.

End UniformScale.

Lemma selected_sprite_ref (sm : StateManager.t) (sprite : SpriteObject) :
  getSelectedSprite sm = Some sprite ->
  exists ref,
    find_ref (has_id (id sprite)) (sprites (state sm)) = Some ref
    /\ nth_error (sprites (state sm)) ref = Some sprite
    /\ selectedId (state sm) = Some (id sprite)
    /\ id sprite <> "".
Proof.
  unfold getSelectedSprite.
  destruct (selectedId (state sm)) as [i | ]; [ | discriminate ].
  destruct (String.eqb i "") eqn:Hi; [ discriminate | ].
  intros Hfind.
  assert (Hid : id sprite = i).
  { apply find_some in Hfind. destruct Hfind as [_ H]. now apply String.eqb_eq in H. }
  subst i. destruct (find_ref_find _ _ Hfind) as [ref [Href Hnth]].
  exists ref. repeat split; trivial. now apply String.eqb_neq.
Qed.

(** C3 (uniform scale pins the grabbed point).  A sprite at the origin,
    unrotated, with scale 1 is selected and held in a corner-scaling session
    whose grab point is local [(10, 10)].  A pointer move to world [(20, 20)]
    without the modifier key leaves the selected sprite with
    [scaleX = scaleY = 2] and nothing else changed; under the new paint
    transform the grab point is painted at the pointer, and the pointer maps
    back to the grab point.  The move commits nothing to the history. *)
Theorem uniform_scale_pins_grabbed_point
    (centerX centerY : R) (g : Gizmo.t) (sm : StateManager.t)
    (sprite : SpriteObject) (startPos : Point.t) :
  getSelectedSprite sm = Some sprite ->
  x sprite = 0%R -> y sprite = 0%R -> rotation sprite = 0%R ->
  scaleX sprite = 1%R -> scaleY sprite = 1%R ->
  corner_mode (Gizmo.mode g) ->
  Gizmo.dragStartPos g = Some startPos ->
  Gizmo.dragStartSpriteState g = Some sprite ->
  Gizmo.dragStartLocalPos g = Some grab ->
  let sm' := Gizmo.onPointerMove g pointer false sm in
  let scaled := Object_assign sprite (Gizmo.scale_updates 2 2) in
  getSelectedSprite sm' = Some scaled
  /\ scaleX scaled = 2%R /\ scaleY scaled = 2%R
  /\ CanvasRenderer.paint centerX centerY scaled grab = pointer
  /\ Gizmo.worldToLocal scaled (Point.x pointer) (Point.y pointer) = grab
  /\ undoStack sm' = undoStack sm /\ redoStack sm' = redoStack sm.
Proof.
  intros Hsel Hx Hy Hrot Hsx Hsy Hmode Hpos Hstart Hlocal sm' scaled.
  assert (Hmove : sm' = updateSpriteWithoutSnapshot (id sprite) (Gizmo.scale_updates 2 2) sm).
  { unfold sm', Gizmo.onPointerMove. rewrite Hpos, Hstart, Hsel.
    destruct Hmode as [-> | [-> | [-> | ->]]];
      exact (handleScaling_doubles g sm Hx Hy Hrot Hsx Hsy Hpos Hstart Hlocal). }
  destruct (selected_sprite_ref _ Hsel) as [ref [Href [Hnth [Hselected Hid]]]].
  assert (Hpaint : CanvasRenderer.paint centerX centerY scaled grab = pointer).
  { rewrite paint_unfolded. unfold CanvasRenderer.rotatePoint, scaled, grab, pointer.
    simpl. rewrite Hx, Hy, Hrot.
    replace (0 * Math_PI / 180)%R with 0%R by (unfold Rdiv; ring).
    rewrite cos_0, sin_0. apply point_eq; simpl; ring. }
  repeat split; trivial.
  - rewrite Hmove. unfold updateSpriteWithoutSnapshot, getSelectedSprite.
    rewrite Href. simpl. rewrite Hselected.
    apply String.eqb_neq in Hid. rewrite Hid.
    apply (find_modify_at (has_id (id sprite))
             (fun s => Object_assign s (Gizmo.scale_updates 2 2)) _ Href Hnth).
    unfold has_id. simpl. apply String.eqb_refl.
  - rewrite <- Hpaint.
    apply (worldToLocalWithScale_paint centerX centerY scaled grab); simpl; lra.
  - rewrite Hmove. unfold updateSpriteWithoutSnapshot. now rewrite Href.
  - rewrite Hmove. unfold updateSpriteWithoutSnapshot. now rewrite Href.
Qed.

(** A session on the first sprite of [two_sprites], grabbed at world
    [(10, 10)]. *)
Definition star_selected : StateManager.t :=
  with_state (with_selectedId (Some "sprite-1") (state two_sprites)) two_sprites.

Definition star_session : Gizmo.t :=
  {| Gizmo.mode := InteractionMode.ScalingBottomRight;
     Gizmo.dragStartPos := Some grab;
     Gizmo.dragStartSpriteState := Some star;
     Gizmo.dragStartLocalPos := Some grab |}.

Lemma uniform_scale_pins_grabbed_point_witness :
  let sm' := Gizmo.onPointerMove star_session pointer false star_selected in
  let scaled := Object_assign star (Gizmo.scale_updates 2 2) in
  getSelectedSprite sm' = Some scaled
  /\ scaleX scaled = 2%R /\ scaleY scaled = 2%R
  /\ CanvasRenderer.paint 400 300 scaled grab = pointer
  /\ Gizmo.worldToLocal scaled (Point.x pointer) (Point.y pointer) = grab
  /\ undoStack sm' = undoStack star_selected /\ redoStack sm' = redoStack star_selected.
Proof.
  apply (@uniform_scale_pins_grabbed_point 400 300 star_session star_selected star grab);
    try reflexivity.
  right. right. right. reflexivity.
Defined.

(* ===================================================================== *)
(** * The compact wire format                                            *)
(* ===================================================================== *)

Section Rounding.
#[local] Open Scope R_scope.

Lemma Math_round_int (n : Z) : Math_round (IZR n) = IZR n.
Proof.
  unfold Math_round. f_equal. apply Zfloor_eq. lra.
Qed.

(** Rounding to a decimal place leaves integers alone. *)
Lemma round_to_int (k m : Z) : (0 < k)%Z -> round_to (IZR k) (IZR m) = IZR m.
Proof.
  intros Hk. unfold round_to.
  rewrite <- mult_IZR, Math_round_int, mult_IZR.
  field. apply not_0_IZR. lia.
Qed.


End Rounding.

Arguments round_to_int k m _ : clear implicits.

Lemma lookup_app (k : string) (a b : list (string * json)) :
  lookup k (a ++ b) =
  match lookup k b with
  | Val w => Val w
  | Undefined => lookup k a
  end.
Proof.
  induction a as [ | [k' v] a IH ]; simpl.
  - now destruct (lookup k b).
  - rewrite IH. now destruct (lookup k b).
Qed.

(** A sprite whose members all have their default values. *)
Definition at_defaults (s : SpriteObject) : Prop :=
  x s = 0%R /\ y s = 0%R /\ rotation s = 0%R /\ scaleX s = 1%R /\ scaleY s = 1%R.

Definition only_content (s : SpriteObject) : json := JObj [("e", JStr (emoji s))].

Lemma compact_at_defaults (s : SpriteObject) : at_defaults s -> compact s = only_content s.
Proof.
  intros (Hx & Hy & Hr & Hsx & Hsy). unfold compact.
  rewrite Hx, Hy, Hr, Hsx, Hsy.
  rewrite !(round_to_int _ 0), !(round_to_int _ 1) by lia.
  rewrite !num_eq_refl. reflexivity.
Qed.

Ltac split_conditions :=
  repeat match goal with
         | |- context [num_eq ?a ?b] => destruct (num_eq a b)
         end.

(** C9 (default omission).  A sprite with [x = 0], [y = 0], [rotation = 0]
    and [scaleX = scaleY = 1] is exported as the object whose only member is
    [e], the content; and, member by member, a position or rotation of 0 and
    a scale of 1 leave no [x], [y], [r], no [sx] or [sy], and no [s] in the
    exported element. *)
Theorem default_omission (s : SpriteObject) :
  (at_defaults s -> compact s = only_content s)
  /\ (at_defaults s ->
      forall sm : StateManager.t,
        sprites (state sm) = [s] ->
        exportJSON sm = JSON_stringify (JArr [only_content s]))
  /\ (x s = 0%R -> member (compact s) "x" = Undefined)
  /\ (y s = 0%R -> member (compact s) "y" = Undefined)
  /\ (rotation s = 0%R -> member (compact s) "r" = Undefined)
  /\ (scaleX s = 1%R ->
      member (compact s) "sx" = Undefined /\ member (compact s) "s" = Undefined)
  /\ (scaleY s = 1%R ->
      member (compact s) "sy" = Undefined /\ member (compact s) "s" = Undefined).
Proof.
  split; [ apply compact_at_defaults | ].
  split.
  { intros H sm Hsm. unfold exportJSON. rewrite Hsm. simpl.
    now rewrite (compact_at_defaults H). }
  assert (Hzero : round_to 100 0 = 0%R) by (apply (round_to_int 100 0); lia).
  assert (Hzero' : round_to 10 0 = 0%R) by (apply (round_to_int 10 0); lia).
  assert (Hone : round_to 10000 1 = 1%R) by (apply (round_to_int 10000 1); lia).
  split; [ | split; [ | split; [ | split ] ] ];
    intros H; unfold compact, member; rewrite H.
  - rewrite Hzero, num_eq_refl. split_conditions; reflexivity.
  - rewrite Hzero, num_eq_refl. split_conditions; reflexivity.
  - rewrite Hzero', num_eq_refl. split_conditions; reflexivity.
  - rewrite Hone, num_eq_refl, andb_false_r. simpl.
    split; split_conditions; reflexivity.
  - rewrite Hone, num_eq_refl.
    destruct (num_eq (round_to 10000 (scaleX s)) 1) eqn:E; simpl;
      rewrite ?E; simpl; split; split_conditions; reflexivity.
Qed.

Lemma default_omission_witness :
  compact star = JObj [("e", JStr "star")]
  /\ exportJSON (with_state (with_sprites [star] (state fresh)) fresh)
     = JSON_stringify (JArr [JObj [("e", JStr "star")]]).
Proof.
  assert (H : at_defaults star) by (repeat split).
  destruct (default_omission star) as [Hcompact [Hexport _]]. split.
  - exact (Hcompact H).
  - exact (Hexport H (with_state (with_sprites [star] (state fresh)) fresh) eq_refl).
Defined.

(* ===================================================================== *)
(** * Import: what is rejected and what is accepted                      *)
(* ===================================================================== *)

Definition is_null (j : json) : bool :=
  match j with
  | JNull => true
  | _ => false
  end.












Lemma typed_sprites_length (raws : list RawSprite) (l : list SpriteObject) :
  typed_sprites raws = Some l -> length l = length raws.
Proof.
  revert l. induction raws as [ | raw raws IH ]; intros l; simpl.
  - intros H. now injection H as <-.
  - destruct (typed_sprite raw); [ | discriminate ].
    destruct (typed_sprites raws); [ | discriminate ].
    intros H. injection H as <-. simpl. f_equal. now apply IH.
Qed.

Lemma commit_state (sm : StateManager.t) :
  state (notifyListeners (saveSnapshot sm)) = state sm.
Proof. exact (saveSnapshot_state sm). Qed.





(** A listener that reads each sprite as an object, as the listener of the
    editor does when it renders. *)
Definition rendering : Listener :=
  fun seen =>
    match seen with
    | UntypedState (JObj props) =>
        match lookup "sprites" props with
        | Val (JArr items) => existsb is_null items
        | _ => false
        end
    | _ => false
    end.

(** The notification runs inside the [try] of [importJSON], after the state
    has been replaced: when a listener throws on what was installed,
    [importJSON] returns [false] with the state replaced. *)
Lemma importJSON_false_after_replacing :
  importJSON (JSON_stringify (JObj [("sprites", JArr [JNull])]))
    (onChange rendering two_sprites)
  = (false, StateOutsideTypes (JObj [("sprites", JArr [JNull])])).
Proof. reflexivity. Qed.


(* ===================================================================== *)
(** * Export followed by import                                          *)
(* ===================================================================== *)

(** The sprite [importJSON] builds at position [index] from the exported
    element of [s], in a manager whose [nextId] is [n]. *)
Definition reimported (n : Z) (s : SpriteObject) (index : Z) : SpriteObject :=
  {| id := sprite_id (n + index);
     emoji := emoji s;
     x := round_to 100 (x s);
     y := round_to 100 (y s);
     rotation := round_to 10 (rotation s);
     scaleX := round_to 10000 (scaleX s);
     scaleY := round_to 10000 (scaleY s);
     zIndex := index |}.

Fixpoint reimported_from (n start : Z) (l : list SpriteObject) : list SpriteObject :=
  match l with
  | [] => []
  | s :: rest => reimported n s start :: reimported_from n (start + 1) rest
  end.

Lemma truthy_number (r : R) : truthy (Val (JNum r)) = negb (num_eq r 0).
Proof. reflexivity. Qed.

Lemma import_compact_members (n index : Z) (e : string) (rx ry rr rsx rsy : R) :
  e <> "" ->
  exists raw,
    import_sprite n
      (JObj ([("e", JStr e)]
             ++ (if negb (num_eq rx 0) then [("x", JNum rx)] else [])
             ++ (if negb (num_eq ry 0) then [("y", JNum ry)] else [])
             ++ (if negb (num_eq rr 0) then [("r", JNum rr)] else [])
             ++ (if num_eq rsx rsy && negb (num_eq rsx 1)
                 then [("s", JNum rsx)]
                 else (if negb (num_eq rsx 1) then [("sx", JNum rsx)] else [])
                      ++ (if negb (num_eq rsy 1) then [("sy", JNum rsy)] else [])))%list)
      index = Return raw
    /\ typed_sprite raw
       = Some {| id := sprite_id (n + index); emoji := e; x := rx; y := ry;
                 rotation := rr; scaleX := rsx; scaleY := rsy; zIndex := index |}.
Proof.
  intros He. apply String.eqb_neq in He.
  destruct (num_eq rx 0) eqn:Ex; destruct (num_eq ry 0) eqn:Ey;
    destruct (num_eq rr 0) eqn:Er; destruct (num_eq rsx rsy) eqn:Euni;
    destruct (num_eq rsx 1) eqn:Esx; destruct (num_eq rsy 1) eqn:Esy;
    simpl; eexists; (split; [ reflexivity | ]);
    unfold typed_sprite, or_else, zero, one; simpl;
    rewrite ?truthy_number, ?He, ?Ex, ?Ey, ?Er; simpl;
    try apply num_eq_true in Ex; try apply num_eq_true in Ey;
    try apply num_eq_true in Er; try apply num_eq_true in Euni;
    try apply num_eq_true in Esx; try apply num_eq_true in Esy;
    subst; try reflexivity.
Qed.

Lemma import_compact (n index : Z) (s : SpriteObject) :
  emoji s <> "" ->
  exists raw,
    import_sprite n (compact s) index = Return raw
    /\ typed_sprite raw = Some (reimported n s index).
Proof. intros He. unfold compact. now apply import_compact_members. Qed.

Lemma import_compact_all (n start : Z) (l : list SpriteObject) :
  Forall (fun s => emoji s <> "") l ->
  exists raws,
    map_indexed start (import_sprite n) (map compact l) = Return raws
    /\ typed_sprites raws = Some (reimported_from n start l).
Proof.
  intros H. revert start. induction H as [ | s l Hs _ IH ]; intros start;
    cbn [map map_indexed reimported_from].
  - now exists [].
  - destruct (@import_compact n start s Hs) as [raw [Hraw Htyped]].
    destruct (IH (start + 1)) as [raws [Hraws Hall]].
    exists (raw :: raws). rewrite Hraw. cbn [bind]. rewrite Hraws. cbn [bind typed_sprites].
    now rewrite Htyped, Hall.
Qed.

(** ** Dense z-order *)

Lemma sorted_perm_unique (l1 l2 : list Z) :
  StronglySorted Z.le l1 -> StronglySorted Z.le l2 -> Permutation l1 l2 -> l1 = l2.
Proof.
  intros H1. revert l2. induction H1 as [ | a l1 Hl1 IH Ha ]; intros l2 H2 Hperm.
  - apply Permutation_nil in Hperm. now subst.
  - destruct H2 as [ | b l2 Hl2 Hb ].
    + apply Permutation_sym, Permutation_nil in Hperm. discriminate.
    + assert (Hab : a = b).
      { assert (Hin1 : In a (b :: l2)) by (apply (Permutation_in _ Hperm); now left).
        assert (Hin2 : In b (a :: l1))
          by (apply (Permutation_in _ (Permutation_sym Hperm)); now left).
        rewrite Forall_forall in Ha, Hb.
        destruct Hin1 as [-> | Hin1]; [ reflexivity | ].
        destruct Hin2 as [-> | Hin2]; [ reflexivity | ].
        apply Ha in Hin2. apply Hb in Hin1. lia. }
      subst b. f_equal. apply IH; [ exact Hl2 | ].
      now apply Permutation_cons_inv in Hperm.
Qed.

Lemma seq_sorted (start len : nat) :
  StronglySorted Z.le (map Z.of_nat (seq start len)).
Proof.
  revert start. induction len as [ | len IH ]; intros start; simpl; constructor.
  - apply IH.
  - apply Forall_forall. intros z Hz. apply in_map_iff in Hz.
    destruct Hz as [k [<- Hk]]. apply in_seq in Hk. lia.
Qed.



Lemma reimported_from_zIndex (n : Z) (start : nat) (l : list SpriteObject) :
  map zIndex (reimported_from n (Z.of_nat start) l)
  = map Z.of_nat (seq start (length l)).
Proof.
  revert start. induction l as [ | s l IH ]; intros start; simpl; [ reflexivity | ].
  f_equal. rewrite <- IH. do 2 f_equal. lia.
Qed.






Lemma exportJSON_importJSON (source target : StateManager.t) :
  Forall (fun s => emoji s <> "") (sprites (state source)) ->
  exists target',
    importJSON (exportJSON source) target = (true, Typed target')
    /\ sprites (state target')
       = reimported_from (nextId (state target)) 0
           (sorted_by_zIndex (sprites (state source)))
    /\ selectedId (state target') = None.
Proof.
  intros Hcontent.
  assert (Hsorted : Forall (fun s => emoji s <> "")
                      (sorted_by_zIndex (sprites (state source)))).
  { apply (Permutation_Forall (Permutation_sym (Array_sort_perm _ _))). exact Hcontent. }
  destruct (import_compact_all (nextId (state target)) 0 Hsorted) as [raws [Hraws Htyped]].
  unfold exportJSON, importJSON. cbn [JSON_stringify JSON_parse Array_isArray].
  rewrite Hraws, Htyped.
  eexists. split; [ reflexivity | ].
  rewrite !commit_state. now split.
Qed.





(* ===================================================================== *)
(** * Z-order                                                            *)
(* ===================================================================== *)

(** ** Writing [zIndex] through references *)

Lemma length_write_zIndex (ref : nat) (z : Z) (arr : list SpriteObject) :
  length (write_zIndex ref z arr) = length arr.
Proof. apply length_modify_at. Qed.

Lemma nth_error_write_zIndex (ref j : nat) (z : Z) (arr : list SpriteObject) :
  nth_error (write_zIndex ref z arr) j =
  if Nat.eqb ref j then option_map (with_zIndex z) (nth_error arr j)
  else nth_error arr j.
Proof. apply nth_error_modify_at. Qed.

Lemma length_assign_indices (index : Z) (sorted : list nat) (arr : list SpriteObject) :
  length (assign_indices index sorted arr) = length arr.
Proof.
  revert index arr. induction sorted as [ | r sorted IH ]; intros index arr; simpl.
  - reflexivity.
  - now rewrite IH, length_write_zIndex.
Qed.

(** The position of a reference in a list of references. *)
Definition position_in (sorted : list nat) (ref : nat) : option nat :=
  find_ref (Nat.eqb ref) sorted.

Lemma position_in_none (sorted : list nat) (ref : nat) :
  ~ In ref sorted -> position_in sorted ref = None.
Proof.
  intros H. apply find_ref_none. intros a Ha. apply Nat.eqb_neq. congruence.
Qed.

Lemma position_in_some (sorted : list nat) (ref k : nat) :
  position_in sorted ref = Some k -> nth_error sorted k = Some ref.
Proof.
  intros H. apply find_ref_some in H. destruct H as [a [Ha Heq]].
  apply Nat.eqb_eq in Heq. now subst.
Qed.

Lemma position_in_In (sorted : list nat) (ref : nat) :
  In ref sorted -> exists k, position_in sorted ref = Some k.
Proof.
  unfold position_in. induction sorted as [ | a sorted IH ]; simpl; [ tauto | ].
  intros [-> | H].
  - rewrite Nat.eqb_refl. now exists O.
  - destruct (Nat.eqb ref a); [ now exists O | ].
    destruct (IH H) as [k ->]. now exists (S k).
Qed.

(** After the loop, the sprite behind the [k]-th reference has
    [zIndex = index + k]; the others are as they were. *)
Lemma nth_error_assign_indices (index : Z) (sorted : list nat) (arr : list SpriteObject)
    (j : nat) :
  NoDup sorted ->
  nth_error (assign_indices index sorted arr) j =
  match position_in sorted j with
  | Some k => option_map (with_zIndex (index + Z.of_nat k)) (nth_error arr j)
  | None => nth_error arr j
  end.
Proof.
  intros Hnodup. revert index arr.
  induction Hnodup as [ | r sorted Hr _ IH ]; intros index arr; simpl.
  - reflexivity.
  - rewrite IH, nth_error_write_zIndex. unfold position_in. simpl.
    rewrite (Nat.eqb_sym j r).
    destruct (Nat.eqb r j) eqn:E.
    + apply Nat.eqb_eq in E. subst j.
      fold (position_in sorted r). rewrite (position_in_none sorted r Hr).
      now rewrite Z.add_0_r.
    + fold (position_in sorted j).
      destruct (position_in sorted j) as [k | ]; simpl; [ | reflexivity ].
      do 2 f_equal. lia.
Qed.

(** ** The references in z-order *)

Lemma sorted_refs_perm (arr : list SpriteObject) :
  Permutation (sorted_refs arr) (seq 0 (length arr)).
Proof. apply Array_sort_perm. Qed.

Lemma sorted_refs_NoDup (arr : list SpriteObject) : NoDup (sorted_refs arr).
Proof.
  apply (Permutation_NoDup (Permutation_sym (sorted_refs_perm arr))), seq_NoDup.
Qed.

Lemma sorted_refs_In (arr : list SpriteObject) (ref : nat) :
  In ref (sorted_refs arr) <-> (ref < length arr)%nat.
Proof.
  split; intros H.
  - apply (Permutation_in _ (sorted_refs_perm arr)), in_seq in H. lia.
  - apply (Permutation_in _ (Permutation_sym (sorted_refs_perm arr))), in_seq. lia.
Qed.

Lemma sorted_refs_sorted (arr : list SpriteObject) :
  StronglySorted (key_le (zIndex_at arr)) (sorted_refs arr).
Proof. apply Array_sort_sorted. intros a b. lia. Qed.

Lemma StronglySorted_nth {A : Type} (R : A -> A -> Prop) (l : list A) (a b : nat) (u v : A) :
  StronglySorted R l -> (a < b)%nat ->
  nth_error l a = Some u -> nth_error l b = Some v -> R u v.
Proof.
  intros H. revert a b. induction H as [ | c l _ IH Hc ]; intros a b Hab Ha Hb.
  - destruct a; discriminate.
  - destruct b as [ | b ]; [ lia | ]. simpl in Hb.
    destruct a as [ | a ]; simpl in Ha.
    + injection Ha as ->. rewrite Forall_forall in Hc.
      apply Hc. eapply nth_error_In, Hb.
    + apply (IH a b); [ lia | assumption | assumption ].
Qed.

(** The rank of a sprite: the position of its reference in z-order. *)
Definition rank (arr : list SpriteObject) (ref : nat) : nat :=
  match position_in (sorted_refs arr) ref with
  | Some k => k
  | None => O
  end.

Lemma rank_spec (arr : list SpriteObject) (ref : nat) :
  (ref < length arr)%nat ->
  position_in (sorted_refs arr) ref = Some (rank arr ref)
  /\ nth_error (sorted_refs arr) (rank arr ref) = Some ref.
Proof.
  intros H. apply sorted_refs_In in H.
  destruct (position_in_In _ _ H) as [k Hk].
  unfold rank. rewrite Hk. split; [ reflexivity | ]. now apply position_in_some.
Qed.

(** A lower [zIndex] means a lower rank. *)
Lemma rank_monotone (arr : list SpriteObject) (i j : nat) :
  (i < length arr)%nat -> (j < length arr)%nat ->
  zIndex_at arr i < zIndex_at arr j -> (rank arr i < rank arr j)%nat.
Proof.
  intros Hi Hj Hlt.
  destruct (rank_spec arr Hi) as [_ Hni]. destruct (rank_spec arr Hj) as [_ Hnj].
  destruct (Nat.lt_trichotomy (rank arr i) (rank arr j)) as [H | [H | H]].
  - exact H.
  - rewrite <- H in Hnj. rewrite Hni in Hnj. injection Hnj as ->. lia.
  - pose proof (StronglySorted_nth (sorted_refs_sorted arr) H Hnj Hni) as Hle.
    unfold key_le in Hle. lia.
Qed.

Lemma positions_of_NoDup (sorted : list nat) :
  NoDup sorted ->
  map (position_in sorted) sorted = map Some (seq 0 (length sorted)).
Proof.
  induction 1 as [ | r sorted Hr Hnodup IH ]; simpl; [ reflexivity | ].
  unfold position_in at 1. simpl. rewrite Nat.eqb_refl. f_equal.
  rewrite <- seq_shift, map_map.
  rewrite <- (map_map Some (option_map S)), <- IH, map_map.
  apply map_ext_in. intros a Ha.
  unfold position_in. simpl.
  destruct (Nat.eqb a r) eqn:E; [ | reflexivity ].
  apply Nat.eqb_eq in E. subst. contradiction.
Qed.

Lemma ranks_in_order (arr : list SpriteObject) :
  map (rank arr) (sorted_refs arr) = seq 0 (length arr).
Proof.
  unfold rank.
  rewrite <- (map_map (position_in (sorted_refs arr))
                (fun o => match o with Some k => k | None => O end)).
  rewrite (positions_of_NoDup (sorted_refs_NoDup arr)), map_map.
  unfold sorted_refs at 1. rewrite Array_sort_length, length_seq.
  apply map_id.
Qed.

Lemma nth_error_reindexZOrder (arr : list SpriteObject) (j : nat) :
  nth_error (reindexZOrder arr) j
  = option_map (with_zIndex (Z.of_nat (rank arr j))) (nth_error arr j).
Proof.
  unfold reindexZOrder.
  rewrite (nth_error_assign_indices 0 arr j (sorted_refs_NoDup arr)).
  destruct (Nat.lt_ge_cases j (length arr)) as [H | H].
  - destruct (rank_spec arr H) as [-> _]. reflexivity.
  - rewrite position_in_none.
    + apply nth_error_None in H. now rewrite H.
    + rewrite sorted_refs_In. lia.
Qed.

Lemma length_reindexZOrder (arr : list SpriteObject) :
  length (reindexZOrder arr) = length arr.
Proof. apply length_assign_indices. Qed.

Lemma zIndex_at_reindexZOrder (arr : list SpriteObject) (j : nat) :
  (j < length arr)%nat ->
  zIndex_at (reindexZOrder arr) j = Z.of_nat (rank arr j).
Proof.
  intros H. unfold zIndex_at, deref. rewrite nth_error_reindexZOrder.
  destruct (nth_error arr j) eqn:E; [ reflexivity | ].
  apply nth_error_None in E. lia.
Qed.

(** ** What a re-stacking keeps *)

(** The same sprites at the same positions, but for their [zIndex]. *)
Definition restamped (arr arr' : list SpriteObject) : Prop :=
  Forall2 (fun s s' => s' = with_zIndex (zIndex s') s) arr arr'.

(** Sprites other than the [touched] ones keep their relative z-order. *)
Definition order_kept (touched : list nat) (arr arr' : list SpriteObject) : Prop :=
  forall i j : nat,
    (i < length arr)%nat -> (j < length arr)%nat ->
    ~ In i touched -> ~ In j touched ->
    zIndex_at arr i < zIndex_at arr j -> zIndex_at arr' i < zIndex_at arr' j.

Lemma Forall2_nth_error {A B : Type} (R : A -> B -> Prop) (l : list A) (l' : list B) :
  length l = length l' ->
  (forall j a b, nth_error l j = Some a -> nth_error l' j = Some b -> R a b) ->
  Forall2 R l l'.
Proof.
  revert l'. induction l as [ | a l IH ]; intros [ | b l' ] Hlen H;
    try discriminate Hlen; constructor.
  - now apply (H O).
  - apply IH; [ now injection Hlen | ].
    intros j u v Hu Hv. now apply (H (S j)).
Qed.

Lemma with_zIndex_same (s : SpriteObject) : with_zIndex (zIndex s) s = s.
Proof. now destruct s. Qed.

Lemma with_zIndex_twice (z z' : Z) (s : SpriteObject) :
  with_zIndex z (with_zIndex z' s) = with_zIndex z s.
Proof. reflexivity. Qed.

Lemma restamped_refl (arr : list SpriteObject) : restamped arr arr.
Proof.
  induction arr; constructor; [ | assumption ]. symmetry. apply with_zIndex_same.
Qed.

Lemma restamped_trans (a b c : list SpriteObject) :
  restamped a b -> restamped b c -> restamped a c.
Proof.
  intros Hab. revert c. induction Hab as [ | s s' a b Hs _ IH ]; intros c Hbc.
  - inversion Hbc. constructor.
  - inversion Hbc as [ | ? s'' ? c' Hs' Hrest ]. subst. constructor.
    + rewrite Hs', Hs. reflexivity.
    + now apply IH.
Qed.

Lemma restamped_length (arr arr' : list SpriteObject) :
  restamped arr arr' -> length arr' = length arr.
Proof. intros H. symmetry. exact (Forall2_length H). Qed.

Lemma restamped_write (ref : nat) (z : Z) (arr : list SpriteObject) :
  restamped arr (write_zIndex ref z arr).
Proof.
  apply Forall2_nth_error.
  - now rewrite length_write_zIndex.
  - intros j a b Ha Hb. rewrite nth_error_write_zIndex, Ha in Hb.
    destruct (Nat.eqb ref j); simpl in Hb; injection Hb as <-.
    + reflexivity.
    + symmetry. apply with_zIndex_same.
Qed.

Lemma reindexZOrder_restamped (arr : list SpriteObject) :
  restamped arr (reindexZOrder arr).
Proof.
  apply Forall2_nth_error.
  - now rewrite length_reindexZOrder.
  - intros j a b Ha Hb. rewrite nth_error_reindexZOrder, Ha in Hb.
    simpl in Hb. now injection Hb as <-.
Qed.

Lemma reindexZOrder_dense (arr : list SpriteObject) : dense (reindexZOrder arr).
Proof.
  unfold dense. rewrite length_reindexZOrder.
  assert (H : map zIndex (reindexZOrder arr)
              = map (fun j => Z.of_nat (rank arr j)) (seq 0 (length arr))).
  { apply nth_error_ext. intros j.
    rewrite !nth_error_map, nth_error_reindexZOrder, nth_error_seq.
    destruct (Nat.ltb j (length arr)) eqn:E.
    - apply Nat.ltb_lt in E.
      destruct (nth_error arr j) eqn:Hj; [ reflexivity | ].
      apply nth_error_None in Hj. lia.
    - apply Nat.ltb_ge, nth_error_None in E. now rewrite E. }
  rewrite H.
  transitivity (map (fun j => Z.of_nat (rank arr j)) (sorted_refs arr)).
  - apply Permutation_map, Permutation_sym, sorted_refs_perm.
  - rewrite <- (map_map (rank arr) Z.of_nat), ranks_in_order. reflexivity.
Qed.

Lemma reindexZOrder_order (arr : list SpriteObject) :
  order_kept [] arr (reindexZOrder arr).
Proof.
  intros i j Hi Hj _ _ Hlt.
  rewrite !zIndex_at_reindexZOrder by assumption.
  apply Nat2Z.inj_lt. now apply rank_monotone.
Qed.

Lemma zIndex_at_write_other (ref j : nat) (z : Z) (arr : list SpriteObject) :
  ref <> j -> zIndex_at (write_zIndex ref z arr) j = zIndex_at arr j.
Proof.
  intros H. unfold zIndex_at, deref. rewrite nth_error_write_zIndex.
  apply Nat.eqb_neq in H. now rewrite H.
Qed.

Lemma zIndex_at_write_same (ref : nat) (z : Z) (arr : list SpriteObject) :
  (ref < length arr)%nat -> zIndex_at (write_zIndex ref z arr) ref = z.
Proof.
  intros H. unfold zIndex_at, deref. rewrite nth_error_write_zIndex, Nat.eqb_refl.
  destruct (nth_error arr ref) eqn:E; [ reflexivity | ].
  apply nth_error_None in E. lia.
Qed.

Lemma zIndex_at_map (arr : list SpriteObject) (j : nat) :
  nth_error (map zIndex arr) j = option_map zIndex (nth_error arr j).
Proof. apply nth_error_map. Qed.

(** ** Exchanging two sprites' [zIndex] *)

Definition transpose (p q j : nat) : nat :=
  if Nat.eqb j p then q else if Nat.eqb j q then p else j.

Lemma transpose_involutive (p q j : nat) : transpose p q (transpose p q j) = j.
Proof.
  unfold transpose.
  destruct (Nat.eqb j p) eqn:Ep; destruct (Nat.eqb j q) eqn:Eq;
    repeat match goal with
           | H : Nat.eqb _ _ = true |- _ => apply Nat.eqb_eq in H; subst
           | |- context [Nat.eqb ?a ?a] => rewrite Nat.eqb_refl
           | |- context [Nat.eqb ?a ?b] => destruct (Nat.eqb a b) eqn:?
           end; try reflexivity;
    repeat match goal with
           | H : Nat.eqb _ _ = false |- _ => apply Nat.eqb_neq in H
           end; congruence.
Qed.

Lemma transpose_injective (p q : nat) : Finite.Injective (transpose p q).
Proof.
  intros a b H. rewrite <- (transpose_involutive p q a), H.
  apply transpose_involutive.
Qed.

Lemma swap_nth_error (p q j : nat) (arr : list SpriteObject) :
  (p < length arr)%nat -> (q < length arr)%nat ->
  nth_error (map zIndex (swap_with_neighbour p q arr)) j
  = nth_error (map zIndex arr) (transpose p q j).
Proof.
  intros Hp Hq. unfold swap_with_neighbour, transpose.
  rewrite !zIndex_at_map, !nth_error_write_zIndex.
  rewrite (Nat.eqb_sym j p), (Nat.eqb_sym j q).
  assert (Hat : forall r, (r < length arr)%nat ->
                          option_map zIndex (nth_error arr r) = Some (zIndex_at arr r)).
  { intros r Hr. unfold zIndex_at, deref. destruct (nth_error arr r) eqn:E; [ reflexivity | ].
    apply nth_error_None in E. lia. }
  destruct (Nat.eqb p j) eqn:Epj.
  - apply Nat.eqb_eq in Epj. subst j. rewrite (Hat q Hq).
    destruct (Nat.eqb q p) eqn:Eqp.
    + destruct (nth_error arr p) eqn:E; [ reflexivity | ].
      apply nth_error_None in E. lia.
    + destruct (nth_error arr p) eqn:E; [ reflexivity | ].
      apply nth_error_None in E. lia.
  - destruct (Nat.eqb q j) eqn:Eqj.
    + apply Nat.eqb_eq in Eqj. subst j. rewrite (Hat p Hp).
      destruct (nth_error arr q) eqn:E; [ reflexivity | ].
      apply nth_error_None in E. lia.
    + reflexivity.
Qed.

Lemma swap_perm (p q : nat) (arr : list SpriteObject) :
  (p < length arr)%nat -> (q < length arr)%nat ->
  Permutation (map zIndex arr) (map zIndex (swap_with_neighbour p q arr)).
Proof.
  intros Hp Hq. apply Permutation_nth_error. split.
  - unfold swap_with_neighbour. now rewrite !length_map, !length_write_zIndex.
  - exists (transpose p q). split; [ apply transpose_injective | ].
    intros j. now apply swap_nth_error.
Qed.

Lemma swap_length (p q : nat) (arr : list SpriteObject) :
  length (swap_with_neighbour p q arr) = length arr.
Proof. unfold swap_with_neighbour. now rewrite !length_write_zIndex. Qed.

Lemma swap_dense (p q : nat) (arr : list SpriteObject) :
  (p < length arr)%nat -> (q < length arr)%nat ->
  dense arr -> dense (swap_with_neighbour p q arr).
Proof.
  intros Hp Hq H. unfold dense in *. rewrite swap_length.
  rewrite <- (swap_perm arr Hp Hq). exact H.
Qed.

Lemma swap_restamped (p q : nat) (arr : list SpriteObject) :
  restamped arr (swap_with_neighbour p q arr).
Proof.
  unfold swap_with_neighbour.
  eapply restamped_trans; apply restamped_write.
Qed.

Lemma swap_order (p q : nat) (arr : list SpriteObject) :
  order_kept [q; p] arr (swap_with_neighbour p q arr).
Proof.
  intros i j _ _ Hi Hj Hlt. simpl in Hi, Hj. unfold swap_with_neighbour.
  rewrite !zIndex_at_write_other by tauto. exact Hlt.
Qed.

(** Outside the two sprites, nothing changes at all. *)
Lemma swap_elsewhere (p q j : nat) (arr : list SpriteObject) :
  j <> p -> j <> q -> nth_error (swap_with_neighbour p q arr) j = nth_error arr j.
Proof.
  intros Hp Hq. unfold swap_with_neighbour. rewrite !nth_error_write_zIndex.
  apply Nat.neq_sym, Nat.eqb_neq in Hp. apply Nat.neq_sym, Nat.eqb_neq in Hq.
  now rewrite Hp, Hq.
Qed.

(** ** The sprites after each re-stacking call *)

Lemma find_ref_bound {A : Type} (p : A -> bool) (l : list A) (i : nat) :
  find_ref p l = Some i -> (i < length l)%nat.
Proof.
  intros H. apply find_ref_some in H. destruct H as [a [Ha _]].
  apply nth_error_Some. congruence.
Qed.

Lemma at_index_bound (arr : list SpriteObject) (k : Z) (q : nat) :
  at_index (sorted_refs arr) k = Some q -> (q < length arr)%nat.
Proof.
  intros H. unfold at_index in H. destruct (k <? 0); [ discriminate | ].
  apply nth_error_In in H. now apply sorted_refs_In.
Qed.

(** What a call does to the sprites: nothing, or one exchange of [zIndex]
    between the sprite found under the id and a neighbour in z-order. *)
Definition exchanged (i : string) (arr arr' : list SpriteObject) : Prop :=
  arr' = arr
  \/ exists p q, find_ref (has_id i) arr = Some p
                 /\ (p < length arr)%nat /\ (q < length arr)%nat
                 /\ arr' = swap_with_neighbour p q arr.

Lemma moveLayerUp_sprites (i : string) (sm : StateManager.t) :
  exchanged i (sprites (state sm)) (sprites (state (moveLayerUp i sm))).
Proof.
  unfold moveLayerUp, exchanged.
  destruct (find_ref (has_id i) (sprites (state sm))) as [p | ] eqn:Hp; [ | now left ].
  destruct (_ <? _); [ | now left ].
  destruct (at_index _ _) as [q | ] eqn:Hq; [ | now left ].
  right. exists p, q. rewrite commit_state. simpl. repeat split; trivial.
  - now apply find_ref_bound in Hp.
  - eapply at_index_bound, Hq.
Qed.

Lemma moveLayerDown_sprites (i : string) (sm : StateManager.t) :
  exchanged i (sprites (state sm)) (sprites (state (moveLayerDown i sm))).
Proof.
  unfold moveLayerDown, exchanged.
  destruct (find_ref (has_id i) (sprites (state sm))) as [p | ] eqn:Hp; [ | now left ].
  destruct (_ <? _); [ | now left ].
  destruct (at_index _ _) as [q | ] eqn:Hq; [ | now left ].
  right. exists p, q. rewrite commit_state. simpl. repeat split; trivial.
  - now apply find_ref_bound in Hp.
  - eapply at_index_bound, Hq.
Qed.

(** The positions a call may re-stack out of order: the sprite found under
    the id, if any. *)
Definition moved (i : string) (arr : list SpriteObject) : list nat :=
  match find_ref (has_id i) arr with
  | Some p => [p]
  | None => []
  end.

Lemma exchanged_restacks (i : string) (arr arr' : list SpriteObject) :
  exchanged i arr arr' ->
  restamped arr arr'
  /\ (dense arr -> dense arr')
  /\ exists q, order_kept (q :: moved i arr) arr arr'
               /\ forall j, ~ In j (q :: moved i arr) -> nth_error arr' j = nth_error arr j.
Proof.
  intros [-> | [p [q [Hfind [Hp [Hq ->]]]]]].
  - split; [ apply restamped_refl | ]. split; [ trivial | ].
    exists O. split; [ | reflexivity ]. intros a b _ _ _ _ H. exact H.
  - split; [ apply swap_restamped | ]. split; [ now apply swap_dense | ].
    exists q. unfold moved. rewrite Hfind. split; [ apply swap_order | ].
    intros j Hj. simpl in Hj. apply swap_elsewhere; intros ->; apply Hj; auto.
Qed.

Lemma moveLayerToFront_sprites (i : string) (sm : StateManager.t) :
  let arr := sprites (state sm) in
  sprites (state (moveLayerToFront i sm)) =
  match find_ref (has_id i) arr with
  | Some p => reindexZOrder (write_zIndex p (Math_max_of (map zIndex arr) + 1) arr)
  | None => arr
  end.
Proof.
  simpl. unfold moveLayerToFront.
  destruct (find_ref _ _); [ now rewrite commit_state | reflexivity ].
Qed.

Lemma moveLayerToBack_sprites (i : string) (sm : StateManager.t) :
  let arr := sprites (state sm) in
  sprites (state (moveLayerToBack i sm)) =
  match find_ref (has_id i) arr with
  | Some p => reindexZOrder (write_zIndex p (Math_min_of (map zIndex arr) - 1) arr)
  | None => arr
  end.
Proof.
  simpl. unfold moveLayerToBack.
  destruct (find_ref _ _); [ now rewrite commit_state | reflexivity ].
Qed.

(** Setting one sprite's [zIndex] and re-indexing. *)
Lemma write_reindex_restacks (p : nat) (z : Z) (arr : list SpriteObject) :
  let arr' := reindexZOrder (write_zIndex p z arr) in
  restamped arr arr' /\ dense arr' /\ order_kept [p] arr arr'.
Proof.
  simpl. split; [ | split ].
  - eapply restamped_trans; [ apply restamped_write | apply reindexZOrder_restamped ].
  - apply reindexZOrder_dense.
  - intros a b Ha Hb Hpa Hpb Hlt. simpl in Hpa, Hpb.
    apply reindexZOrder_order.
    + now rewrite length_write_zIndex.
    + now rewrite length_write_zIndex.
    + intros [].
    + intros [].
    + rewrite !zIndex_at_write_other by tauto. exact Hlt.
Qed.

Lemma deleteSprite_sprites (i : string) (sm : StateManager.t) :
  sprites (state (deleteSprite i sm))
  = reindexZOrder (filter (fun s => negb (has_id i s)) (sprites (state sm))).
Proof.
  unfold deleteSprite. rewrite commit_state. simpl.
  now destruct (selected_is i (selectedId (state sm))).
Qed.

(** ** Snapshots are read back as they were written *)

Lemma sprite_view_json_of_sprite (s : SpriteObject) : sprite_view (json_of_sprite s) = s.
Proof.
  destruct s. unfold sprite_view, json_of_sprite, int_member, num_member, str_member.
  simpl. now rewrite ZfloorZ.
Qed.

Lemma state_view_json_of_state (st : EditorState) : state_view (json_of_state st) = st.
Proof.
  destruct st as [l sel n so ax bo cf].
  unfold state_view, json_of_state, int_member, num_member, str_member, bool_member.
  simpl. rewrite ZfloorZ, map_map.
  rewrite (map_ext _ (fun s => s) sprite_view_json_of_sprite), map_id.
  now destruct sel.
Qed.

Lemma state_of_json_of_state (st : EditorState) : state_of_json (json_of_state st) = Some st.
Proof.
  unfold state_of_json. now rewrite state_view_json_of_state, json_eqb_refl.
Qed.

Lemma state_of_json_sound (j : json) (st : EditorState) :
  state_of_json j = Some st -> json_of_state st = j.
Proof.
  unfold state_of_json.
  destruct (json_eqb (json_of_state (state_view j)) j) eqn:E; [ | discriminate ].
  intros H. injection H as <-. now apply json_eqb_eq.
Qed.

Lemma state_of_serialized (st st' : EditorState) :
  state_of_json (json_of_state st) = Some st' -> st' = st.
Proof. rewrite state_of_json_of_state. congruence. Qed.

(** ** Histories of dense states *)

Definition dense_snapshot (entry : JSONText) : Prop :=
  exists st, JSON_parse entry = Return (json_of_state st) /\ dense (sprites st).

Definition dense_history (sm : StateManager.t) : Prop :=
  dense (sprites (state sm))
  /\ Forall dense_snapshot (undoStack sm)
  /\ Forall dense_snapshot (redoStack sm).

Lemma Forall_tl {A : Type} (P : A -> Prop) (l : list A) : Forall P l -> Forall P (tl l).
Proof. intros H. destruct H; simpl; auto. Qed.

Lemma Forall_removelast {A : Type} (P : A -> Prop) (l : list A) :
  Forall P l -> Forall P (removelast l).
Proof.
  induction 1 as [ | a l Ha Hl IH ]; simpl; [ constructor | ].
  destruct l; [ constructor | ]. now constructor.
Qed.

Lemma Forall_push {A : Type} (P : A -> Prop) (l : list A) (a : A) :
  Forall P l -> P a -> Forall P (push l a).
Proof. intros Hl Ha. apply Forall_app. split; [ exact Hl | now constructor ]. Qed.

Lemma last_entry_In {A : Type} (l : list A) (a : A) : last_entry l = Some a -> In a l.
Proof.
  intros H. rewrite (push_unfold l H). unfold push. apply in_elt.
Qed.

Lemma saveSnapshot_dense_history (sm : StateManager.t) :
  dense_history sm -> dense_history (saveSnapshot sm).
Proof.
  intros (Hs & Hu & Hr). unfold saveSnapshot.
  destruct (top_differs _ _); [ | now split ].
  split; [ exact Hs | ]. simpl. split; [ | constructor ].
  assert (Hpushed : Forall dense_snapshot
                      (push (undoStack sm) (JSON_stringify (json_of_state (state sm))))).
  { apply Forall_push; [ exact Hu | ]. now exists (state sm). }
  destruct (_ <? _)%nat; [ now apply Forall_tl | exact Hpushed ].
Qed.

Lemma with_state_dense_history (st : EditorState) (sm : StateManager.t) :
  dense_history sm -> dense (sprites st) -> dense_history (with_state st sm).
Proof. intros (_ & Hu & Hr) H. now split. Qed.

Lemma commit_dense_history (st : EditorState) (sm : StateManager.t) :
  dense_history sm -> dense (sprites st) ->
  dense_history (notifyListeners (saveSnapshot (with_state st sm))).
Proof.
  intros Hsm Hst.
  apply (@saveSnapshot_dense_history (with_state st sm)).
  now apply with_state_dense_history.
Qed.

Lemma undo_dense_history (sm sm' : StateManager.t) :
  dense_history sm -> undo sm = Return (Typed sm') -> dense_history sm'.
Proof.
  intros (Hs & Hu & Hr). unfold undo.
  destruct (_ <=? _)%nat.
  { intros H. injection H as <-. now split. }
  destruct (last_entry (undoStack sm)) as [current | ] eqn:Hcurrent.
  2: { intros H. injection H as <-. now split. }
  destruct (last_entry (removelast (undoStack sm))) as [previous | ] eqn:Hprevious;
    [ | discriminate ].
  assert (Hprev : dense_snapshot previous).
  { apply last_entry_In in Hprevious.
    pose proof (Forall_removelast Hu) as H. rewrite Forall_forall in H. now apply H. }
  destruct Hprev as [st0 [-> Hst0]]. cbn [bind].
  destruct (state_of_json (json_of_state st0)) as [st | ] eqn:Hst;
    [ | first [ discriminate | destruct (listener_throws _ _); discriminate ] ].
  apply state_of_serialized in Hst. subst st.
  intros H. injection H as <-. split; [ exact Hst0 | ]. simpl. split.
  - now apply Forall_removelast.
  - apply Forall_push; [ exact Hr | ].
    apply last_entry_In in Hcurrent. rewrite Forall_forall in Hu. now apply Hu.
Qed.

Lemma redo_dense_history (sm sm' : StateManager.t) :
  dense_history sm -> redo sm = Return (Typed sm') -> dense_history sm'.
Proof.
  intros (Hs & Hu & Hr). unfold redo.
  destruct (last_entry (redoStack sm)) as [next | ] eqn:Hnext.
  2: { intros H. injection H as <-. now split. }
  assert (Hn : dense_snapshot next).
  { apply last_entry_In in Hnext. rewrite Forall_forall in Hr. now apply Hr. }
  destruct Hn as [st0 [Hparse Hst0]]. rewrite Hparse. cbn [bind].
  destruct (state_of_json (json_of_state st0)) as [st | ] eqn:Hst;
    [ | first [ discriminate | destruct (listener_throws _ _); discriminate ] ].
  apply state_of_serialized in Hst. subst st.
  intros H. injection H as <-. split; [ exact Hst0 | ]. simpl. split.
  - apply Forall_push; [ exact Hu | ].
    apply last_entry_In in Hnext. rewrite Forall_forall in Hr. now apply Hr.
  - now apply Forall_removelast.
Qed.

Lemma import_sprite_zIndex (n : Z) (sprite : json) (index : Z) (raw : RawSprite) :
  import_sprite n sprite index = Return raw -> raw_zIndex raw = index.
Proof.
  destruct sprite; simpl; intros H; try discriminate H; now injection H as <-.
Qed.

Lemma imported_zIndex (n : Z) (items : list json) (start : nat) (raws : list RawSprite) :
  map_indexed (Z.of_nat start) (import_sprite n) items = Return raws ->
  map raw_zIndex raws = map Z.of_nat (seq start (length raws)).
Proof.
  revert start raws. induction items as [ | j items IH ]; intros start raws; simpl.
  - intros H. now injection H as <-.
  - destruct (import_sprite n j (Z.of_nat start)) as [raw | ] eqn:Hraw; simpl;
      [ | discriminate ].
    replace (Z.of_nat start + 1) with (Z.of_nat (S start)) by lia.
    destruct (map_indexed (Z.of_nat (S start)) (import_sprite n) items) as [rest | ] eqn:Hrest;
      simpl; [ | discriminate ].
    intros H. injection H as <-. simpl. f_equal.
    + now apply import_sprite_zIndex in Hraw.
    + now apply IH.
Qed.

Lemma typed_sprites_zIndex (raws : list RawSprite) (l : list SpriteObject) :
  typed_sprites raws = Some l -> map zIndex l = map raw_zIndex raws.
Proof.
  revert l. induction raws as [ | raw raws IH ]; intros l; simpl.
  - intros H. now injection H as <-.
  - destruct (typed_sprite raw) as [s | ] eqn:Hs; [ | discriminate ].
    destruct (typed_sprites raws) as [rest | ]; [ | discriminate ].
    intros H. injection H as <-. simpl. f_equal; [ | now apply IH ].
    unfold typed_sprite in Hs.
    destruct (raw_emoji raw) as [ | [ | | | | | ] ]; try discriminate Hs.
    destruct (raw_x raw) as [ | [ | | | | | ] ]; try discriminate Hs.
    destruct (raw_y raw) as [ | [ | | | | | ] ]; try discriminate Hs.
    destruct (raw_rotation raw) as [ | [ | | | | | ] ]; try discriminate Hs.
    destruct (raw_scaleX raw) as [ | [ | | | | | ] ]; try discriminate Hs.
    destruct (raw_scaleY raw) as [ | [ | | | | | ] ]; try discriminate Hs.
    now injection Hs as <-.
Qed.

Lemma imported_dense (n : Z) (items : list json) (raws : list RawSprite)
    (l : list SpriteObject) :
  map_indexed 0 (import_sprite n) items = Return raws ->
  typed_sprites raws = Some l -> dense l.
Proof.
  intros Hraws Hl. unfold dense.
  rewrite (typed_sprites_zIndex _ Hl), (typed_sprites_length _ Hl).
  change 0 with (Z.of_nat 0) in Hraws. now rewrite (imported_zIndex _ _ _ Hraws).
Qed.

Lemma pushed_dense (arr : list SpriteObject) (s : SpriteObject) :
  dense arr -> zIndex s = Z.of_nat (length arr) -> dense (push arr s).
Proof.
  unfold dense, push. intros H Hs.
  rewrite map_app, length_app. simpl. rewrite Nat.add_1_r, seq_S, map_app. simpl.
  rewrite Hs. now apply Permutation_app_tail.
Qed.

Lemma map_modify_at {A B : Type} (f : A -> B) (g : A -> A) (i : nat) (l : list A) :
  (forall a, f (g a) = f a) -> map f (modify_at i g l) = map f l.
Proof.
  intros H. revert i. induction l as [ | a l IH ]; intros [ | i ]; simpl; trivial.
  - now rewrite H.
  - now rewrite IH.
Qed.

Lemma updated_dense (p : nat) (updates : SpriteUpdates) (arr : list SpriteObject) :
  new_zIndex updates = None -> dense arr ->
  dense (modify_at p (fun s => Object_assign s updates) arr).
Proof.
  intros Hz H. unfold dense.
  rewrite length_modify_at, map_modify_at; [ exact H | ].
  intros s. simpl. now rewrite Hz.
Qed.

Lemma exchanged_dense (i : string) (arr arr' : list SpriteObject) :
  exchanged i arr arr' -> dense arr -> dense arr'.
Proof. intros H. now apply exchanged_restacks in H. Qed.

Lemma dense_start_history (sm : StateManager.t) : DenseStart sm -> dense_history sm.
Proof.
  intros [Hstarted Hdense]. destruct Hstarted as [storage loaded sm0 registered H].
  destruct (register_fields registered sm0) as (Hs & Hu & Hr & _).
  unfold dense_history. rewrite Hs, Hu, Hr. rewrite Hs in Hdense.
  change (dense_history sm0).
  assert (Hfallback :
    forall sm1, (false, Typed {| state := state (constructor storage);
                                 undoStack := [JSON_stringify (json_of_state
                                                 (state (constructor storage)))];
                                 redoStack := []; listeners := [];
                                 notifications := 0;
                                 localStorage := storage |}) = (loaded, Typed sm1) ->
                dense (sprites (state sm1)) -> dense_history sm1).
  { intros sm1 E Hd. injection E as _ <-. split; [ exact Hd | ]. simpl.
    split; [ | constructor ]. constructor; [ | constructor ].
    now exists (state (constructor storage)). }
  unfold loadFromLocalStorage in H. simpl in H.
  destruct (getItem storage) as [stored | ]; [ | now apply Hfallback ].
  destruct (JSON_parse stored) as [parsed | ] eqn:Hparse; [ | now apply Hfallback ].
  destruct (prop parsed "sprites") as [found | ]; [ | now apply Hfallback ].
  destruct (truthy found && Array_isArray found); [ | now apply Hfallback ].
  destruct (state_of_json parsed) as [st | ] eqn:Hst;
    [ | first [ discriminate | destruct (listener_throws _ _); discriminate ] ].
  injection H as _ <-. simpl in Hdense. split; [ exact Hdense | ]. simpl.
  split; [ | constructor ]. constructor; [ | constructor ].
  exists st. split; [ | exact Hdense ].
  apply state_of_json_sound in Hst. congruence.
Qed.

Lemma importJSON_dense_history (json : JSONText) (sm sm' : StateManager.t) :
  editing (ImportJSON json) -> dense_history sm ->
  snd (importJSON json sm) = Typed sm' -> dense_history sm'.
Proof.
  unfold editing, full_state_input, importJSON. intros Hedit Hsm.
  destruct (JSON_parse json) as [imported | ]; simpl.
  2: { intros H. now injection H as <-. }
  destruct imported as [ | b | r | s | items | props ]; simpl;
    try (intros H; now injection H as <-).
  - destruct (map_indexed 0 _ items) as [raws | ] eqn:Hraws; simpl.
    2: { intros H. now injection H as <-. }
    destruct (typed_sprites raws) as [l | ] eqn:Hl; simpl; [ | discriminate ].
    intros H. injection H as <-.
    apply commit_dense_history; [ exact Hsm | ]. simpl.
    exact (imported_dense _ _ Hraws Hl).
  - rewrite Hedit, andb_false_r. intros H. now injection H as <-.
Qed.

(** Every manager the editor reaches by its own editing calls holds a dense
    z-order, in its state and in every snapshot of its history. *)
Lemma edit_reachable_dense_history (sm : StateManager.t) :
  EditReachable sm -> dense_history sm.
Proof.
  induction 1 as [ sm Hstart | op sm sm' _ IH Hedit Hcall ].
  { now apply dense_start_history. }
  pose proof IH as (Hs & Hu & Hr).
  destruct op; simpl in Hcall; try (injection Hcall as <-).
  - contradiction.
  - apply commit_dense_history; [ exact IH | ]. simpl. now apply pushed_dense.
  - unfold updateSprite. destruct (find_ref _ _); [ | exact IH ].
    apply commit_dense_history; [ exact IH | ]. simpl. now apply updated_dense.
  - unfold updateSpriteWithoutSnapshot. destruct (find_ref _ _); [ | exact IH ].
    split; [ | now split ]. simpl. now apply updated_dense.
  - now apply saveSnapshot_dense_history.
  - apply commit_dense_history; [ exact IH | ].
    simpl. apply reindexZOrder_dense.
  - apply commit_dense_history; [ exact IH | ]. apply Permutation_refl.
  - apply commit_dense_history; [ exact IH | exact Hs ].
  - apply commit_dense_history; [ exact IH | exact Hs ].
  - apply commit_dense_history; [ exact IH | exact Hs ].
  - apply commit_dense_history; [ exact IH | exact Hs ].
  - apply commit_dense_history; [ exact IH | exact Hs ].
  - pose proof (moveLayerUp_sprites i sm) as Hex.
    unfold moveLayerUp in *. destruct (find_ref _ _); [ | exact IH ].
    destruct (_ <? _); [ | exact IH ].
    destruct (at_index _ _); [ | exact IH ].
    apply commit_dense_history; [ exact IH | ].
    rewrite commit_state in Hex. exact (exchanged_dense Hex Hs).
  - pose proof (moveLayerDown_sprites i sm) as Hex.
    unfold moveLayerDown in *. destruct (find_ref _ _); [ | exact IH ].
    destruct (_ <? _); [ | exact IH ].
    destruct (at_index _ _); [ | exact IH ].
    apply commit_dense_history; [ exact IH | ].
    rewrite commit_state in Hex. exact (exchanged_dense Hex Hs).
  - unfold moveLayerToFront. destruct (find_ref _ _); [ | exact IH ].
    apply commit_dense_history; [ exact IH | ]. apply reindexZOrder_dense.
  - unfold moveLayerToBack. destruct (find_ref _ _); [ | exact IH ].
    apply commit_dense_history; [ exact IH | ]. apply reindexZOrder_dense.
  - injection Hcall as Hcall. eapply importJSON_dense_history; eassumption.
  - now apply (undo_dense_history IH).
  - now apply (redo_dense_history IH).
Qed.

Lemma importJSON_full_state (st : EditorState) (sm : StateManager.t) :
  importJSON (JSON_stringify (json_of_state st)) sm
  = (true, Typed (notifyListeners (saveSnapshot (with_state st sm)))).
Proof.
  unfold importJSON.
  change (JSON_parse (JSON_stringify (json_of_state st))) with (Return (json_of_state st)).
  cbv iota beta.
  change (Array_isArray (Val (json_of_state st))) with false. cbv iota.
  change (prop (json_of_state st) "sprites")
    with (Return (Val (JArr (map json_of_sprite (sprites st))))).
  cbv iota beta. simpl (truthy _ && Array_isArray _).
  now rewrite state_of_json_of_state.
Qed.

(** A re-stacking: the same sprites at the same positions but for their
    [zIndex], those outside [touched] in the same relative z-order. *)
Definition restacks (touched : list nat) (arr arr' : list SpriteObject) : Prop :=
  restamped arr arr' /\ order_kept touched arr arr'.

(** C5, as amended.  A manager reached by the editor's own editing calls
    (anything but a state object installed from outside and an update that
    carries a [zIndex]) has [zIndex] values exactly 0, ..., n-1.  Each of the
    four layer moves keeps a dense z-order dense, changes nothing but
    [zIndex], and keeps the relative order of all sprites other than the one
    moved (and, for a move by one layer, the neighbour it trades places
    with).  [deleteSprite] leaves the remaining sprites, in their array order
    and relative z-order, with a dense z-order whatever it was before: after
    removing the one sprite with the id from N, the values are exactly
    0, ..., N-2. *)
Theorem z_order_stays_dense (sm : StateManager.t) (i : string) :
  let arr := sprites (state sm) in
  let rest := filter (fun s => negb (has_id i s)) arr in
  let after (call : string -> StateManager.t -> StateManager.t) :=
    sprites (state (call i sm)) in
  (EditReachable sm -> dense arr)
  /\ ((dense arr -> dense (after moveLayerUp))
      /\ exists q, restacks (q :: moved i arr) arr (after moveLayerUp))
  /\ ((dense arr -> dense (after moveLayerDown))
      /\ exists q, restacks (q :: moved i arr) arr (after moveLayerDown))
  /\ ((dense arr -> dense (after moveLayerToFront))
      /\ restacks (moved i arr) arr (after moveLayerToFront))
  /\ ((dense arr -> dense (after moveLayerToBack))
      /\ restacks (moved i arr) arr (after moveLayerToBack))
  /\ (dense (after deleteSprite)
      /\ restacks [] rest (after deleteSprite)
      /\ (length (filter (has_id i) arr) = 1%nat ->
          Permutation (map zIndex (after deleteSprite))
            (map Z.of_nat (seq 0 (length arr - 1))))).
Proof.
  intros arr rest after.
  split; [ intros H; apply edit_reachable_dense_history in H; apply H | ].
  split.
  { destruct (exchanged_restacks (moveLayerUp_sprites i sm)) as (Hr & Hd & q & Ho & _).
    split; [ exact Hd | ]. exists q. now split. }
  split.
  { destruct (exchanged_restacks (moveLayerDown_sprites i sm)) as (Hr & Hd & q & Ho & _).
    split; [ exact Hd | ]. exists q. now split. }
  split.
  { unfold after. rewrite moveLayerToFront_sprites. fold arr. unfold moved.
    destruct (find_ref (has_id i) arr) as [p | ].
    - destruct (write_reindex_restacks p (Math_max_of (map zIndex arr) + 1) arr)
        as (Hr & Hd & Ho).
      split; [ intros _; exact Hd | now split ].
    - split; [ trivial | ]. split; [ apply restamped_refl | ].
      intros a b _ _ _ _ H. exact H. }
  split.
  { unfold after. rewrite moveLayerToBack_sprites. fold arr. unfold moved.
    destruct (find_ref (has_id i) arr) as [p | ].
    - destruct (write_reindex_restacks p (Math_min_of (map zIndex arr) - 1) arr)
        as (Hr & Hd & Ho).
      split; [ intros _; exact Hd | now split ].
    - split; [ trivial | ]. split; [ apply restamped_refl | ].
      intros a b _ _ _ _ H. exact H. }
  unfold after. rewrite deleteSprite_sprites. fold arr. fold rest.
  split; [ apply reindexZOrder_dense | ].
  split; [ split; [ apply reindexZOrder_restamped | apply reindexZOrder_order ] | ].
  intros Hone.
  pose proof (reindexZOrder_dense rest) as Hd. unfold dense in Hd.
  rewrite length_reindexZOrder in Hd.
  pose proof (filter_length (has_id i) arr) as Hlen. fold rest in Hlen.
  replace (length arr - 1)%nat with (length rest) by lia. exact Hd.
Qed.

Lemma z_order_stays_dense_witness :
  dense (sprites (state (snd (addSprite "star" 0 0 fresh))))
  /\ dense (sprites (state (moveLayerUp "sprite-1" two_sprites)))
  /\ Permutation (map zIndex (sprites (state (deleteSprite "sprite-1" two_sprites))))
       (map Z.of_nat (seq 0 1)).
Proof.
  destruct (z_order_stays_dense (snd (addSprite "star" 0 0 fresh)) "sprite-1")
    as [Hreach _].
  destruct (z_order_stays_dense two_sprites "sprite-1")
    as (_ & [Hup _] & _ & _ & _ & _ & _ & Hdelete).
  split; [ | split ].
  - apply Hreach.
    apply (@reach_call _ _ (AddSprite "star" 0 0) fresh);
      [ apply reach_start | exact I | reflexivity ].
    split; [ exact fresh_started | apply Permutation_refl ].
  - apply Hup. apply Permutation_refl.
  - apply Hdelete. reflexivity.
Defined.

(** A full state whose only sprite has [zIndex] 5. *)
Definition lone_at_5 : EditorState :=
  with_sprites [with_zIndex 5 star] (state fresh).

(** C5, as stated, fails: the full-state branch of [importJSON] installs the
    state it is given, whatever its [zIndex] values. *)
Lemma full_state_import_is_not_dense :
  let sm := notifyListeners (saveSnapshot (with_state lone_at_5 fresh)) in
  importJSON (JSON_stringify (json_of_state lone_at_5)) fresh = (true, Typed sm)
  /\ Reachable sm
  /\ map zIndex (sprites (state sm)) = [5]
  /\ (dense (sprites (state sm)) -> False).
Proof.
  cbv zeta. split; [ apply importJSON_full_state | ].
  split.
  { apply (@reach_call _ _ (ImportJSON (JSON_stringify (json_of_state lone_at_5))) fresh);
      [ exact fresh_reachable | exact I | ].
    cbn [call]. now rewrite importJSON_full_state. }
  rewrite commit_state. simpl. split; [ reflexivity | ].
  intros H. unfold dense in H. simpl in H.
  apply Permutation_length_1 in H. discriminate H.
Qed.

(* ===================================================================== *)
(** * Reads the sources do unguarded are in range                        *)
(* ===================================================================== *)

Lemma find_ref_exists {A : Type} (p : A -> bool) (l : list A) (a : A) :
  In a l -> p a = true -> exists k, find_ref p l = Some k.
Proof.
  induction l as [ | b l IH ]; simpl; [ tauto | ].
  intros [-> | Hin] Ha.
  - rewrite Ha. now exists O.
  - destruct (p b); [ now exists O | ].
    destruct (IH Hin Ha) as [k ->]. now exists (S k).
Qed.

(** The sprite found in the state is found again in the sorted copy. *)
Lemma findIndex_in_sorted (i : string) (arr : list SpriteObject) (p : nat) :
  find_ref (has_id i) arr = Some p ->
  let index := findIndex (fun s => String.eqb (id_at arr s) i) (sorted_refs arr) in
  0 <= index < Z.of_nat (length (sorted_refs arr)).
Proof.
  intros Hp. simpl. unfold findIndex.
  assert (Hin : In p (sorted_refs arr)).
  { apply sorted_refs_In. now apply find_ref_bound in Hp. }
  assert (Hid : String.eqb (id_at arr p) i = true).
  { apply find_ref_some in Hp. destruct Hp as [s [Hs Hhas]].
    unfold id_at, deref. now rewrite Hs. }
  destruct (find_ref_exists (fun s => String.eqb (id_at arr s) i) _ _ Hin Hid) as [k Hk].
  rewrite Hk. apply find_ref_bound in Hk. lia.
Qed.

Lemma at_index_in_range {A : Type} (l : list A) (k : Z) :
  0 <= k < Z.of_nat (length l) -> at_index l k <> None.
Proof.
  intros H. unfold at_index.
  destruct (k <? 0) eqn:E; [ apply Z.ltb_lt in E; lia | ].
  apply nth_error_Some. lia.
Qed.

(** [sorted[index + 1]] in [moveLayerUp] and [sorted[index - 1]] in
    [moveLayerDown] are sprites whenever the guard lets the read happen. *)
Lemma neighbour_reads_in_range (i : string) (arr : list SpriteObject) (p : nat) :
  find_ref (has_id i) arr = Some p ->
  let sorted := sorted_refs arr in
  let index := findIndex (fun s => String.eqb (id_at arr s) i) sorted in
  ((index <? Z.of_nat (length sorted) - 1) = true -> at_index sorted (index + 1) <> None)
  /\ ((0 <? index) = true -> at_index sorted (index - 1) <> None).
Proof.
  intros Hp sorted index. pose proof (findIndex_in_sorted i arr Hp) as Hindex.
  simpl in Hindex. fold sorted in Hindex. fold index in Hindex. split; intros H.
  - apply Z.ltb_lt in H. apply at_index_in_range. lia.
  - apply Z.ltb_lt in H. apply at_index_in_range. lia.
Qed.

(** Past its guard, [undo] pops an entry and finds another below it. *)
Lemma undo_reads_in_range (sm : StateManager.t) :
  (length (undoStack sm) <=? 1)%nat = false ->
  last_entry (undoStack sm) <> None
  /\ last_entry (removelast (undoStack sm)) <> None.
Proof.
  intros H. apply Nat.leb_gt in H.
  destruct (undoStack sm) as [ | a [ | b l ] ]; simpl in H; try lia.
  split.
  - intros E. apply last_entry_none in E. discriminate E.
  - intros E. apply last_entry_none in E.
    simpl in E. destruct l; discriminate E.
Qed.

(* ===================================================================== *)
(** * History: its size, what its entries hold, undo and redo            *)
(* ===================================================================== *)

Lemma length_push {A : Type} (l : list A) (a : A) : length (push l a) = S (length l).
Proof. unfold push. rewrite length_app. simpl. lia. Qed.

Lemma length_bounded (l : list JSONText) :
  (length l <= 51)%nat -> (length (bounded l) <= 50)%nat.
Proof.
  unfold bounded. destruct (50 <? length l)%nat eqn:E.
  - destruct l; simpl in *; lia.
  - apply Nat.ltb_ge in E. lia.
Qed.

Lemma history_step_size (u r u' r' : list JSONText) :
  history_step u r u' r' ->
  (length u + length r <= 50)%nat -> (length u' + length r' <= 50)%nat.
Proof.
  intros [ | snapshot Htop | u0 current -> Hne | r0 next -> ] H.
  - exact H.
  - simpl. rewrite Nat.add_0_r. apply length_bounded. rewrite length_push. lia.
  - rewrite length_push in *. lia.
  - rewrite length_push in *. lia.
Qed.

(** X1.  From the moment the editor has loaded, the undo stack and the redo
    stack together never hold more than 50 snapshots, whatever is called. *)
Theorem history_holds_at_most_50 (sm : StateManager.t) :
  Reachable sm -> (length (undoStack sm) + length (redoStack sm) <= 50)%nat.
Proof.
  induction 1 as [ sm Hstart | op sm sm' _ IH _ Hcall ].
  - destruct (started_stacks Hstart) as [entry [-> ->]]. simpl. lia.
  - apply call_history in Hcall. exact (history_step_size Hcall IH).
Qed.

Lemma history_holds_at_most_50_witness :
  (length (undoStack (snd (addSprite "star" 0 0 fresh)))
   + length (redoStack (snd (addSprite "star" 0 0 fresh))) <= 50)%nat.
Proof.
  apply history_holds_at_most_50.
  apply (@reach_call _ _ (AddSprite "star" 0 0) fresh);
    [ exact fresh_reachable | exact I | reflexivity ].
Defined.

(** ** What a call other than [undo] and [redo] does to the manager *)

(** Nothing; or it commits a state: the state is replaced, a snapshot is
    taken and the listeners are called; or it takes a snapshot of the state
    as it is. *)
Inductive saved (sm : StateManager.t) : StateManager.t -> Prop :=
| saved_same : saved sm sm
| saved_commit (st : EditorState) :
    saved sm (notifyListeners (saveSnapshot (with_state st sm)))
| saved_finalize : saved sm (saveSnapshot sm).

(** The calls that change the state without a snapshot. *)
Definition unsaved (op : Op) : Prop :=
  match op with
  | SetState _ | UpdateSpriteWithoutSnapshot _ _ => True
  | _ => False
  end.

Lemma importJSON_saved (json : JSONText) (sm sm' : StateManager.t) (ret : bool) :
  importJSON json sm = (ret, Typed sm') -> saved sm sm'.
Proof.
  unfold importJSON.
  destruct (JSON_parse json) as [imported | ].
  2: { intros H. injection H as _ <-. apply saved_same. }
  destruct (Array_isArray (Val imported)).
  - destruct (map_indexed _ _ _) as [raws | ].
    2: { intros H. injection H as _ <-. apply saved_same. }
    destruct (typed_sprites raws) as [l | ]; [ | discriminate ].
    intros H. injection H as _ <-. apply saved_commit.
  - destruct (prop imported "sprites") as [found | ].
    2: { intros H. injection H as _ <-. apply saved_same. }
    destruct (truthy found && Array_isArray found).
    2: { intros H. injection H as _ <-. apply saved_same. }
    destruct (state_of_json imported) as [st | ];
    [ | first [ discriminate | destruct (listener_throws _ _); discriminate ] ].
    intros H. injection H as _ <-. apply saved_commit.
Qed.

Lemma call_saved (op : Op) (sm sm' : StateManager.t) :
  op <> Undo -> op <> Redo -> ~ unsaved op ->
  call op sm = Return (Typed sm') -> saved sm sm'.
Proof.
  intros Hundo Hredo Hunsaved.
  destruct op; simpl in *; try contradiction; try congruence; intros H;
    try (injection H as <-; first [ apply saved_commit | apply saved_finalize ]).
  - injection H as <-. unfold updateSprite. destruct (find_ref _ _);
      [ apply saved_commit | apply saved_same ].
  - injection H as <-.
    unfold moveLayerUp. destruct (find_ref _ _); [ | apply saved_same ].
    destruct (_ <? _); [ | apply saved_same ].
    destruct (at_index _ _); [ apply saved_commit | apply saved_same ].
  - injection H as <-.
    unfold moveLayerDown. destruct (find_ref _ _); [ | apply saved_same ].
    destruct (_ <? _); [ | apply saved_same ].
    destruct (at_index _ _); [ apply saved_commit | apply saved_same ].
  - injection H as <-. unfold moveLayerToFront. destruct (find_ref _ _);
      [ apply saved_commit | apply saved_same ].
  - injection H as <-. unfold moveLayerToBack. destruct (find_ref _ _);
      [ apply saved_commit | apply saved_same ].
  - destruct (importJSON _ sm) as [ret store] eqn:E.
    simpl in H. injection H as ->. now apply importJSON_saved in E.
Qed.

(** An unsaved change replaces the state and calls the listeners, or does
    nothing. *)
Lemma call_unsaved (op : Op) (sm sm' : StateManager.t) :
  unsaved op -> call op sm = Return (Typed sm') ->
  sm' = sm \/ exists st, sm' = notifyListeners (with_state st sm).
Proof.
  destruct op; simpl; try contradiction; intros _ H; injection H as <-.
  - right. now eexists.
  - unfold updateSpriteWithoutSnapshot. destruct (find_ref _ _); [ right | now left ].
    now eexists.
Qed.

(** ** A property of the state and of every state the history records *)

Section HistoryInvariant.
Variable P : EditorState -> Prop.

(** The entry is the text of a state with the property. *)
Definition snapshot_of (entry : JSONText) : Prop :=
  exists st, JSON_parse entry = Return (json_of_state st) /\ P st.

Definition throughout (sm : StateManager.t) : Prop :=
  P (state sm)
  /\ Forall snapshot_of (undoStack sm)
  /\ Forall snapshot_of (redoStack sm).

Lemma saveSnapshot_throughout (sm : StateManager.t) :
  throughout sm -> throughout (saveSnapshot sm).
Proof.
  intros (Hs & Hu & Hr). unfold saveSnapshot.
  destruct (top_differs _ _); [ | now split ].
  split; [ exact Hs | ]. simpl. split; [ | constructor ].
  assert (Hpushed : Forall snapshot_of
                      (push (undoStack sm) (JSON_stringify (json_of_state (state sm))))).
  { apply Forall_push; [ exact Hu | ]. now exists (state sm). }
  destruct (_ <? _)%nat; [ now apply Forall_tl | exact Hpushed ].
Qed.

Lemma saved_throughout (sm sm' : StateManager.t) :
  saved sm sm' -> throughout sm -> P (state sm') -> throughout sm'.
Proof.
  intros [ | st | ] (Hs & Hu & Hr) H'.
  - now split.
  - rewrite commit_state in H'.
    apply (saveSnapshot_throughout (sm := with_state st sm)). now split.
  - apply saveSnapshot_throughout. now split.
Qed.

Lemma unsaved_throughout (op : Op) (sm sm' : StateManager.t) :
  unsaved op -> call op sm = Return (Typed sm') ->
  throughout sm -> P (state sm') -> throughout sm'.
Proof.
  intros Hop Hcall (Hs & Hu & Hr) H'.
  destruct (call_unsaved op sm Hop Hcall) as [-> | [st ->]]; now split.
Qed.

(** [undo] and [redo] find a state with the property in the entry they
    parse, and install it. *)
Lemma undo_throughout (sm : StateManager.t) :
  throughout sm -> exists sm', undo sm = Return (Typed sm') /\ throughout sm'.
Proof.
  intros (Hs & Hu & Hr). unfold undo.
  destruct (length (undoStack sm) <=? 1)%nat eqn:Hlen.
  { exists sm. now repeat split. }
  destruct (undo_reads_in_range sm Hlen) as [Hcur Hprev].
  destruct (last_entry (undoStack sm)) as [current | ] eqn:Hcurrent; [ | congruence ].
  destruct (last_entry (removelast (undoStack sm))) as [previous | ] eqn:Hprevious;
    [ | congruence ].
  assert (Hp : snapshot_of previous).
  { apply last_entry_In in Hprevious.
    pose proof (Forall_removelast Hu) as H. rewrite Forall_forall in H. now apply H. }
  destruct Hp as [st0 [-> Hst0]]. cbn [bind].
  rewrite state_of_json_of_state.
  eexists. split; [ reflexivity | ]. split; [ exact Hst0 | ]. simpl. split.
  - now apply Forall_removelast.
  - apply Forall_push; [ exact Hr | ].
    apply last_entry_In in Hcurrent. rewrite Forall_forall in Hu. now apply Hu.
Qed.

Lemma redo_throughout (sm : StateManager.t) :
  throughout sm -> exists sm', redo sm = Return (Typed sm') /\ throughout sm'.
Proof.
  intros (Hs & Hu & Hr). unfold redo.
  destruct (last_entry (redoStack sm)) as [next | ] eqn:Hnext.
  2: { exists sm. now repeat split. }
  assert (Hn : snapshot_of next).
  { apply last_entry_In in Hnext. rewrite Forall_forall in Hr. now apply Hr. }
  destruct Hn as [st0 [Hparse Hst0]]. rewrite Hparse. cbn [bind].
  rewrite state_of_json_of_state.
  eexists. split; [ reflexivity | ]. split; [ exact Hst0 | ]. simpl. split.
  - apply Forall_push; [ exact Hu | ]. now exists st0.
  - now apply Forall_removelast.
Qed.

Lemma started_throughout (sm : StateManager.t) :
  Started sm -> P (state sm) -> throughout sm.
Proof.
  intros Hstarted Hp. destruct Hstarted as [storage loaded sm0 registered H].
  destruct (register_fields registered sm0) as (Hs & Hu & Hr & _).
  unfold throughout. rewrite Hs, Hu, Hr. rewrite Hs in Hp.
  change (throughout sm0).
  assert (Hfallback :
    forall sm1, (false, Typed {| state := state (constructor storage);
                                 undoStack := [JSON_stringify (json_of_state
                                                 (state (constructor storage)))];
                                 redoStack := []; listeners := [];
                                 notifications := 0;
                                 localStorage := storage |}) = (loaded, Typed sm1) ->
                P (state sm1) -> throughout sm1).
  { intros sm1 E Hd. injection E as _ <-. split; [ exact Hd | ]. simpl.
    split; [ | constructor ]. constructor; [ | constructor ].
    now exists (state (constructor storage)). }
  unfold loadFromLocalStorage in H. simpl in H.
  destruct (getItem storage) as [stored | ]; [ | now apply Hfallback ].
  destruct (JSON_parse stored) as [parsed | ] eqn:Hparse; [ | now apply Hfallback ].
  destruct (prop parsed "sprites") as [found | ]; [ | now apply Hfallback ].
  destruct (truthy found && Array_isArray found); [ | now apply Hfallback ].
  destruct (state_of_json parsed) as [st | ] eqn:Hst;
    [ | first [ discriminate | destruct (listener_throws _ _); discriminate ] ].
  injection H as _ <-. simpl in Hp. split; [ exact Hp | ]. simpl.
  split; [ | constructor ]. constructor; [ | constructor ].
  exists st. split; [ | exact Hp ].
  apply state_of_json_sound in Hst. congruence.
Qed.

(** The property holds throughout every manager reached from a start with
    the property by calls that keep it. *)
Lemma reachable_throughout (allowed : Op -> Prop) (start : StateManager.t -> Prop) :
  (forall sm, start sm -> Started sm /\ P (state sm)) ->
  (forall op sm sm', allowed op -> op <> Undo -> op <> Redo -> throughout sm ->
                     call op sm = Return (Typed sm') -> P (state sm')) ->
  forall sm, ReachableBy allowed start sm -> throughout sm.
Proof.
  intros Hstart Hstep sm. induction 1 as [ sm Hsm | op sm sm' _ IH Hop Hcall ].
  { destruct (Hstart sm Hsm). now apply started_throughout. }
  assert (Hother : op <> Undo -> op <> Redo -> throughout sm').
  { intros Hu Hr. pose proof (Hstep op sm sm' Hop Hu Hr IH Hcall) as H'.
    assert (Hdec : unsaved op \/ ~ unsaved op) by (destruct op; simpl; tauto).
    destruct Hdec as [Hun | Hsaved].
    - exact (@unsaved_throughout op sm sm' Hun Hcall IH H').
    - exact (saved_throughout (@call_saved op sm sm' Hu Hr Hsaved Hcall) IH H'). }
  destruct op; try (apply Hother; discriminate).
  - destruct (undo_throughout IH) as [sm1 [H1 H1']].
    simpl in Hcall. rewrite H1 in Hcall. now injection Hcall as <-.
  - destruct (redo_throughout IH) as [sm1 [H1 H1']].
    simpl in Hcall. rewrite H1 in Hcall. now injection Hcall as <-.
Qed.

End HistoryInvariant.

(** Every entry of a reachable manager's history is the text of a state. *)
Lemma reachable_history_typed (sm : StateManager.t) :
  Reachable sm -> throughout (fun _ => True) sm.
Proof.
  apply reachable_throughout.
  - intros sm0 H. now split.
  - trivial.
Qed.



(** ** Undo, redo and the last change *)

Lemma json_of_state_inj (a b : EditorState) : json_of_state a = json_of_state b -> a = b.
Proof.
  intros H. rewrite <- (state_view_json_of_state a), <- (state_view_json_of_state b).
  now rewrite H.
Qed.

Lemma canUndo_true (sm : StateManager.t) :
  canUndo sm = true -> (length (undoStack sm) <=? 1)%nat = false.
Proof.
  unfold canUndo. intros H. apply Nat.ltb_lt in H. apply Nat.leb_gt. exact H.
Qed.

(** X3.  On a reachable manager that can undo, [undo] followed by [redo]
    gives back both stacks as they were.  After the [undo] the state is the
    one recorded by the entry then on top, and a redo is possible; after the
    [redo] the state is the one recorded by the entry that was on top at the
    start, which is the state at the start whenever that state had been
    saved.  Neither call writes to [localStorage]. *)
Theorem undo_then_redo (sm : StateManager.t) :
  Reachable sm -> canUndo sm = true ->
  exists sm1 sm2 top previous,
    undo sm = Return (Typed sm1) /\ redo sm1 = Return (Typed sm2)
    /\ last_entry (undoStack sm) = Some top
    /\ last_entry (undoStack sm1) = Some previous
    /\ JSON_parse previous = Return (json_of_state (state sm1))
    /\ canRedo sm1 = true
    /\ JSON_parse top = Return (json_of_state (state sm2))
    /\ (JSON_parse top = Return (json_of_state (state sm)) -> state sm2 = state sm)
    /\ undoStack sm2 = undoStack sm /\ redoStack sm2 = redoStack sm
    /\ localStorage sm1 = localStorage sm /\ localStorage sm2 = localStorage sm.
Proof.
  intros Hreach Hcan. apply canUndo_true in Hcan.
  destruct (reachable_history_typed Hreach) as (_ & Hu & Hr).
  destruct (undo_reads_in_range sm Hcan) as [Hcur Hprev].
  destruct (last_entry (undoStack sm)) as [current | ] eqn:Hcurrent; [ | congruence ].
  destruct (last_entry (removelast (undoStack sm))) as [previous | ] eqn:Hprevious;
    [ | congruence ].
  assert (Hp : snapshot_of (fun _ => True) previous).
  { apply last_entry_In in Hprevious.
    pose proof (Forall_removelast Hu) as H. rewrite Forall_forall in H. now apply H. }
  assert (Hc : snapshot_of (fun _ => True) current).
  { apply last_entry_In in Hcurrent. rewrite Forall_forall in Hu. now apply Hu. }
  destruct Hp as [st0 [Hparse0 _]]. destruct Hc as [st1 [Hparse1 _]].
  eexists. eexists. exists current, previous.
  split.
  { unfold undo. rewrite Hcan, Hcurrent, Hprevious, Hparse0. cbn [bind].
    rewrite state_of_json_of_state. reflexivity. }
  split.
  { unfold redo. cbn [redoStack notifyListeners]. rewrite last_entry_push, Hparse1.
    cbn [bind]. rewrite state_of_json_of_state. reflexivity. }
  cbn [undoStack redoStack state localStorage notifyListeners].
  rewrite removelast_push, <- (push_unfold _ Hcurrent).
  repeat split; trivial.
  - unfold canRedo. cbn [redoStack notifyListeners]. rewrite length_push. reflexivity.
  - intros H. rewrite Hparse1 in H. apply json_of_state_inj. congruence.
Qed.

Lemma undo_then_redo_witness :
  let sm := snd (addSprite "star" 0 0 fresh) in
  exists sm1 sm2 top previous,
    undo sm = Return (Typed sm1) /\ redo sm1 = Return (Typed sm2)
    /\ last_entry (undoStack sm) = Some top
    /\ last_entry (undoStack sm1) = Some previous
    /\ JSON_parse previous = Return (json_of_state (state sm1))
    /\ canRedo sm1 = true
    /\ JSON_parse top = Return (json_of_state (state sm2))
    /\ (JSON_parse top = Return (json_of_state (state sm)) -> state sm2 = state sm)
    /\ undoStack sm2 = undoStack sm /\ redoStack sm2 = redoStack sm
    /\ localStorage sm1 = localStorage sm /\ localStorage sm2 = localStorage sm.
Proof.
  cbv zeta. apply undo_then_redo.
  - apply (@reach_call _ _ (AddSprite "star" 0 0) fresh);
      [ exact fresh_reachable | exact I | reflexivity ].
  - reflexivity.
Defined.

(** The undo stack after a snapshot has been pushed on a non-empty one. *)
Lemma bounded_push (u : list JSONText) (s : JSONText) :
  u <> [] ->
  bounded (push u s) = push (if (50 <=? length u)%nat then tl u else u) s.
Proof.
  intros Hne. unfold bounded. rewrite length_push.
  change (50 <? S (length u))%nat with (50 <=? length u)%nat.
  destruct (50 <=? length u)%nat; [ | reflexivity ].
  destruct u; [ contradiction | reflexivity ].
Qed.

Lemma last_entry_tl {A : Type} (l : list A) :
  (2 <= length l)%nat -> last_entry (tl l) = last_entry l.
Proof. destruct l as [ | a [ | b l ] ]; simpl; intros H; try lia. reflexivity. Qed.

Lemma last_entry_bounded_push (u : list JSONText) (s : JSONText) :
  last_entry (bounded (push u s)) = Some s.
Proof.
  destruct u as [ | a u ]; [ reflexivity | ].
  rewrite bounded_push by discriminate. apply last_entry_push.
Qed.

(** A call that has changed the undo stack has committed its state: the
    snapshot not being on top, it was pushed, the redo stack emptied and the
    text handed to the storage. *)
Lemma changed_stack_committed (op : Op) (sm sm1 : StateManager.t) :
  op <> Undo -> op <> Redo ->
  call op sm = Return (Typed sm1) -> undoStack sm1 <> undoStack sm ->
  undoStack sm1 = bounded (push (undoStack sm) (serialize (state sm1)))
  /\ last_entry (undoStack sm) <> Some (serialize (state sm1))
  /\ redoStack sm1 = []
  /\ localStorage sm1 = store_snapshot (serialize (state sm1)) (localStorage sm).
Proof.
  intros Hu Hr Hcall Hchanged.
  assert (Hsnapshot : forall sm0 : StateManager.t,
    undoStack (saveSnapshot sm0) <> undoStack sm0 ->
    undoStack (saveSnapshot sm0) = bounded (push (undoStack sm0) (serialize (state sm0)))
    /\ last_entry (undoStack sm0) <> Some (serialize (state sm0))
    /\ redoStack (saveSnapshot sm0) = []
    /\ localStorage (saveSnapshot sm0)
       = store_snapshot (serialize (state sm0)) (localStorage sm0)).
  { intros sm0. unfold saveSnapshot, serialize.
    destruct (top_differs _ _) eqn:E; [ | congruence ].
    apply top_differs_true in E. intros _. now repeat split. }
  assert (Hdec : unsaved op \/ ~ unsaved op) by (destruct op; simpl; tauto).
  destruct Hdec as [Hun | Hsaved].
  - destruct (call_unsaved op sm Hun Hcall) as [-> | [st ->]]; now contradiction Hchanged.
  - destruct (@call_saved op sm sm1 Hu Hr Hsaved Hcall) as [ | st | ].
    + now contradiction Hchanged.
    + rewrite commit_state. exact (Hsnapshot (with_state st sm) Hchanged).
    + rewrite saveSnapshot_state. exact (Hsnapshot sm Hchanged).
Qed.

(** An [undo] right after a call that has changed the undo stack installs
    the state recorded by the entry that was on top before the call. *)
Lemma undo_after_change (op : Op) (sm sm1 : StateManager.t) (top : JSONText)
    (st0 : EditorState) :
  op <> Undo -> op <> Redo ->
  call op sm = Return (Typed sm1) -> undoStack sm1 <> undoStack sm ->
  last_entry (undoStack sm) = Some top ->
  JSON_parse top = Return (json_of_state st0) ->
  exists sm2,
    undo sm1 = Return (Typed sm2)
    /\ state sm2 = st0
    /\ last_entry (undoStack sm2) = Some top
    /\ redoStack sm2 = [serialize (state sm1)]
    /\ canRedo sm2 = true.
Proof.
  intros Hu Hr Hcall Hchanged Htop Hparse.
  destruct (@changed_stack_committed op sm sm1 Hu Hr Hcall Hchanged)
    as (Hstack & _ & Hredo & _).
  assert (Hne : undoStack sm <> []) by (intros E; rewrite E in Htop; discriminate).
  rewrite (bounded_push _ Hne) in Hstack.
  set (kept := if (50 <=? length (undoStack sm))%nat then tl (undoStack sm)
               else undoStack sm) in Hstack.
  assert (Hkept : last_entry kept = Some top).
  { unfold kept. destruct (50 <=? length (undoStack sm))%nat eqn:E; [ | exact Htop ].
    apply Nat.leb_le in E. rewrite last_entry_tl by lia. exact Htop. }
  assert (Hlen : (length (undoStack sm1) <=? 1)%nat = false).
  { rewrite Hstack, length_push. apply Nat.leb_gt.
    destruct kept; [ discriminate | simpl; lia ]. }
  eexists. split.
  { unfold undo. rewrite Hlen, Hstack, last_entry_push, removelast_push, Hkept, Hparse.
    cbn [bind]. rewrite state_of_json_of_state. reflexivity. }
  cbn [state undoStack redoStack notifyListeners]. rewrite Hredo.
  repeat split; trivial.
Qed.

(** X4.  [undo] takes back the last change.  When a call other than [undo]
    and [redo] has changed the undo stack of a manager whose state was the
    one recorded on top of it, an [undo] right after restores that state; the
    state undone is the one entry of the redo stack. *)
Theorem undo_reverts_last_change (op : Op) (sm sm1 : StateManager.t) (top : JSONText) :
  op <> Undo -> op <> Redo ->
  call op sm = Return (Typed sm1) -> undoStack sm1 <> undoStack sm ->
  last_entry (undoStack sm) = Some top ->
  JSON_parse top = Return (json_of_state (state sm)) ->
  exists sm2,
    undo sm1 = Return (Typed sm2)
    /\ state sm2 = state sm
    /\ last_entry (undoStack sm2) = Some top
    /\ redoStack sm2 = [serialize (state sm1)]
    /\ canRedo sm2 = true.
Proof.
  intros Hu Hr Hcall Hchanged Htop Hparse.
  exact (@undo_after_change op sm sm1 top (state sm) Hu Hr Hcall Hchanged Htop Hparse).
Qed.

Lemma undo_reverts_last_change_witness :
  exists sm2,
    undo (snd (addSprite "star" 0 0 fresh)) = Return (Typed sm2)
    /\ state sm2 = state fresh
    /\ last_entry (undoStack sm2) = Some (serialize (state fresh))
    /\ redoStack sm2 = [serialize (state (snd (addSprite "star" 0 0 fresh)))]
    /\ canRedo sm2 = true.
Proof.
  apply (@undo_reverts_last_change (AddSprite "star" 0 0) fresh
           (snd (addSprite "star" 0 0 fresh)) (serialize (state fresh)));
    try discriminate; reflexivity.
Defined.

(* ===================================================================== *)
(** * The stored state: what a reload finds                              *)
(* ===================================================================== *)

(** A new manager loading the text of a state. *)
Lemma load_serialized (st : EditorState) (storage : Storage) :
  getItem storage = Some (serialize st) ->
  loadFromLocalStorage (constructor storage)
  = (true, Typed {| state := st; undoStack := [serialize st]; redoStack := [];
                    listeners := []; notifications := 1; localStorage := storage |}).
Proof.
  intros Hstored. unfold loadFromLocalStorage, serialize.
  cbn [localStorage constructor]. rewrite Hstored. unfold serialize.
  change (JSON_parse (JSON_stringify (json_of_state st))) with (Return (json_of_state st)).
  cbv iota beta.
  change (prop (json_of_state st) "sprites")
    with (Return (Val (JArr (map json_of_sprite (sprites st))))).
  cbv iota beta. simpl (truthy _ && Array_isArray _). cbv iota.
  now rewrite state_of_json_of_state.
Qed.

Lemma store_snapshot_accepted (snapshot : JSONText) (storage : Storage) :
  refuses storage snapshot = false ->
  getItem (store_snapshot snapshot storage) = Some snapshot.
Proof. intros H. unfold store_snapshot, setItem. now rewrite H. Qed.

Lemma store_snapshot_refused (snapshot : JSONText) (storage : Storage) :
  refuses storage snapshot = true -> store_snapshot snapshot storage = storage.
Proof. intros H. unfold store_snapshot, setItem. now rewrite H. Qed.

(** X5.  A change that has entered the history survives a reload when the
    browser has accepted the write.  When a call other than [undo] and
    [redo] has changed the undo stack and [setItem] does not throw on the
    text of the new state, the entry of [localStorage] is that text, and a
    new manager loading it returns [true] and holds exactly that state, with
    the text as the one entry of its undo stack, an empty redo stack, and the
    history not carried over.  When [setItem] throws, the storage is left as
    it was: the change is in the history and not in the storage. *)
Theorem committed_change_survives_reload (op : Op) (sm sm1 : StateManager.t) :
  op <> Undo -> op <> Redo ->
  call op sm = Return (Typed sm1) -> undoStack sm1 <> undoStack sm ->
  (refuses (localStorage sm) (serialize (state sm1)) = false ->
   getItem (localStorage sm1) = Some (serialize (state sm1))
   /\ loadFromLocalStorage (constructor (localStorage sm1))
      = (true, Typed {| state := state sm1;
                        undoStack := [serialize (state sm1)]; redoStack := [];
                        listeners := []; notifications := 1;
                        localStorage := localStorage sm1 |}))
  /\ (refuses (localStorage sm) (serialize (state sm1)) = true ->
      localStorage sm1 = localStorage sm).
Proof.
  intros Hu Hr Hcall Hchanged.
  destruct (@changed_stack_committed op sm sm1 Hu Hr Hcall Hchanged)
    as (_ & _ & _ & Hstored).
  split; intros Hwrite.
  - assert (Hentry : getItem (localStorage sm1) = Some (serialize (state sm1)))
      by (rewrite Hstored; now apply store_snapshot_accepted).
    split; [ exact Hentry | ]. now apply load_serialized.
  - rewrite Hstored. now apply store_snapshot_refused.
Qed.

(** A browser whose storage is full, and the manager of a first run
    there. *)
Definition full_storage : Storage := {| entry := None; refuses := fun _ => true |}.

Definition fresh_without_storage : StateManager.t :=
  {| state := state fresh; undoStack := undoStack fresh; redoStack := [];
     listeners := []; notifications := 0; localStorage := full_storage |}.

Lemma committed_change_survives_reload_witness :
  (let sm1 := snd (addSprite "star" 0 0 fresh) in
   getItem (localStorage sm1) = Some (serialize (state sm1))
   /\ loadFromLocalStorage (constructor (localStorage sm1))
      = (true, Typed {| state := state sm1;
                        undoStack := [serialize (state sm1)]; redoStack := [];
                        listeners := []; notifications := 1;
                        localStorage := localStorage sm1 |}))
  /\ localStorage (snd (addSprite "star" 0 0 fresh_without_storage)) = full_storage.
Proof.
  split.
  - cbv zeta.
    apply (@committed_change_survives_reload (AddSprite "star" 0 0) fresh);
      try discriminate; reflexivity.
  - apply (@committed_change_survives_reload (AddSprite "star" 0 0)
             fresh_without_storage);
      try discriminate; reflexivity.
Defined.

(** The entry of [localStorage] a manager can load: JSON text of an object
    with an array under [sprites]. *)
Definition loadable (storage : option JSONText) : bool :=
  match storage with
  | Some stored => full_state_input stored
  | None => false
  end.

(** X6.  [loadFromLocalStorage] returns [true] when the stored entry is the
    text of an object with an array under [sprites], unless a listener
    throws on a stored state that is outside the declared types (no listener
    is registered when the editor loads).  In every other case (no entry,
    text that does not parse, [null], an array, an object without such a
    member) it returns [false], leaves the state, the redo stack and the
    entry alone, calls no listener, and makes the snapshot of the current
    state the one entry of the undo stack. *)
Theorem loadFromLocalStorage_fallback (sm : StateManager.t) :
  (loadable (getItem (localStorage sm)) = false ->
     loadFromLocalStorage sm
     = (false, Typed {| state := state sm; undoStack := [serialize (state sm)];
                        redoStack := redoStack sm; listeners := listeners sm;
                        notifications := notifications sm;
                        localStorage := localStorage sm |}))
  /\ (loadable (getItem (localStorage sm)) = true ->
      fst (loadFromLocalStorage sm) = true
      \/ exists j, listener_throws sm (UntypedState j) = true
                   /\ loadFromLocalStorage sm = (false, StateOutsideTypes j)).
Proof.
  unfold loadable, full_state_input, loadFromLocalStorage, serialize.
  destruct (getItem (localStorage sm)) as [stored | ];
    [ | split; [ reflexivity | discriminate ] ].
  destruct (JSON_parse stored) as [ [ | b | r | s | items | props ] | ];
    simpl; try (split; [ reflexivity | discriminate ]).
  destruct (lookup "sprites" props) as [ | [ | b | r | s | items | props' ] ];
    simpl; rewrite ?andb_false_r; try (split; [ reflexivity | discriminate ]).
  split; [ discriminate | ]. intros _.
  destruct (state_of_json (JObj props)); [ now left | ].
  destruct (listener_throws sm (UntypedState (JObj props))) eqn:Hthrows;
    [ right | now left ].
  exists (JObj props). now split.
Qed.

Lemma loadFromLocalStorage_fallback_witness :
  loadFromLocalStorage (constructor (accepting (Some (NotJSON "{sprites"))))
  = (false, Typed {| state := state (constructor (accepting None));
                     undoStack := [serialize (state (constructor (accepting None)))];
                     redoStack := []; listeners := []; notifications := 0;
                     localStorage := accepting (Some (NotJSON "{sprites")) |})
  /\ fst (loadFromLocalStorage
            (constructor (accepting (Some (serialize (state two_sprites)))))) = true.
Proof.
  split.
  - now apply (loadFromLocalStorage_fallback
                 (constructor (accepting (Some (NotJSON "{sprites"))))).
  - destruct (proj2 (loadFromLocalStorage_fallback
                      (constructor (accepting (Some (serialize (state two_sprites))))))
                eq_refl) as [Hloaded | [j [Hthrows _]]];
      [ exact Hloaded | discriminate Hthrows ].
Defined.

(** ** The top of the undo stack records the state *)

Definition recorded_on_top (sm : StateManager.t) : Prop :=
  exists top, last_entry (undoStack sm) = Some top
              /\ JSON_parse top = Return (json_of_state (state sm)).

Lemma saveSnapshot_recorded (sm : StateManager.t) : recorded_on_top (saveSnapshot sm).
Proof.
  unfold recorded_on_top, saveSnapshot.
  destruct (top_differs _ _) eqn:E.
  - exists (JSON_stringify (json_of_state (state sm))). split; [ | reflexivity ].
    apply last_entry_bounded_push.
  - apply top_differs_false in E. eexists. split; [ exact E | reflexivity ].
Qed.

Lemma saved_recorded (sm sm' : StateManager.t) :
  saved sm sm' -> recorded_on_top sm -> recorded_on_top sm'.
Proof.
  intros [ | st | ] H.
  - exact H.
  - exact (saveSnapshot_recorded (with_state st sm)).
  - apply saveSnapshot_recorded.
Qed.

Lemma started_recorded (sm : StateManager.t) : Started sm -> recorded_on_top sm.
Proof.
  intros [storage loaded sm0 registered H].
  destruct (register_fields registered sm0) as (Hs & Hu & _).
  unfold recorded_on_top. rewrite Hs, Hu. change (recorded_on_top sm0).
  unfold loadFromLocalStorage in H. simpl in H.
  assert (Hfallback :
    forall sm1, (false, Typed {| state := state (constructor storage);
                                 undoStack := [JSON_stringify (json_of_state
                                                 (state (constructor storage)))];
                                 redoStack := []; listeners := [];
                                 notifications := 0;
                                 localStorage := storage |}) = (loaded, Typed sm1) ->
                recorded_on_top sm1).
  { intros sm1 E. injection E as _ <-. now eexists. }
  destruct (getItem storage) as [stored | ]; [ | now apply Hfallback ].
  destruct (JSON_parse stored) as [parsed | ] eqn:Hparse; [ | now apply Hfallback ].
  destruct (prop parsed "sprites") as [found | ]; [ | now apply Hfallback ].
  destruct (truthy found && Array_isArray found); [ | now apply Hfallback ].
  destruct (state_of_json parsed) as [st | ] eqn:Hst;
    [ | first [ discriminate | destruct (listener_throws _ _); discriminate ] ].
  injection H as _ <-. exists stored. split; [ reflexivity | ]. simpl.
  apply state_of_json_sound in Hst. congruence.
Qed.

Lemma undo_recorded (sm sm' : StateManager.t) :
  recorded_on_top sm -> undo sm = Return (Typed sm') -> recorded_on_top sm'.
Proof.
  intros Hsm. unfold undo.
  destruct (_ <=? _)%nat.
  { intros H. now injection H as <-. }
  destruct (last_entry (undoStack sm)) as [current | ].
  2: { intros H. now injection H as <-. }
  destruct (last_entry (removelast (undoStack sm))) as [previous | ] eqn:Hprevious;
    [ | discriminate ].
  destruct (JSON_parse previous) as [parsed | ] eqn:Hparse; cbn [bind]; [ | discriminate ].
  destruct (state_of_json parsed) as [st | ] eqn:Hst;
    [ | first [ discriminate | destruct (listener_throws _ _); discriminate ] ].
  intros H. injection H as <-. exists previous. split; [ exact Hprevious | ]. simpl.
  apply state_of_json_sound in Hst. congruence.
Qed.

Lemma redo_recorded (sm sm' : StateManager.t) :
  recorded_on_top sm -> redo sm = Return (Typed sm') -> recorded_on_top sm'.
Proof.
  intros Hsm. unfold redo.
  destruct (last_entry (redoStack sm)) as [next | ].
  2: { intros H. now injection H as <-. }
  destruct (JSON_parse next) as [parsed | ] eqn:Hparse; cbn [bind]; [ | discriminate ].
  destruct (state_of_json parsed) as [st | ] eqn:Hst;
    [ | first [ discriminate | destruct (listener_throws _ _); discriminate ] ].
  intros H. injection H as <-. exists next. split; [ apply last_entry_push | ]. simpl.
  apply state_of_json_sound in Hst. congruence.
Qed.

(** Between drags the property is kept: it holds along every sequence of
    calls from a start that has none of the two calls that leave the
    snapshot to a later [finalizeChanges]. *)
Lemma recorded_between_drags (sm : StateManager.t) :
  ReachableBy (fun op => ~ unsaved op) Started sm -> recorded_on_top sm.
Proof.
  induction 1 as [ sm Hstart | op sm sm' _ IH Hop Hcall ].
  { now apply started_recorded. }
  assert (Hother : op <> Undo -> op <> Redo -> recorded_on_top sm').
  { intros Hu Hr. exact (saved_recorded (@call_saved op sm sm' Hu Hr Hop Hcall) IH). }
  destruct op; try (apply Hother; discriminate).
  - exact (undo_recorded IH Hcall).
  - exact (redo_recorded IH Hcall).
Qed.

(** A call that takes a snapshot leaves the state recorded, whatever the
    manager was; the others, [undo] and [redo] included, leave the manager
    as it was or the state recorded. *)
Lemma saved_settles (sm sm' : StateManager.t) :
  saved sm sm' -> sm' = sm \/ recorded_on_top sm'.
Proof.
  intros [ | st | ].
  - now left.
  - right. exact (saveSnapshot_recorded (with_state st sm)).
  - right. apply saveSnapshot_recorded.
Qed.

Lemma undo_settles (sm sm' : StateManager.t) :
  undo sm = Return (Typed sm') -> sm' = sm \/ recorded_on_top sm'.
Proof.
  unfold undo.
  destruct (_ <=? _)%nat.
  { intros H. injection H as <-. now left. }
  destruct (last_entry (undoStack sm)) as [current | ].
  2: { intros H. injection H as <-. now left. }
  destruct (last_entry (removelast (undoStack sm))) as [previous | ] eqn:Hprevious;
    [ | discriminate ].
  destruct (JSON_parse previous) as [parsed | ] eqn:Hparse; cbn [bind]; [ | discriminate ].
  destruct (state_of_json parsed) as [st | ] eqn:Hst;
    [ | first [ discriminate | destruct (listener_throws _ _); discriminate ] ].
  intros H. injection H as <-. right. exists previous. split; [ exact Hprevious | ].
  simpl. apply state_of_json_sound in Hst. congruence.
Qed.

Lemma redo_settles (sm sm' : StateManager.t) :
  redo sm = Return (Typed sm') -> sm' = sm \/ recorded_on_top sm'.
Proof.
  unfold redo.
  destruct (last_entry (redoStack sm)) as [next | ].
  2: { intros H. injection H as <-. now left. }
  destruct (JSON_parse next) as [parsed | ] eqn:Hparse; cbn [bind]; [ | discriminate ].
  destruct (state_of_json parsed) as [st | ] eqn:Hst;
    [ | first [ discriminate | destruct (listener_throws _ _); discriminate ] ].
  intros H. injection H as <-. right. exists next. split; [ apply last_entry_push | ].
  simpl. apply state_of_json_sound in Hst. congruence.
Qed.

(** X7.  The entry on top of the undo stack is the text of the current
    state, but for the changes that [setState] and
    [updateSpriteWithoutSnapshot] leave without a snapshot.  Every other
    call, from any manager, leaves the manager exactly as it was or the
    state recorded on top; so it keeps the state recorded where it was, and
    [finalizeChanges] leaves it recorded whatever came before, as at the end
    of a drag.  The state is recorded once the editor has loaded. *)
Theorem top_of_undo_stack_records_state (op : Op) (sm sm' : StateManager.t) :
  ~ unsaved op -> call op sm = Return (Typed sm') ->
  (sm' = sm \/ recorded_on_top sm')
  /\ (recorded_on_top sm -> recorded_on_top sm')
  /\ (op = FinalizeChanges -> recorded_on_top sm')
  /\ (forall start, Started start -> recorded_on_top start).
Proof.
  intros Hop Hcall.
  assert (Hsettles : sm' = sm \/ recorded_on_top sm').
  { assert (Hother : op <> Undo -> op <> Redo -> sm' = sm \/ recorded_on_top sm').
    { intros Hu Hr. exact (saved_settles (@call_saved op sm sm' Hu Hr Hop Hcall)). }
    destruct op; try (apply Hother; discriminate).
    - exact (undo_settles _ Hcall).
    - exact (redo_settles _ Hcall). }
  split; [ exact Hsettles | ]. split; [ | split ].
  - intros Hsm. destruct Hsettles as [-> | H]; assumption.
  - intros ->. simpl in Hcall. injection Hcall as <-. apply saveSnapshot_recorded.
  - exact started_recorded.
Qed.

(** The star of [two_sprites] moved as by a drag, with no snapshot taken. *)
Definition star_moved : StateManager.t :=
  updateSpriteWithoutSnapshot "sprite-1" (Gizmo.position_updates 5 5) two_sprites.

Lemma top_of_undo_stack_records_state_witness :
  recorded_on_top (finalizeChanges star_moved)
  /\ (recorded_on_top (snd (addSprite "star" 0 0 fresh)) ->
      recorded_on_top (moveLayerUp "sprite-1" (snd (addSprite "star" 0 0 fresh)))).
Proof.
  split.
  - assert (Hop : ~ unsaved FinalizeChanges) by (simpl; tauto).
    exact (proj1 (proj2 (proj2
             (@top_of_undo_stack_records_state FinalizeChanges star_moved
                (finalizeChanges star_moved) Hop eq_refl))) eq_refl).
  - assert (Hop : ~ unsaved (MoveLayerUp "sprite-1")) by (simpl; tauto).
    exact (proj1 (proj2
             (@top_of_undo_stack_records_state (MoveLayerUp "sprite-1")
                (snd (addSprite "star" 0 0 fresh))
                (moveLayerUp "sprite-1" (snd (addSprite "star" 0 0 fresh)))
                Hop eq_refl))).
Defined.

(* ===================================================================== *)
(** * Sprite ids                                                         *)
(* ===================================================================== *)

(** ** [`sprite-${n}`] tells the numbers apart *)

Lemma String_of_int_inj (m n : Z) : String_of_int m = String_of_int n -> m = n.
Proof.
  unfold String_of_int. intros H. apply DecimalZ.to_int_inj.
  assert (Hback : forall z, NilZero.int_of_string (NilZero.string_of_int (Z.to_int z))
                            = Some (Z.to_int z)).
  { intros z. apply NilZero.isi; destruct z; simpl; try discriminate;
      intros E; injection E as E; now apply DecimalPos.Unsigned.to_uint_nonnil in E. }
  pose proof (Hback m) as Hm. rewrite H, Hback in Hm. now injection Hm as <-.
Qed.

Lemma sprite_id_inj (m n : Z) : sprite_id m = sprite_id n -> m = n.
Proof.
  unfold sprite_id. simpl. intros H. injection H as H. now apply String_of_int_inj.
Qed.

Lemma sprite_id_nonempty (n : Z) : sprite_id n <> "".
Proof. unfold sprite_id. simpl. discriminate. Qed.

(** ** The ids of a state *)

(** An id the manager has handed out: [sprite-k] for a [k] below [nextId]. *)
Definition issued_below (n : Z) (i : string) : Prop :=
  exists k, i = sprite_id k /\ k < n.

(** Every sprite carries an id handed out by the manager, and no two carry
    the same. *)
Definition ids_issued (st : EditorState) : Prop :=
  NoDup (map id (sprites st))
  /\ Forall (issued_below (nextId st)) (map id (sprites st)).

(** The calls that take ids from nowhere but the manager's counter. *)
Definition keeps_ids (op : Op) : Prop :=
  match op with
  | SetState _ => False
  | UpdateSprite _ updates => new_id updates = None
  | UpdateSpriteWithoutSnapshot _ updates => new_id updates = None
  | ImportJSON json => full_state_input json = false
  | _ => True
  end.

Lemma restamped_ids (arr arr' : list SpriteObject) :
  restamped arr arr' -> map id arr' = map id arr.
Proof.
  induction 1 as [ | s s' arr arr' Hs _ IH ]; simpl; [ reflexivity | ].
  rewrite IH, Hs. reflexivity.
Qed.

Lemma same_ids (st st' : EditorState) :
  map id (sprites st') = map id (sprites st) -> nextId st' = nextId st ->
  ids_issued st -> ids_issued st'.
Proof. unfold ids_issued. intros -> ->. trivial. Qed.

(** Removing sprites keeps the ids that stay distinct and issued. *)
Lemma filtered_ids_NoDup (keep : SpriteObject -> bool) (arr : list SpriteObject) :
  NoDup (map id arr) -> NoDup (map id (filter keep arr)).
Proof.
  induction arr as [ | s arr IH ]; simpl; [ trivial | ].
  intros H. inversion H as [ | ? ? Hnotin Hrest ]. subst.
  destruct (keep s); simpl; [ | now apply IH ].
  constructor; [ | now apply IH ].
  intros Hin. apply Hnotin. apply in_map_iff in Hin. destruct Hin as [b [Hb Hin]].
  apply filter_In in Hin. apply in_map_iff. exists b. tauto.
Qed.

Lemma filtered_ids_issued (n : Z) (keep : SpriteObject -> bool) (arr : list SpriteObject) :
  Forall (issued_below n) (map id arr) ->
  Forall (issued_below n) (map id (filter keep arr)).
Proof.
  induction arr as [ | s arr IH ]; simpl; [ trivial | ].
  intros H. inversion H. subst. destruct (keep s); simpl; [ constructor | ]; auto.
Qed.

Lemma issued_below_le (m n : Z) (i : string) :
  m <= n -> issued_below m i -> issued_below n i.
Proof. intros Hle [k [-> Hk]]. exists k. split; [ reflexivity | lia ]. Qed.

Lemma added_ids (st : EditorState) (s : SpriteObject) :
  ids_issued st -> id s = sprite_id (nextId st) ->
  ids_issued (with_selectedId (Some (id s))
                (with_sprites (push (sprites (with_nextId (nextId st + 1) st)) s)
                   (with_nextId (nextId st + 1) st))).
Proof.
  intros [Hnodup Hissued] Hs. unfold ids_issued, push. simpl.
  rewrite map_app. simpl. split.
  - apply NoDup_app; [ exact Hnodup | repeat constructor; intros [] | ].
    intros i Hi [<- | []]. rewrite Forall_forall in Hissued.
    destruct (Hissued _ Hi) as [k [Hk Hlt]]. rewrite Hs in Hk.
    apply sprite_id_inj in Hk. lia.
  - apply Forall_app. split.
    + eapply Forall_impl; [ | exact Hissued ]. intros i. apply issued_below_le. lia.
    + repeat constructor. exists (nextId st). split; [ exact Hs | lia ].
Qed.

(** The ids [importJSON] gives the elements of an array. *)
Lemma import_sprite_id (n : Z) (sprite : json) (index : Z) (raw : RawSprite) :
  import_sprite n sprite index = Return raw -> raw_id raw = sprite_id (n + index).
Proof.
  destruct sprite; simpl; intros H; try discriminate H; now injection H as <-.
Qed.

Lemma imported_ids (n : Z) (items : list json) (start : nat) (raws : list RawSprite) :
  map_indexed (Z.of_nat start) (import_sprite n) items = Return raws ->
  map raw_id raws
  = map (fun k => sprite_id (n + Z.of_nat k)) (seq start (length raws)).
Proof.
  revert start raws. induction items as [ | j items IH ]; intros start raws; simpl.
  - intros H. now injection H as <-.
  - destruct (import_sprite n j (Z.of_nat start)) as [raw | ] eqn:Hraw; simpl;
      [ | discriminate ].
    replace (Z.of_nat start + 1) with (Z.of_nat (S start)) by lia.
    destruct (map_indexed (Z.of_nat (S start)) (import_sprite n) items) as [rest | ] eqn:Hrest;
      simpl; [ | discriminate ].
    intros H. injection H as <-. simpl. f_equal.
    + now apply import_sprite_id in Hraw.
    + now apply IH.
Qed.

Lemma typed_sprites_id (raws : list RawSprite) (l : list SpriteObject) :
  typed_sprites raws = Some l -> map id l = map raw_id raws.
Proof.
  revert l. induction raws as [ | raw raws IH ]; intros l; simpl.
  - intros H. now injection H as <-.
  - destruct (typed_sprite raw) as [s | ] eqn:Hs; [ | discriminate ].
    destruct (typed_sprites raws) as [rest | ]; [ | discriminate ].
    intros H. injection H as <-. simpl. f_equal; [ | now apply IH ].
    unfold typed_sprite in Hs.
    destruct (raw_emoji raw) as [ | [ | | | | | ] ]; try discriminate Hs.
    destruct (raw_x raw) as [ | [ | | | | | ] ]; try discriminate Hs.
    destruct (raw_y raw) as [ | [ | | | | | ] ]; try discriminate Hs.
    destruct (raw_rotation raw) as [ | [ | | | | | ] ]; try discriminate Hs.
    destruct (raw_scaleX raw) as [ | [ | | | | | ] ]; try discriminate Hs.
    destruct (raw_scaleY raw) as [ | [ | | | | | ] ]; try discriminate Hs.
    now injection Hs as <-.
Qed.

Lemma imported_ids_issued (st : EditorState) (items : list json) (raws : list RawSprite)
    (l : list SpriteObject) :
  map_indexed 0 (import_sprite (nextId st)) items = Return raws ->
  typed_sprites raws = Some l ->
  ids_issued (with_selectedId None
                (with_nextId (nextId (with_sprites l st) + Z.of_nat (length l))
                   (with_sprites l st))).
Proof.
  intros Hraws Hl. unfold ids_issued. simpl.
  change 0 with (Z.of_nat 0) in Hraws.
  rewrite (typed_sprites_id _ Hl), (imported_ids _ _ _ Hraws), (typed_sprites_length _ Hl).
  split.
  - apply Finite.Injective_map_NoDup; [ | apply seq_NoDup ].
    intros a b H. apply sprite_id_inj in H. lia.
  - apply Forall_forall. intros i Hi. apply in_map_iff in Hi.
    destruct Hi as [k [<- Hk]]. apply in_seq in Hk.
    exists (nextId st + Z.of_nat k). split; [ reflexivity | lia ].
Qed.

Lemma importJSON_ids (json : JSONText) (sm sm' : StateManager.t) :
  keeps_ids (ImportJSON json) -> ids_issued (state sm) ->
  snd (importJSON json sm) = Typed sm' -> ids_issued (state sm').
Proof.
  unfold keeps_ids, full_state_input, importJSON. intros Hkeeps Hsm.
  destruct (JSON_parse json) as [imported | ]; simpl.
  2: { intros H. now injection H as <-. }
  destruct imported as [ | b | r | s | items | props ]; simpl;
    try (intros H; now injection H as <-).
  - destruct (map_indexed 0 _ items) as [raws | ] eqn:Hraws; simpl.
    2: { intros H. now injection H as <-. }
    destruct (typed_sprites raws) as [l | ] eqn:Hl; simpl; [ | discriminate ].
    intros H. injection H as <-. rewrite commit_state. cbn [state with_state].
    exact (imported_ids_issued (state sm) _ Hraws Hl).
  - rewrite Hkeeps, andb_false_r. intros H. now injection H as <-.
Qed.

Lemma exchanged_ids (i : string) (arr arr' : list SpriteObject) :
  exchanged i arr arr' -> map id arr' = map id arr.
Proof. intros H. apply restamped_ids. now apply exchanged_restacks in H. Qed.

(** Each of these calls leaves ids that the manager has issued. *)
Lemma call_keeps_ids (op : Op) (sm sm' : StateManager.t) :
  keeps_ids op -> op <> Undo -> op <> Redo -> ids_issued (state sm) ->
  call op sm = Return (Typed sm') -> ids_issued (state sm').
Proof.
  intros Hkeeps Hu Hr Hsm Hcall.
  destruct op; simpl in Hcall, Hkeeps; try contradiction; try congruence;
    try (injection Hcall as <-).
  - (* addSprite *)
    unfold addSprite. cbn [snd]. rewrite commit_state. cbn [state with_state].
    now apply added_ids.
  - (* updateSprite *)
    unfold updateSprite. destruct (find_ref _ _); [ | exact Hsm ].
    rewrite commit_state. cbn [state with_state]. apply (same_ids (st := state sm)); trivial.
    simpl. apply map_modify_at. intros s. simpl. now rewrite Hkeeps.
  - (* updateSpriteWithoutSnapshot *)
    unfold updateSpriteWithoutSnapshot. destruct (find_ref _ _); [ | exact Hsm ].
    cbn [state notifyListeners with_state]. apply (same_ids (st := state sm)); trivial.
    simpl. apply map_modify_at. intros s. simpl. now rewrite Hkeeps.
  - (* finalizeChanges *)
    unfold finalizeChanges. now rewrite saveSnapshot_state.
  - (* deleteSprite *)
    destruct Hsm as [Hnodup Hissued]. unfold ids_issued.
    rewrite deleteSprite_sprites, (restamped_ids (reindexZOrder_restamped _)).
    unfold deleteSprite. rewrite commit_state. cbn [state with_state].
    assert (Hnext : forall st0 : EditorState,
              nextId (with_sprites (reindexZOrder (sprites st0)) st0) = nextId st0)
      by reflexivity.
    rewrite Hnext.
    assert (Hnext' : nextId (if selected_is i (selectedId
                        (with_sprites (filter (fun s => negb (has_id i s))
                                         (sprites (state sm))) (state sm)))
                      then with_selectedId None
                             (with_sprites (filter (fun s => negb (has_id i s))
                                              (sprites (state sm))) (state sm))
                      else with_sprites (filter (fun s => negb (has_id i s))
                                           (sprites (state sm))) (state sm))
                     = nextId (state sm)).
    { now destruct (selected_is _ _). }
    rewrite Hnext'. split; [ now apply filtered_ids_NoDup | now apply filtered_ids_issued ].
  - (* clearAll *)
    unfold clearAll. rewrite commit_state. cbn [state with_state].
    split; simpl; constructor.
  - unfold selectSprite. rewrite commit_state. exact Hsm.
  - unfold setShowOrigin. rewrite commit_state. exact Hsm.
  - unfold setAxesOnTop. rewrite commit_state. exact Hsm.
  - unfold setBorderOnTop. rewrite commit_state. exact Hsm.
  - unfold setCustomFontInput. rewrite commit_state. exact Hsm.
  - (* moveLayerUp *)
    pose proof (exchanged_ids (moveLayerUp_sprites i sm)) as Hids.
    apply (same_ids (st := state sm)); trivial.
    unfold moveLayerUp. destruct (find_ref _ _); [ | reflexivity ].
    destruct (_ <? _); [ | reflexivity ].
    destruct (at_index _ _); [ | reflexivity ]. now rewrite commit_state.
  - (* moveLayerDown *)
    pose proof (exchanged_ids (moveLayerDown_sprites i sm)) as Hids.
    apply (same_ids (st := state sm)); trivial.
    unfold moveLayerDown. destruct (find_ref _ _); [ | reflexivity ].
    destruct (_ <? _); [ | reflexivity ].
    destruct (at_index _ _); [ | reflexivity ]. now rewrite commit_state.
  - (* moveLayerToFront *)
    apply (same_ids (st := state sm)); trivial.
    + rewrite moveLayerToFront_sprites. cbv zeta.
      destruct (find_ref _ _) as [p | ]; [ | reflexivity ].
      apply restamped_ids. apply (write_reindex_restacks p _ (sprites (state sm))).
    + unfold moveLayerToFront. destruct (find_ref _ _); [ | reflexivity ].
      now rewrite commit_state.
  - (* moveLayerToBack *)
    apply (same_ids (st := state sm)); trivial.
    + rewrite moveLayerToBack_sprites. cbv zeta.
      destruct (find_ref _ _) as [p | ]; [ | reflexivity ].
      apply restamped_ids. apply (write_reindex_restacks p _ (sprites (state sm))).
    + unfold moveLayerToBack. destruct (find_ref _ _); [ | reflexivity ].
      now rewrite commit_state.
  - (* importJSON *)
    injection Hcall as Hcall. eapply importJSON_ids; eassumption.
Qed.

(** Under unique ids, an id finds the sprite that carries it. *)
Lemma unique_id_finds (arr : list SpriteObject) (s : SpriteObject) :
  NoDup (map id arr) -> In s arr -> find (has_id (id s)) arr = Some s.
Proof.
  induction arr as [ | a arr IH ]; simpl; [ tauto | ].
  intros Hnodup Hin. inversion Hnodup as [ | ? ? Hnotin Hrest ]. subst.
  unfold has_id at 1. destruct (String.eqb (id a) (id s)) eqn:E.
  - destruct Hin as [-> | Hin]; [ reflexivity | ].
    apply String.eqb_eq in E. exfalso. apply Hnotin. rewrite E. now apply in_map.
  - destruct Hin as [-> | Hin]; [ now rewrite String.eqb_refl in E | ]. now apply IH.
Qed.

(** A first run, or a stored state whose ids are in order. *)
Definition IdsStart (sm : StateManager.t) : Prop :=
  Started sm /\ ids_issued (state sm).

(** X8.  Sprite ids stay unique.  From a first run, or a stored state whose
    sprites carry distinct ids of the form [sprite-k] with [k] below
    [nextId], every call that takes ids from the manager's counter only
    (all but [setState], an import of a full state object, and an update that
    carries an [id]) leaves such a state; undo and redo included.  In such a
    state an id finds the one sprite that carries it, so a call addressed to
    an id reaches that sprite and no other. *)
Theorem sprite_ids_stay_unique (sm : StateManager.t) :
  ReachableBy keeps_ids IdsStart sm ->
  ids_issued (state sm)
  /\ forall s, In s (sprites (state sm)) ->
               find (has_id (id s)) (sprites (state sm)) = Some s.
Proof.
  intros H.
  assert (Hids : throughout ids_issued sm).
  { revert sm H. apply reachable_throughout.
    - intros sm0 H0. exact H0.
    - intros op sm0 sm' Hop Hu Hr Ht Hcall.
      exact (@call_keeps_ids op sm0 sm' Hop Hu Hr (proj1 Ht) Hcall). }
  destruct Hids as [Hstate _]. split; [ exact Hstate | ].
  intros s Hs. apply unique_id_finds; [ apply Hstate | exact Hs ].
Qed.

Lemma sprite_ids_stay_unique_witness :
  let sm := snd (addSprite "moon" 1 2 (snd (addSprite "star" 0 0 fresh))) in
  ids_issued (state sm)
  /\ forall s, In s (sprites (state sm)) ->
               find (has_id (id s)) (sprites (state sm)) = Some s.
Proof.
  cbv zeta. apply sprite_ids_stay_unique.
  apply (@reach_call _ _ (AddSprite "moon" 1 2) (snd (addSprite "star" 0 0 fresh)));
    [ | exact I | reflexivity ].
  apply (@reach_call _ _ (AddSprite "star" 0 0) fresh); [ | exact I | reflexivity ].
  apply reach_start. split; [ exact fresh_started | ].
  split; simpl; constructor.
Defined.

(* ===================================================================== *)
(** * Adding sprites: [addSprite] and its callers in main.ts             *)
(* ===================================================================== *)

Lemma find_ref_push_fresh {A : Type} (p : A -> bool) (l : list A) (a : A) :
  (forall b, In b l -> p b = false) -> p a = true ->
  find_ref p (push l a) = Some (length l).
Proof.
  unfold push. intros Hl Ha. induction l as [ | b l IH ]; simpl.
  - now rewrite Ha.
  - rewrite (Hl b) by now left. rewrite IH; [ reflexivity | ].
    intros c Hc. apply Hl. now right.
Qed.

Lemma find_push_fresh {A : Type} (p : A -> bool) (l : list A) (a : A) :
  (forall b, In b l -> p b = false) -> p a = true ->
  find p (push l a) = Some a.
Proof.
  unfold push. intros Hl Ha. induction l as [ | b l IH ]; simpl.
  - now rewrite Ha.
  - rewrite (Hl b) by now left. apply IH. intros c Hc. apply Hl. now right.
Qed.

Lemma modify_at_push {A : Type} (f : A -> A) (l : list A) (a : A) :
  modify_at (length l) f (push l a) = push l (f a).
Proof.
  unfold push. induction l as [ | b l IH ]; simpl; [ reflexivity | ]. now rewrite IH.
Qed.

(** No sprite of a state with issued ids carries the id issued next. *)
Lemma next_id_is_fresh (st : EditorState) (s : SpriteObject) :
  ids_issued st -> In s (sprites st) -> has_id (sprite_id (nextId st)) s = false.
Proof.
  intros [_ Hissued] Hs. unfold has_id. apply String.eqb_neq. intros E.
  rewrite Forall_forall in Hissued.
  destruct (Hissued (id s) (in_map id _ _ Hs)) as [k [Hk Hlt]].
  rewrite E in Hk. apply sprite_id_inj in Hk. lia.
Qed.

Lemma dense_below_length (arr : list SpriteObject) (s : SpriteObject) :
  dense arr -> In s arr -> 0 <= zIndex s < Z.of_nat (length arr).
Proof.
  intros Hdense Hs.
  assert (Hin : In (zIndex s) (map Z.of_nat (seq 0 (length arr)))).
  { apply (Permutation_in _ Hdense). now apply in_map. }
  apply in_map_iff in Hin. destruct Hin as [k [<- Hk]]. apply in_seq in Hk. lia.
Qed.

(** The selected sprite of a manager whose [selectedId] is the id that finds
    the sprite. *)
Lemma getSelectedSprite_found (sm : StateManager.t) (s : SpriteObject) :
  selectedId (state sm) = Some (id s) -> id s <> "" ->
  find (has_id (id s)) (sprites (state sm)) = Some s ->
  getSelectedSprite sm = Some s.
Proof.
  intros Hsel Hne Hfind. unfold getSelectedSprite. rewrite Hsel.
  apply String.eqb_neq in Hne. now rewrite Hne.
Qed.

Lemma addSprite_state (emoji : string) (x y : R) (sm : StateManager.t) :
  let sprite := fst (addSprite emoji x y sm) in
  state (snd (addSprite emoji x y sm))
  = {| sprites := push (sprites (state sm)) sprite;
       selectedId := Some (id sprite);
       nextId := nextId (state sm) + 1;
       showOrigin := showOrigin (state sm);
       axesOnTop := axesOnTop (state sm);
       borderOnTop := borderOnTop (state sm);
       customFont := customFont (state sm) |}.
Proof. cbv zeta. unfold addSprite. cbn [fst snd]. now rewrite commit_state. Qed.

Lemma addSprite_selected (emoji : string) (x y : R) (sm : StateManager.t) :
  ids_issued (state sm) ->
  getSelectedSprite (snd (addSprite emoji x y sm)) = Some (fst (addSprite emoji x y sm)).
Proof.
  intros Hids. apply getSelectedSprite_found.
  - now rewrite addSprite_state.
  - apply sprite_id_nonempty.
  - rewrite addSprite_state. cbn [sprites]. apply find_push_fresh.
    + intros s Hs. now apply next_id_is_fresh.
    + unfold has_id. apply String.eqb_refl.
Qed.

(** X9.  In a state whose ids the manager has issued, [addSprite] returns a
    sprite with the next id, unrotated and unscaled, appends it to the
    sprites, leaves it selected, and advances [nextId] by one; over a dense
    z-order the new sprite is above every other. *)
Theorem addSprite_selects_the_new_sprite
    (emoji : string) (x y : R) (sm : StateManager.t) :
  ids_issued (state sm) ->
  let sprite := fst (addSprite emoji x y sm) in
  let sm' := snd (addSprite emoji x y sm) in
  sprite = {| id := sprite_id (nextId (state sm)); emoji := emoji; x := x; y := y;
              rotation := 0; scaleX := 1; scaleY := 1;
              zIndex := Z.of_nat (length (sprites (state sm))) |}
  /\ sprites (state sm') = push (sprites (state sm)) sprite
  /\ getSelectedSprite sm' = Some sprite
  /\ nextId (state sm') = nextId (state sm) + 1
  /\ (dense (sprites (state sm)) ->
      forall s, In s (sprites (state sm)) -> zIndex s < zIndex sprite).
Proof.
  intros Hids sprite sm'. unfold sprite, sm'.
  split; [ reflexivity | ].
  split; [ now rewrite addSprite_state | ].
  split; [ now apply addSprite_selected | ].
  split; [ now rewrite addSprite_state | ].
  intros Hdense s Hs. cbn [fst addSprite zIndex].
  pose proof (@dense_below_length _ s Hdense Hs). lia.
Qed.

Lemma addSprite_selects_the_new_sprite_witness :
  getSelectedSprite (snd (addSprite "star" 0 0 fresh)) = Some star.
Proof.
  apply (@addSprite_selects_the_new_sprite "star" 0 0 fresh).
  split; simpl; constructor.
Defined.

Lemma updateSprite_found (i : string) (updates : SpriteUpdates) (sm : StateManager.t)
    (ref : nat) :
  find_ref (has_id i) (sprites (state sm)) = Some ref ->
  state (updateSprite i updates sm)
  = with_sprites (modify_at ref (fun s => Object_assign s updates) (sprites (state sm)))
      (state sm).
Proof. intros H. unfold updateSprite. rewrite H. now rewrite commit_state. Qed.

(** X10.  Ctrl+D.  In a state whose ids the manager has issued and with a
    sprite selected, the handler appends one sprite and changes no other: a
    copy of the selected sprite (content, rotation, both scales), 10 units to
    the right and 10 down, under the next id, on top of the z-order; the copy
    is left selected and [nextId] advances by one. *)
Theorem duplicate_makes_an_offset_copy (sm : StateManager.t) (selected : SpriteObject) :
  ids_issued (state sm) ->
  getSelectedSprite sm = Some selected ->
  let copy :=
    {| id := sprite_id (nextId (state sm)); emoji := emoji selected;
       x := x selected + 10; y := y selected + 10;
       rotation := rotation selected;
       scaleX := scaleX selected; scaleY := scaleY selected;
       zIndex := Z.of_nat (length (sprites (state sm))) |} in
  let sm' := EmojiSpriteEditor.duplicateSelected sm in
  sprites (state sm') = push (sprites (state sm)) copy
  /\ getSelectedSprite sm' = Some copy
  /\ nextId (state sm') = nextId (state sm) + 1.
Proof.
  intros Hids Hselected copy sm'. unfold sm', EmojiSpriteEditor.duplicateSelected.
  rewrite Hselected.
  destruct (addSprite (emoji selected) (x selected + 10) (y selected + 10) sm)
    as [newSprite sm1] eqn:Hadd.
  assert (Hnew : newSprite = fst (addSprite (emoji selected) (x selected + 10)
                                   (y selected + 10) sm)) by now rewrite Hadd.
  assert (Hsm1 : sm1 = snd (addSprite (emoji selected) (x selected + 10)
                              (y selected + 10) sm)) by now rewrite Hadd.
  pose proof (addSprite_state (emoji selected) (x selected + 10) (y selected + 10) sm)
    as Hstate.
  cbv zeta in Hstate. rewrite <- Hnew, <- Hsm1 in Hstate.
  assert (Hid : id newSprite = sprite_id (nextId (state sm))) by now rewrite Hnew.
  assert (Hfresh : forall s, In s (sprites (state sm)) -> has_id (id newSprite) s = false).
  { intros s Hs. rewrite Hid. now apply next_id_is_fresh. }
  assert (Href : find_ref (has_id (id newSprite)) (sprites (state sm1))
                 = Some (length (sprites (state sm)))).
  { rewrite Hstate. cbn [sprites]. apply find_ref_push_fresh; [ exact Hfresh | ].
    unfold has_id. apply String.eqb_refl. }
  assert (Hcopy : Object_assign newSprite
                    (EmojiSpriteEditor.shape_updates (rotation selected)
                       (scaleX selected) (scaleY selected)) = copy).
  { rewrite Hnew. reflexivity. }
  assert (Hsprites : sprites (state (selectSprite (Some (id newSprite))
                       (updateSprite (id newSprite)
                          (EmojiSpriteEditor.shape_updates (rotation selected)
                             (scaleX selected) (scaleY selected)) sm1)))
                     = push (sprites (state sm)) copy).
  { unfold selectSprite. rewrite commit_state. cbn [state with_state with_selectedId sprites].
    rewrite (updateSprite_found _ _ sm1 Href), Hstate.
    cbn [sprites with_sprites]. now rewrite modify_at_push, Hcopy. }
  split; [ exact Hsprites | ]. split.
  - assert (Hcid : id copy = id newSprite) by now rewrite Hid.
    rewrite <- Hcid. apply getSelectedSprite_found.
    + unfold selectSprite. now rewrite commit_state.
    + apply sprite_id_nonempty.
    + rewrite Hcid, Hsprites. apply find_push_fresh; [ exact Hfresh | ].
      unfold has_id. rewrite Hcid. apply String.eqb_refl.
  - unfold selectSprite. rewrite commit_state. cbn [state with_state with_selectedId nextId].
    rewrite (updateSprite_found _ _ sm1 Href), Hstate. reflexivity.
Qed.

(** The two sprites of [two_sprites], with the moon selected. *)
Definition moon_selected : StateManager.t :=
  with_state (with_selectedId (Some "sprite-2") (state two_sprites)) two_sprites.

Lemma two_sprites_ids : ids_issued (state two_sprites).
Proof.
  split; simpl.
  - repeat constructor; simpl; intuition discriminate.
  - repeat constructor; [ exists 1 | exists 2 ]; split; try reflexivity; lia.
Qed.

Lemma duplicate_makes_an_offset_copy_witness :
  let copy :=
    {| id := "sprite-3"; emoji := "moon"; x := 12 + 10; y := -7 + 10; rotation := 90;
       scaleX := 2; scaleY := 2; zIndex := 2 |} in
  sprites (state (EmojiSpriteEditor.duplicateSelected moon_selected)) = [star; moon; copy]
  /\ getSelectedSprite (EmojiSpriteEditor.duplicateSelected moon_selected) = Some copy
  /\ nextId (state (EmojiSpriteEditor.duplicateSelected moon_selected)) = 4.
Proof.
  cbv zeta.
  exact (@duplicate_makes_an_offset_copy moon_selected moon two_sprites_ids eq_refl).
Defined.

(** X11.  The palette callback.  In a state whose ids the manager has
    issued, after [addSpriteToCanvas(emoji)] a sprite is selected and shows
    the emoji: the sprite that was selected, with nothing but its content
    changed and no sprite added, or else a new sprite at the origin. *)
Theorem picked_emoji_is_shown (emoji : string) (sm : StateManager.t) :
  ids_issued (state sm) ->
  let sm' := EmojiSpriteEditor.addSpriteToCanvas emoji sm in
  match getSelectedSprite sm with
  | Some selected =>
      getSelectedSprite sm'
      = Some (Object_assign selected (EmojiSpriteEditor.emoji_update emoji))
      /\ length (sprites (state sm')) = length (sprites (state sm))
  | None =>
      getSelectedSprite sm'
      = Some {| id := sprite_id (nextId (state sm)); emoji := emoji; x := 0; y := 0;
                rotation := 0; scaleX := 1; scaleY := 1;
                zIndex := Z.of_nat (length (sprites (state sm))) |}
      /\ length (sprites (state sm')) = S (length (sprites (state sm)))
  end.
Proof.
  intros Hids sm'. unfold sm', EmojiSpriteEditor.addSpriteToCanvas.
  destruct (getSelectedSprite sm) as [selected | ] eqn:Hselected.
  - destruct (selected_sprite_ref sm Hselected) as (ref & Href & Hnth & Hsel & Hne).
    assert (Hstate := updateSprite_found (id selected)
                        (EmojiSpriteEditor.emoji_update emoji) sm Href).
    split.
    + apply getSelectedSprite_found.
      * rewrite Hstate. exact Hsel.
      * exact Hne.
      * rewrite Hstate. cbn [sprites with_sprites].
        apply (find_modify_at (has_id (id selected))
                 (fun s => Object_assign s (EmojiSpriteEditor.emoji_update emoji))
                 (sprites (state sm)) Href Hnth).
        unfold has_id. apply String.eqb_refl.
    + rewrite Hstate. cbn [sprites with_sprites]. apply length_modify_at.
  - split; [ now apply addSprite_selected | ].
    rewrite addSprite_state. cbn [sprites]. apply length_push.
Qed.

Lemma picked_emoji_is_shown_witness :
  getSelectedSprite (EmojiSpriteEditor.addSpriteToCanvas "sun" moon_selected)
  = Some (Object_assign moon (EmojiSpriteEditor.emoji_update "sun"))
  /\ length (sprites (state (EmojiSpriteEditor.addSpriteToCanvas "sun" moon_selected)))
     = 2%nat.
Proof.
  exact (@picked_emoji_is_shown "sun" moon_selected two_sprites_ids).
Defined.

(* ===================================================================== *)
(** * Z-order: where the layer moves put a sprite                        *)
(* ===================================================================== *)

Lemma fold_left_max_upper (zs : list Z) (acc : Z) :
  acc <= fold_left Z.max zs acc /\ forall z, In z zs -> z <= fold_left Z.max zs acc.
Proof.
  revert acc. induction zs as [ | a zs IH ]; intros acc; simpl.
  - split; [ lia | tauto ].
  - destruct (IH (Z.max acc a)) as [Hacc Hzs]. split; [ lia | ].
    intros z [<- | Hz]; [ lia | now apply Hzs ].
Qed.

Lemma fold_left_min_lower (zs : list Z) (acc : Z) :
  fold_left Z.min zs acc <= acc /\ forall z, In z zs -> fold_left Z.min zs acc <= z.
Proof.
  revert acc. induction zs as [ | a zs IH ]; intros acc; simpl.
  - split; [ lia | tauto ].
  - destruct (IH (Z.min acc a)) as [Hacc Hzs]. split; [ lia | ].
    intros z [<- | Hz]; [ lia | now apply Hzs ].
Qed.

Lemma Math_max_of_upper (zs : list Z) (z : Z) : In z zs -> z <= Math_max_of zs.
Proof.
  destruct zs as [ | a zs ]; simpl; [ tauto | ].
  destruct (fold_left_max_upper zs a) as [Ha Hzs].
  intros [<- | Hz]; [ exact Ha | now apply Hzs ].
Qed.

Lemma Math_min_of_lower (zs : list Z) (z : Z) : In z zs -> Math_min_of zs <= z.
Proof.
  destruct zs as [ | a zs ]; simpl; [ tauto | ].
  destruct (fold_left_min_lower zs a) as [Ha Hzs].
  intros [<- | Hz]; [ exact Ha | now apply Hzs ].
Qed.

Lemma zIndex_at_In (arr : list SpriteObject) (j : nat) :
  (j < length arr)%nat -> In (zIndex_at arr j) (map zIndex arr).
Proof.
  intros H. unfold zIndex_at, deref.
  destruct (nth_error arr j) as [s | ] eqn:E.
  - apply in_map. eapply nth_error_In, E.
  - apply nth_error_None in E. lia.
Qed.

Lemma length_sorted_refs (arr : list SpriteObject) :
  length (sorted_refs arr) = length arr.
Proof. unfold sorted_refs. now rewrite Array_sort_length, length_seq. Qed.

(** The rank of the reference at a position of the z-order is the
    position. *)
Lemma rank_of_nth (arr : list SpriteObject) (k q : nat) :
  nth_error (sorted_refs arr) k = Some q -> rank arr q = k.
Proof.
  intros Hk.
  assert (Hq : (q < length arr)%nat) by (eapply sorted_refs_In, nth_error_In, Hk).
  destruct (rank_spec arr Hq) as [_ Hrank].
  pose proof (sorted_refs_NoDup arr) as Hnodup. rewrite NoDup_nth_error in Hnodup.
  apply Hnodup; [ | congruence ].
  apply nth_error_Some. congruence.
Qed.

Lemma rank_bound (arr : list SpriteObject) (p : nat) :
  (p < length arr)%nat -> (rank arr p < length arr)%nat.
Proof.
  intros Hp. destruct (rank_spec arr Hp) as [_ Hrank].
  rewrite <- length_sorted_refs. apply nth_error_Some. congruence.
Qed.

(** The sprite above all others is last in z-order, the one below all
    others first. *)
Lemma top_rank (arr : list SpriteObject) (p : nat) :
  (p < length arr)%nat ->
  (forall j, (j < length arr)%nat -> j <> p -> zIndex_at arr j < zIndex_at arr p) ->
  rank arr p = (length arr - 1)%nat.
Proof.
  intros Hp Habove. pose proof (rank_bound arr Hp) as Hbound.
  destruct (Nat.eq_dec (rank arr p) (length arr - 1)) as [E | Hne]; [ exact E | ].
  exfalso.
  destruct (nth_error (sorted_refs arr) (length arr - 1)) as [q | ] eqn:Hq.
  2: { apply nth_error_None in Hq. rewrite length_sorted_refs in Hq. lia. }
  assert (Hqn : (q < length arr)%nat) by (eapply sorted_refs_In, nth_error_In, Hq).
  pose proof (rank_of_nth arr _ Hq) as Hrq.
  assert (Hqp : q <> p) by (intros ->; lia).
  pose proof (rank_monotone arr Hqn Hp (Habove q Hqn Hqp)). lia.
Qed.

Lemma bottom_rank (arr : list SpriteObject) (p : nat) :
  (p < length arr)%nat ->
  (forall j, (j < length arr)%nat -> j <> p -> zIndex_at arr p < zIndex_at arr j) ->
  rank arr p = O.
Proof.
  intros Hp Hbelow.
  destruct (Nat.eq_dec (rank arr p) 0) as [E | Hne]; [ exact E | ].
  exfalso.
  destruct (nth_error (sorted_refs arr) 0) as [q | ] eqn:Hq.
  2: { apply nth_error_None in Hq. rewrite length_sorted_refs in Hq. lia. }
  assert (Hqn : (q < length arr)%nat) by (eapply sorted_refs_In, nth_error_In, Hq).
  pose proof (rank_of_nth arr _ Hq) as Hrq.
  assert (Hqp : q <> p) by (intros ->; lia).
  pose proof (rank_monotone arr Hp Hqn (Hbelow q Hqn Hqp)). lia.
Qed.

(** X12.  [moveLayerToFront] leaves the sprite found under the id with the
    highest [zIndex], n-1 for n sprites, and every other sprite below it;
    [moveLayerToBack] leaves it with [zIndex] 0 and every other sprite above
    it.  This holds whatever the z-order was before. *)
Theorem layer_moves_to_the_ends (i : string) (sm : StateManager.t) (p : nat) :
  find_ref (has_id i) (sprites (state sm)) = Some p ->
  let n := length (sprites (state sm)) in
  let front := sprites (state (moveLayerToFront i sm)) in
  let back := sprites (state (moveLayerToBack i sm)) in
  zIndex_at front p = Z.of_nat n - 1
  /\ (forall j, (j < n)%nat -> j <> p -> zIndex_at front j < Z.of_nat n - 1)
  /\ zIndex_at back p = 0
  /\ (forall j, (j < n)%nat -> j <> p -> 0 < zIndex_at back j).
Proof.
  intros Hfind n front back. unfold front, back.
  rewrite moveLayerToFront_sprites, moveLayerToBack_sprites. cbv zeta. rewrite Hfind.
  set (arr := sprites (state sm)) in *.
  assert (Hp : (p < n)%nat) by (now apply find_ref_bound in Hfind).
  set (up := write_zIndex p (Math_max_of (map zIndex arr) + 1) arr).
  set (down := write_zIndex p (Math_min_of (map zIndex arr) - 1) arr).
  assert (Hup_len : length up = n) by apply length_write_zIndex.
  assert (Hdown_len : length down = n) by apply length_write_zIndex.
  assert (Hup : forall j, (j < length up)%nat -> j <> p ->
                          zIndex_at up j < zIndex_at up p).
  { intros j Hj Hjp. unfold up.
    rewrite zIndex_at_write_same by exact Hp.
    rewrite zIndex_at_write_other by congruence.
    assert (Hle := Math_max_of_upper (map zIndex arr) (zIndex_at arr j)).
    rewrite Hup_len in Hj. specialize (Hle (zIndex_at_In arr Hj)). lia. }
  assert (Hdown : forall j, (j < length down)%nat -> j <> p ->
                            zIndex_at down p < zIndex_at down j).
  { intros j Hj Hjp. unfold down.
    rewrite zIndex_at_write_same by exact Hp.
    rewrite zIndex_at_write_other by congruence.
    assert (Hle := Math_min_of_lower (map zIndex arr) (zIndex_at arr j)).
    rewrite Hdown_len in Hj. specialize (Hle (zIndex_at_In arr Hj)). lia. }
  assert (Hp_up : (p < length up)%nat) by lia.
  assert (Hp_down : (p < length down)%nat) by lia.
  pose proof (top_rank up Hp_up Hup) as Htop.
  pose proof (bottom_rank down Hp_down Hdown) as Hbottom.
  repeat split.
  - rewrite zIndex_at_reindexZOrder by exact Hp_up. rewrite Htop, Hup_len. lia.
  - intros j Hj Hjp. rewrite zIndex_at_reindexZOrder by lia.
    assert (Hj_up : (j < length up)%nat) by lia.
    pose proof (rank_monotone up Hj_up Hp_up (Hup j Hj_up Hjp)). lia.
  - rewrite zIndex_at_reindexZOrder by exact Hp_down. now rewrite Hbottom.
  - intros j Hj Hjp. rewrite zIndex_at_reindexZOrder by lia.
    assert (Hj_down : (j < length down)%nat) by lia.
    pose proof (rank_monotone down Hp_down Hj_down (Hdown j Hj_down Hjp)). lia.
Qed.

Lemma layer_moves_to_the_ends_witness :
  zIndex_at (sprites (state (moveLayerToFront "sprite-1" two_sprites))) 0 = 1
  /\ zIndex_at (sprites (state (moveLayerToBack "sprite-2" two_sprites))) 1 = 0.
Proof.
  split.
  - apply (@layer_moves_to_the_ends "sprite-1" two_sprites 0 eq_refl).
  - apply (@layer_moves_to_the_ends "sprite-2" two_sprites 1 eq_refl).
Defined.

(** ** One layer up, one layer down, over a dense z-order *)

Lemma sorted_keys {A : Type} (key : A -> Z) (l : list A) :
  StronglySorted (key_le key) l -> StronglySorted Z.le (map key l).
Proof.
  induction 1 as [ | a l _ IH Ha ]; simpl; constructor; [ exact IH | ].
  apply Forall_forall. intros z Hz. apply in_map_iff in Hz.
  destruct Hz as [b [<- Hb]]. rewrite Forall_forall in Ha. now apply Ha.
Qed.

Lemma zIndex_at_seq (arr : list SpriteObject) :
  map (zIndex_at arr) (seq 0 (length arr)) = map zIndex arr.
Proof.
  apply nth_error_ext. intros j.
  rewrite !nth_error_map, nth_error_seq.
  destruct (Nat.ltb j (length arr)) eqn:E.
  - apply Nat.ltb_lt in E. simpl. unfold zIndex_at, deref.
    destruct (nth_error arr j) eqn:Hj; [ reflexivity | ].
    apply nth_error_None in Hj. lia.
  - apply Nat.ltb_ge, nth_error_None in E. now rewrite E.
Qed.

(** In z-order, the references of a dense array carry 0, 1, ..., n-1. *)
Lemma dense_sorted_refs (arr : list SpriteObject) :
  dense arr ->
  map (zIndex_at arr) (sorted_refs arr) = map Z.of_nat (seq 0 (length arr)).
Proof.
  intros Hdense. apply sorted_perm_unique.
  - apply sorted_keys, sorted_refs_sorted.
  - apply seq_sorted.
  - etransitivity; [ apply Permutation_map, sorted_refs_perm | ].
    rewrite zIndex_at_seq. exact Hdense.
Qed.

Lemma dense_nth_sorted (arr : list SpriteObject) (k q : nat) :
  dense arr -> nth_error (sorted_refs arr) k = Some q -> zIndex_at arr q = Z.of_nat k.
Proof.
  intros Hdense Hk.
  assert (Hlt : (k < length arr)%nat).
  { rewrite <- length_sorted_refs. apply nth_error_Some. congruence. }
  pose proof (f_equal (fun l => nth_error l k) (@dense_sorted_refs arr Hdense)) as H.
  cbv beta in H. rewrite !nth_error_map, Hk, nth_error_seq in H.
  apply Nat.ltb_lt in Hlt. rewrite Hlt in H. simpl in H. congruence.
Qed.

Lemma dense_rank (arr : list SpriteObject) (p : nat) :
  dense arr -> (p < length arr)%nat -> Z.of_nat (rank arr p) = zIndex_at arr p.
Proof.
  intros Hdense Hp. destruct (rank_spec arr Hp) as [_ Hrank].
  symmetry. exact (@dense_nth_sorted arr _ _ Hdense Hrank).
Qed.

Lemma dense_injective (arr : list SpriteObject) (a b : nat) :
  dense arr -> (a < length arr)%nat -> (b < length arr)%nat ->
  zIndex_at arr a = zIndex_at arr b -> a = b.
Proof.
  intros Hdense Ha Hb E.
  rewrite <- (@dense_rank arr a Hdense Ha), <- (@dense_rank arr b Hdense Hb) in E.
  apply Nat2Z.inj in E.
  destruct (rank_spec arr Ha) as [_ Hra]. destruct (rank_spec arr Hb) as [_ Hrb].
  congruence.
Qed.

Lemma find_ref_ext {A : Type} (p q : A -> bool) (l : list A) :
  (forall a, In a l -> p a = q a) -> find_ref p l = find_ref q l.
Proof.
  induction l as [ | a l IH ]; simpl; [ reflexivity | ].
  intros H. rewrite (H a) by now left. rewrite IH; [ reflexivity | ].
  intros b Hb. apply H. now right.
Qed.

(** Under unique ids the sprite found in the state is the one found in the
    sorted copy, at its rank. *)
Lemma findIndex_is_rank (i : string) (arr : list SpriteObject) (p : nat) :
  NoDup (map id arr) -> find_ref (has_id i) arr = Some p ->
  findIndex (fun s => String.eqb (id_at arr s) i) (sorted_refs arr)
  = Z.of_nat (rank arr p).
Proof.
  intros Hnodup Hfind.
  assert (Hp : (p < length arr)%nat) by now apply find_ref_bound in Hfind.
  destruct (find_ref_some _ _ Hfind) as [sp [Hsp Hid]].
  unfold has_id in Hid. apply String.eqb_eq in Hid.
  unfold findIndex.
  rewrite (find_ref_ext (fun s => String.eqb (id_at arr s) i) (Nat.eqb p)).
  - fold (position_in (sorted_refs arr) p). now destruct (rank_spec arr Hp) as [-> _].
  - intros r Hr. apply sorted_refs_In in Hr.
    unfold id_at, deref.
    destruct (nth_error arr r) as [sr | ] eqn:Hsr.
    2: { apply nth_error_None in Hsr. lia. }
    destruct (Nat.eqb p r) eqn:E.
    + apply Nat.eqb_eq in E. subst r. apply String.eqb_eq. congruence.
    + apply Nat.eqb_neq in E. apply String.eqb_neq. intros Hsame. apply E.
      rewrite NoDup_nth_error in Hnodup. apply Hnodup.
      * now rewrite length_map.
      * rewrite !nth_error_map, Hsp, Hsr. simpl. congruence.
Qed.

Lemma nth_error_swap (p q j : nat) (arr : list SpriteObject) :
  p <> q ->
  nth_error (swap_with_neighbour p q arr) j
  = if Nat.eqb p j then option_map (with_zIndex (zIndex_at arr q)) (nth_error arr j)
    else if Nat.eqb q j then option_map (with_zIndex (zIndex_at arr p)) (nth_error arr j)
    else nth_error arr j.
Proof.
  intros Hpq. unfold swap_with_neighbour. rewrite !nth_error_write_zIndex.
  destruct (Nat.eqb p j) eqn:Ep; [ | reflexivity ].
  apply Nat.eqb_eq in Ep. subst j.
  apply Nat.neq_sym, Nat.eqb_neq in Hpq. now rewrite Hpq.
Qed.

Lemma zIndex_at_swap (p q : nat) (arr : list SpriteObject) :
  p <> q -> (p < length arr)%nat -> (q < length arr)%nat ->
  zIndex_at (swap_with_neighbour p q arr) p = zIndex_at arr q
  /\ zIndex_at (swap_with_neighbour p q arr) q = zIndex_at arr p.
Proof.
  intros Hpq Hp Hq. unfold zIndex_at at 1 3. unfold deref.
  rewrite !nth_error_swap by exact Hpq.
  rewrite !Nat.eqb_refl. apply Nat.eqb_neq in Hpq. rewrite Hpq.
  destruct (nth_error arr p) eqn:Ep; [ | apply nth_error_None in Ep; lia ].
  destruct (nth_error arr q) eqn:Eq; [ | apply nth_error_None in Eq; lia ].
  now split.
Qed.

(** Exchanging twice gives the array back. *)
Lemma swap_twice (p q : nat) (arr : list SpriteObject) :
  p <> q -> (p < length arr)%nat -> (q < length arr)%nat ->
  swap_with_neighbour p q (swap_with_neighbour p q arr) = arr.
Proof.
  intros Hpq Hp Hq. destruct (@zIndex_at_swap p q arr Hpq Hp Hq) as [Hzp Hzq].
  apply nth_error_ext. intros j.
  rewrite nth_error_swap by exact Hpq. rewrite Hzp, Hzq.
  rewrite nth_error_swap by exact Hpq.
  destruct (Nat.eqb p j) eqn:Ep.
  - apply Nat.eqb_eq in Ep. subst j. unfold zIndex_at, deref.
    destruct (nth_error arr p) as [s | ]; [ | reflexivity ]. simpl.
    now rewrite with_zIndex_twice, with_zIndex_same.
  - destruct (Nat.eqb q j) eqn:Eq; [ | reflexivity ].
    apply Nat.eqb_eq in Eq. subst j. unfold zIndex_at, deref.
    destruct (nth_error arr q) as [s | ]; [ | reflexivity ]. simpl.
    now rewrite with_zIndex_twice, with_zIndex_same.
Qed.

Lemma find_ref_same_ids (i : string) (arr arr' : list SpriteObject) :
  map id arr' = map id arr -> find_ref (has_id i) arr' = find_ref (has_id i) arr.
Proof.
  revert arr'. induction arr as [ | s arr IH ]; intros [ | s' arr' ] H;
    try discriminate H; [ reflexivity | ].
  simpl in H. injection H as Hs Hrest. simpl. unfold has_id at 1 3.
  rewrite Hs. now rewrite (IH arr' Hrest).
Qed.

(** What [moveLayerUp] and [moveLayerDown] do over a dense z-order with
    unique ids. *)
Lemma moveLayerUp_dense (i : string) (sm : StateManager.t) (p : nat) :
  let arr := sprites (state sm) in
  dense arr -> NoDup (map id arr) -> find_ref (has_id i) arr = Some p ->
  (zIndex_at arr p = Z.of_nat (length arr) - 1 -> moveLayerUp i sm = sm)
  /\ (zIndex_at arr p < Z.of_nat (length arr) - 1 ->
      exists q, (q < length arr)%nat /\ zIndex_at arr q = zIndex_at arr p + 1
                /\ moveLayerUp i sm
                   = notifyListeners (saveSnapshot
                       (with_state (with_sprites (swap_with_neighbour p q arr) (state sm))
                          sm))).
Proof.
  intros arr Hdense Hnodup Hfind.
  assert (Hp : (p < length arr)%nat) by now apply find_ref_bound in Hfind.
  pose proof (@dense_rank arr p Hdense Hp) as Hrank.
  unfold moveLayerUp. fold arr. rewrite Hfind. cbv zeta.
  rewrite (@findIndex_is_rank i arr p Hnodup Hfind), length_sorted_refs, Hrank.
  split.
  - intros Htop. rewrite Htop, Z.ltb_irrefl. reflexivity.
  - intros Hbelow. apply Z.ltb_lt in Hbelow as Hguard. rewrite Hguard.
    unfold at_index.
    destruct (zIndex_at arr p + 1 <? 0) eqn:Hneg; [ apply Z.ltb_lt in Hneg; lia | ].
    destruct (nth_error (sorted_refs arr) (Z.to_nat (zIndex_at arr p + 1))) as [q | ] eqn:Hq.
    2: { apply nth_error_None in Hq. rewrite length_sorted_refs in Hq. lia. }
    exists q. split; [ eapply sorted_refs_In, nth_error_In, Hq | ].
    split; [ | reflexivity ].
    rewrite (@dense_nth_sorted arr _ q Hdense Hq). lia.
Qed.

Lemma moveLayerDown_dense (i : string) (sm : StateManager.t) (p : nat) :
  let arr := sprites (state sm) in
  dense arr -> NoDup (map id arr) -> find_ref (has_id i) arr = Some p ->
  (zIndex_at arr p = 0 -> moveLayerDown i sm = sm)
  /\ (0 < zIndex_at arr p ->
      exists q, (q < length arr)%nat /\ zIndex_at arr q = zIndex_at arr p - 1
                /\ moveLayerDown i sm
                   = notifyListeners (saveSnapshot
                       (with_state (with_sprites (swap_with_neighbour p q arr) (state sm))
                          sm))).
Proof.
  intros arr Hdense Hnodup Hfind.
  assert (Hp : (p < length arr)%nat) by now apply find_ref_bound in Hfind.
  pose proof (@dense_rank arr p Hdense Hp) as Hrank.
  pose proof (rank_bound arr Hp) as Hbound.
  unfold moveLayerDown. fold arr. rewrite Hfind. cbv zeta.
  rewrite (@findIndex_is_rank i arr p Hnodup Hfind), Hrank.
  split.
  - intros Hbottom. rewrite Hbottom. reflexivity.
  - intros Habove. apply Z.ltb_lt in Habove as Hguard. rewrite Hguard.
    unfold at_index.
    destruct (zIndex_at arr p - 1 <? 0) eqn:Hneg; [ apply Z.ltb_lt in Hneg; lia | ].
    destruct (nth_error (sorted_refs arr) (Z.to_nat (zIndex_at arr p - 1))) as [q | ] eqn:Hq.
    2: { apply nth_error_None in Hq. rewrite length_sorted_refs in Hq. lia. }
    exists q. split; [ eapply sorted_refs_In, nth_error_In, Hq | ].
    split; [ | reflexivity ].
    rewrite (@dense_nth_sorted arr _ q Hdense Hq). lia.
Qed.

(** X13.  Over a dense z-order with unique ids, [moveLayerUp] exchanges the
    [zIndex] of the sprite found under the id with the sprite exactly one
    above: the one goes up by 1, the other down by 1, nothing else changes.
    On the top sprite the call does nothing at all: no snapshot, no listener
    called.  [moveLayerDown] is the mirror image, and does nothing on the
    bottom sprite. *)
Theorem layer_moves_by_one (i : string) (sm : StateManager.t) (p : nat) :
  let arr := sprites (state sm) in
  let up := sprites (state (moveLayerUp i sm)) in
  let down := sprites (state (moveLayerDown i sm)) in
  dense arr -> NoDup (map id arr) -> find_ref (has_id i) arr = Some p ->
  (zIndex_at arr p = Z.of_nat (length arr) - 1 -> moveLayerUp i sm = sm)
  /\ (zIndex_at arr p < Z.of_nat (length arr) - 1 ->
      exists q, zIndex_at arr q = zIndex_at arr p + 1
                /\ zIndex_at up p = zIndex_at arr p + 1
                /\ zIndex_at up q = zIndex_at arr p
                /\ forall j, j <> p -> j <> q -> nth_error up j = nth_error arr j)
  /\ (zIndex_at arr p = 0 -> moveLayerDown i sm = sm)
  /\ (0 < zIndex_at arr p ->
      exists q, zIndex_at arr q = zIndex_at arr p - 1
                /\ zIndex_at down p = zIndex_at arr p - 1
                /\ zIndex_at down q = zIndex_at arr p
                /\ forall j, j <> p -> j <> q -> nth_error down j = nth_error arr j).
Proof.
  intros arr up down Hdense Hnodup Hfind.
  assert (Hp : (p < length arr)%nat) by now apply find_ref_bound in Hfind.
  destruct (@moveLayerUp_dense i sm p Hdense Hnodup Hfind) as [Htop Hup].
  destruct (@moveLayerDown_dense i sm p Hdense Hnodup Hfind) as [Hbottom Hdown].
  fold arr in Htop, Hup, Hbottom, Hdown.
  split; [ exact Htop | ]. split; [ | split; [ exact Hbottom | ] ].
  - intros Hlt. destruct (Hup Hlt) as (q & Hq & Hzq & Hcall).
    assert (Hpq : p <> q) by (intros ->; lia).
    exists q. unfold up. rewrite Hcall, commit_state. cbn [state with_state sprites with_sprites].
    destruct (@zIndex_at_swap p q arr Hpq Hp Hq) as [-> ->].
    repeat split; trivial. intros j Hjp Hjq. now apply swap_elsewhere.
  - intros Hlt. destruct (Hdown Hlt) as (q & Hq & Hzq & Hcall).
    assert (Hpq : p <> q) by (intros ->; lia).
    exists q. unfold down. rewrite Hcall, commit_state.
    cbn [state with_state sprites with_sprites].
    destruct (@zIndex_at_swap p q arr Hpq Hp Hq) as [-> ->].
    repeat split; trivial. intros j Hjp Hjq. now apply swap_elsewhere.
Qed.

Lemma two_sprites_dense : dense (sprites (state two_sprites)).
Proof. apply Permutation_refl. Qed.

Lemma two_sprites_unique : NoDup (map id (sprites (state two_sprites))).
Proof. apply two_sprites_ids. Qed.

Lemma layer_moves_by_one_witness :
  moveLayerUp "sprite-2" two_sprites = two_sprites
  /\ moveLayerDown "sprite-1" two_sprites = two_sprites.
Proof.
  destruct (@layer_moves_by_one "sprite-2" two_sprites 1
              two_sprites_dense two_sprites_unique eq_refl) as (Htop & _).
  destruct (@layer_moves_by_one "sprite-1" two_sprites 0
              two_sprites_dense two_sprites_unique eq_refl) as (_ & _ & Hbottom & _).
  split; [ now apply Htop | now apply Hbottom ].
Defined.

Lemma with_sprites_back (arr : list SpriteObject) (st : EditorState) :
  with_sprites (sprites st) (with_sprites arr st) = st.
Proof. now destruct st. Qed.

(** X14.  Over a dense z-order with unique ids, one layer up and then one
    layer down gives the state back, for a sprite that is not on top; so does
    one layer down and then up, for a sprite that is not at the bottom. *)
Theorem layer_up_then_down (i : string) (sm : StateManager.t) (p : nat) :
  let arr := sprites (state sm) in
  dense arr -> NoDup (map id arr) -> find_ref (has_id i) arr = Some p ->
  (zIndex_at arr p < Z.of_nat (length arr) - 1 ->
   state (moveLayerDown i (moveLayerUp i sm)) = state sm)
  /\ (0 < zIndex_at arr p ->
      state (moveLayerUp i (moveLayerDown i sm)) = state sm).
Proof.
  intros arr Hdense Hnodup Hfind.
  assert (Hp : (p < length arr)%nat) by now apply find_ref_bound in Hfind.
  destruct (@moveLayerUp_dense i sm p Hdense Hnodup Hfind) as [_ Hup].
  destruct (@moveLayerDown_dense i sm p Hdense Hnodup Hfind) as [_ Hdown].
  fold arr in Hup, Hdown.
  pose proof (@dense_rank arr p Hdense Hp) as Hrank.
  pose proof (rank_bound arr Hp) as Hbound.
  assert (Hback : forall q (sm1 : StateManager.t),
    (q < length arr)%nat -> p <> q ->
    state sm1 = with_sprites (swap_with_neighbour p q arr) (state sm) ->
    dense (sprites (state sm1)) /\ NoDup (map id (sprites (state sm1)))
    /\ find_ref (has_id i) (sprites (state sm1)) = Some p
    /\ zIndex_at (sprites (state sm1)) p = zIndex_at arr q
    /\ zIndex_at (sprites (state sm1)) q = zIndex_at arr p
    /\ length (sprites (state sm1)) = length arr).
  { intros q sm1 Hq Hpq ->. cbn [sprites with_sprites].
    pose proof (restamped_ids (swap_restamped p q arr)) as Hids.
    destruct (@zIndex_at_swap p q arr Hpq Hp Hq) as [Hzp Hzq].
    split; [ now apply swap_dense | ]. split; [ now rewrite Hids | ].
    split; [ now rewrite (@find_ref_same_ids i arr _ Hids) | ].
    split; [ exact Hzp | ]. split; [ exact Hzq | apply swap_length ]. }
  split.
  - intros Hlt. destruct (Hup Hlt) as (q & Hq & Hzq & Hcall).
    assert (Hpq : p <> q) by (intros ->; lia).
    set (sm1 := moveLayerUp i sm) in *.
    assert (Hstate : state sm1 = with_sprites (swap_with_neighbour p q arr) (state sm))
      by (rewrite Hcall; apply commit_state).
    destruct (Hback q sm1 Hq Hpq Hstate) as (Hd1 & Hn1 & Hf1 & Hzp1 & Hzq1 & Hlen1).
    destruct (@moveLayerDown_dense i sm1 p Hd1 Hn1 Hf1) as [_ Hdown1].
    destruct Hdown1 as (q' & Hq' & Hzq' & Hcall'); [ lia | ].
    assert (Hsame : q' = q).
    { apply (@dense_injective (sprites (state sm1)) q' q Hd1); lia. }
    subst q'. rewrite Hcall', commit_state. cbn [state with_state].
    rewrite Hstate. cbn [sprites with_sprites]. rewrite swap_twice by assumption.
    apply with_sprites_back.
  - intros Hlt. destruct (Hdown Hlt) as (q & Hq & Hzq & Hcall).
    assert (Hpq : p <> q) by (intros ->; lia).
    set (sm1 := moveLayerDown i sm) in *.
    assert (Hstate : state sm1 = with_sprites (swap_with_neighbour p q arr) (state sm))
      by (rewrite Hcall; apply commit_state).
    destruct (Hback q sm1 Hq Hpq Hstate) as (Hd1 & Hn1 & Hf1 & Hzp1 & Hzq1 & Hlen1).
    destruct (@moveLayerUp_dense i sm1 p Hd1 Hn1 Hf1) as [_ Hup1].
    destruct Hup1 as (q' & Hq' & Hzq' & Hcall'); [ lia | ].
    assert (Hsame : q' = q).
    { apply (@dense_injective (sprites (state sm1)) q' q Hd1); lia. }
    subst q'. rewrite Hcall', commit_state. cbn [state with_state].
    rewrite Hstate. cbn [sprites with_sprites]. rewrite swap_twice by assumption.
    apply with_sprites_back.
Qed.

Lemma layer_up_then_down_witness :
  state (moveLayerDown "sprite-1" (moveLayerUp "sprite-1" two_sprites)) = state two_sprites
  /\ state (moveLayerUp "sprite-2" (moveLayerDown "sprite-2" two_sprites))
     = state two_sprites.
Proof.
  destruct (@layer_up_then_down "sprite-1" two_sprites 0
              two_sprites_dense two_sprites_unique eq_refl) as [Hup _].
  destruct (@layer_up_then_down "sprite-2" two_sprites 1
              two_sprites_dense two_sprites_unique eq_refl) as [_ Hdown].
  split; [ apply Hup | apply Hdown ]; reflexivity.
Defined.

(* ===================================================================== *)
(** * Deleting a sprite                                                  *)
(* ===================================================================== *)

(** Re-indexing a dense z-order changes nothing. *)
Lemma reindexZOrder_dense_same (arr : list SpriteObject) :
  dense arr -> reindexZOrder arr = arr.
Proof.
  intros Hdense. apply nth_error_ext. intros j. rewrite nth_error_reindexZOrder.
  destruct (nth_error arr j) as [s | ] eqn:Hj; [ | reflexivity ]. simpl.
  assert (Hlt : (j < length arr)%nat) by (apply nth_error_Some; congruence).
  rewrite (@dense_rank arr j Hdense Hlt). unfold zIndex_at, deref. rewrite Hj.
  now rewrite with_zIndex_same.
Qed.

Lemma filter_ids (i : string) (arr : list SpriteObject) :
  map id (filter (fun s => negb (has_id i s)) arr)
  = filter (fun j => negb (String.eqb j i)) (map id arr).
Proof.
  induction arr as [ | s arr IH ]; simpl; [ reflexivity | ].
  unfold has_id at 1. destruct (String.eqb (id s) i); simpl; now rewrite IH.
Qed.

Lemma filter_keeps_all {A : Type} (keep : A -> bool) (l : list A) :
  (forall a, In a l -> keep a = true) -> filter keep l = l.
Proof.
  induction l as [ | a l IH ]; simpl; [ reflexivity | ].
  intros H. rewrite (H a) by now left. f_equal. apply IH. intros b Hb. apply H. now right.
Qed.

(** X15.  [deleteSprite(id)] removes every sprite that carries the id and no
    other: the ids left are the former ones without it, in the same order.
    The selection is cleared exactly when it was that id, so that the deleted
    sprite is never left selected, and the listeners are called once, also
    when no sprite carries the id; in that case, over a dense z-order, the
    sprites are left exactly as they were. *)
Theorem deleteSprite_removes_the_sprite (i : string) (sm : StateManager.t) :
  let arr := sprites (state sm) in
  let sm' := deleteSprite i sm in
  map id (sprites (state sm')) = filter (fun j => negb (String.eqb j i)) (map id arr)
  /\ (forall s, In s (sprites (state sm')) -> id s <> i)
  /\ selectedId (state sm')
     = (if selected_is i (selectedId (state sm)) then None else selectedId (state sm))
  /\ (selectedId (state sm) = Some i -> getSelectedSprite sm' = None)
  /\ notifications sm' = S (notifications sm)
  /\ (dense arr -> (forall s, In s arr -> id s <> i) -> sprites (state sm') = arr).
Proof.
  intros arr sm'. unfold sm'.
  assert (Hids : map id (sprites (state (deleteSprite i sm)))
                 = filter (fun j => negb (String.eqb j i)) (map id arr)).
  { rewrite deleteSprite_sprites, (restamped_ids (reindexZOrder_restamped _)).
    apply filter_ids. }
  assert (Hsel : selectedId (state (deleteSprite i sm))
                 = (if selected_is i (selectedId (state sm)) then None
                    else selectedId (state sm))).
  { unfold deleteSprite. rewrite commit_state. cbn [state with_state].
    cbn [selectedId with_sprites]. now destruct (selected_is i (selectedId (state sm))). }
  split; [ exact Hids | ]. split; [ | split; [ exact Hsel | split; [ | split ] ] ].
  - intros s Hs E. apply (in_map id) in Hs. rewrite Hids in Hs.
    apply filter_In in Hs. destruct Hs as [_ Hs]. rewrite E, String.eqb_refl in Hs.
    discriminate Hs.
  - intros Hselected. unfold getSelectedSprite. rewrite Hsel, Hselected. simpl.
    now rewrite String.eqb_refl.
  - unfold deleteSprite. cbn [notifications notifyListeners].
    now rewrite saveSnapshot_notifications.
  - intros Hdense Hfree. rewrite deleteSprite_sprites. fold arr.
    rewrite filter_keeps_all.
    + now apply reindexZOrder_dense_same.
    + intros s Hs. unfold has_id. apply negb_true_iff, String.eqb_neq. now apply Hfree.
Qed.

Lemma deleteSprite_removes_the_sprite_witness :
  getSelectedSprite (deleteSprite "sprite-2" moon_selected) = None
  /\ sprites (state (deleteSprite "sprite-9" two_sprites)) = sprites (state two_sprites).
Proof.
  destruct (deleteSprite_removes_the_sprite "sprite-2" moon_selected)
    as (_ & _ & _ & Hselected & _).
  destruct (deleteSprite_removes_the_sprite "sprite-9" two_sprites)
    as (_ & _ & _ & _ & _ & Hunknown).
  split.
  - now apply Hselected.
  - apply Hunknown; [ exact two_sprites_dense | ].
    intros s [<- | [<- | []]]; discriminate.
Defined.

(* ===================================================================== *)
(** * Export and import: what a second pass does                         *)
(* ===================================================================== *)

(** Rounding to a number of places leaves a rounded number alone. *)
Lemma round_to_idempotent (k v : R) :
  (0 < k)%R -> round_to k (round_to k v) = round_to k v.
Proof.
  intros Hk. unfold round_to at 1 2. unfold Math_round at 2.
  replace (IZR (Zfloor (v * k + / 2)) / k * k)%R with (IZR (Zfloor (v * k + / 2)))
    by (field; lra).
  rewrite Math_round_int. reflexivity.
Qed.

Lemma compact_reimported (n index : Z) (s : SpriteObject) :
  compact (reimported n s index) = compact s.
Proof.
  unfold compact, reimported. cbn [emoji x y rotation scaleX scaleY].
  rewrite !round_to_idempotent by lra. reflexivity.
Qed.

Lemma compact_reimported_from (n start : Z) (l : list SpriteObject) :
  map compact (reimported_from n start l) = map compact l.
Proof.
  revert start. induction l as [ | s l IH ]; intros start; simpl; [ reflexivity | ].
  now rewrite compact_reimported, IH.
Qed.

(** Sorting leaves a sorted array as it is. *)
Lemma Array_sort_of_sorted {A : Type} (cmp : A -> A -> Z) (key : A -> Z) (l : list A) :
  (forall a b, cmp a b <= 0 <-> key a <= key b) ->
  StronglySorted (key_le key) l -> Array_sort cmp l = l.
Proof.
  intros Hcmp. induction 1 as [ | a l _ IH Ha ]; simpl; [ reflexivity | ].
  rewrite IH. destruct l as [ | b l ]; [ reflexivity | ]. simpl.
  assert (Hab : cmp a b <= 0).
  { apply Hcmp. rewrite Forall_forall in Ha. apply Ha. now left. }
  apply Z.leb_le in Hab. now rewrite Hab.
Qed.

Lemma sorted_by_keys {A : Type} (key : A -> Z) (l : list A) :
  StronglySorted Z.le (map key l) -> StronglySorted (key_le key) l.
Proof.
  induction l as [ | a l IH ]; simpl; intros H; constructor;
    inversion H as [ | ? ? Hl Ha ]; subst.
  - now apply IH.
  - apply Forall_forall. intros b Hb. rewrite Forall_forall in Ha.
    apply Ha. now apply in_map.
Qed.

Lemma reimported_from_sorted (n : Z) (l : list SpriteObject) :
  sorted_by_zIndex (reimported_from n 0 l) = reimported_from n 0 l.
Proof.
  unfold sorted_by_zIndex. apply (@Array_sort_of_sorted _ _ zIndex).
  - intros a b. lia.
  - apply sorted_by_keys. change 0 with (Z.of_nat 0).
    rewrite reimported_from_zIndex. apply seq_sorted.
Qed.

(** X16.  Exporting is stable under a round trip: for sprites with
    non-empty content, importing what [exportJSON] produced (into any
    manager) and exporting again produces the same text, whatever the z-order
    of the source was.  The numbers of the format are fixed by the first
    rounding. *)
Theorem export_after_import_is_the_same_text (source target : StateManager.t) :
  Forall (fun s => emoji s <> "") (sprites (state source)) ->
  exists target',
    importJSON (exportJSON source) target = (true, Typed target')
    /\ exportJSON target' = exportJSON source.
Proof.
  intros Hcontent.
  destruct (exportJSON_importJSON source target Hcontent) as [target' [Himport [Hsprites _]]].
  exists target'. split; [ exact Himport | ].
  unfold exportJSON. rewrite Hsprites, reimported_from_sorted, compact_reimported_from.
  reflexivity.
Qed.

Lemma export_after_import_is_the_same_text_witness :
  exists target',
    importJSON (exportJSON two_sprites) fresh = (true, Typed target')
    /\ exportJSON target' = exportJSON two_sprites.
Proof.
  apply export_after_import_is_the_same_text.
  repeat constructor; discriminate.
Defined.

(** ** Arrays in the long member names *)

(** The sprite [importJSON] builds at position [index] from a sprite written
    out in full, in a manager whose [nextId] is [n]. *)
Definition renumbered (n : Z) (s : SpriteObject) (index : Z) : SpriteObject :=
  {| id := sprite_id (n + index); emoji := emoji s; x := x s; y := y s;
     rotation := rotation s; scaleX := scaleX s; scaleY := scaleY s;
     zIndex := index |}.

Fixpoint renumbered_from (n start : Z) (l : list SpriteObject) : list SpriteObject :=
  match l with
  | [] => []
  | s :: rest => renumbered n s start :: renumbered_from n (start + 1) rest
  end.

Lemma import_full_sprite (n index : Z) (s : SpriteObject) :
  exists raw,
    import_sprite n (json_of_sprite s) index = Return raw
    /\ typed_sprite raw = Some (renumbered n s index).
Proof.
  destruct s as [si se sx sy sr ssx ssy sz].
  eexists. split; [ reflexivity | ].
  unfold typed_sprite, renumbered, or_else, zero, one. simpl.
  destruct (num_eq sx 0) eqn:Ex; destruct (num_eq sy 0) eqn:Ey;
    destruct (num_eq sr 0) eqn:Er; simpl;
    try apply num_eq_true in Ex; try apply num_eq_true in Ey;
    try apply num_eq_true in Er; subst; reflexivity.
Qed.

Lemma import_full_sprites (n start : Z) (l : list SpriteObject) :
  exists raws,
    map_indexed start (import_sprite n) (map json_of_sprite l) = Return raws
    /\ typed_sprites raws = Some (renumbered_from n start l).
Proof.
  revert start. induction l as [ | s l IH ]; intros start;
    cbn [map map_indexed renumbered_from].
  - now exists [].
  - destruct (import_full_sprite n start s) as [raw [Hraw Htyped]].
    destruct (IH (start + 1)) as [raws [Hraws Hall]].
    exists (raw :: raws). rewrite Hraw. cbn [bind]. rewrite Hraws. cbn [bind typed_sprites].
    now rewrite Htyped, Hall.
Qed.

Lemma renumbered_from_kept (n start : Z) (l : list SpriteObject) :
  Forall2 (fun s s' => emoji s' = emoji s /\ x s' = x s /\ y s' = y s
                       /\ rotation s' = rotation s
                       /\ scaleX s' = scaleX s /\ scaleY s' = scaleY s)
    l (renumbered_from n start l).
Proof.
  revert start. induction l as [ | s l IH ]; intros start; simpl; constructor.
  - now repeat split.
  - apply IH.
Qed.

Lemma renumbered_from_numbers (n : Z) (start : nat) (l : list SpriteObject) :
  map zIndex (renumbered_from n (Z.of_nat start) l) = map Z.of_nat (seq start (length l))
  /\ map id (renumbered_from n (Z.of_nat start) l)
     = map (fun k => sprite_id (n + Z.of_nat k)) (seq start (length l)).
Proof.
  revert start. induction l as [ | s l IH ]; intros start; simpl; [ now split | ].
  replace (Z.of_nat start + 1) with (Z.of_nat (S start)) by lia.
  destruct (IH (S start)) as [-> ->]. now split.
Qed.

(** X17.  [importJSON] reads the long member names too.  An array of
    sprites written out in full ([emoji], [x], [y], [rotation], [scaleX],
    [scaleY], as in a stored state) is accepted and its sprites installed
    exactly, nothing rounded, no scale defaulted, empty content included;
    only the ids and the [zIndex] are new, given by the position in the
    array.  The selection is cleared and [nextId] advanced past the new
    ids. *)
Theorem full_format_array_is_imported_exactly
    (l : list SpriteObject) (sm : StateManager.t) :
  exists sm',
    importJSON (JSON_stringify (JArr (map json_of_sprite l))) sm = (true, Typed sm')
    /\ Forall2 (fun s s' => emoji s' = emoji s /\ x s' = x s /\ y s' = y s
                            /\ rotation s' = rotation s
                            /\ scaleX s' = scaleX s /\ scaleY s' = scaleY s)
         l (sprites (state sm'))
    /\ map zIndex (sprites (state sm')) = map Z.of_nat (seq 0 (length l))
    /\ map id (sprites (state sm'))
       = map (fun k => sprite_id (nextId (state sm) + Z.of_nat k)) (seq 0 (length l))
    /\ nextId (state sm') = nextId (state sm) + Z.of_nat (length l)
    /\ selectedId (state sm') = None.
Proof.
  destruct (import_full_sprites (nextId (state sm)) 0 l) as [raws [Hraws Htyped]].
  unfold importJSON. cbn [JSON_stringify JSON_parse Array_isArray].
  rewrite Hraws, Htyped.
  eexists. split; [ reflexivity | ].
  rewrite !commit_state. cbn [state with_state sprites with_sprites with_nextId
                              with_selectedId nextId selectedId].
  destruct (renumbered_from_numbers (nextId (state sm)) 0 l) as [Hz Hid].
  change (Z.of_nat 0) with 0 in Hz, Hid.
  split; [ apply renumbered_from_kept | ]. split; [ exact Hz | ]. split; [ exact Hid | ].
  split; [ | reflexivity ].
  f_equal. f_equal. clear. generalize 0 at 1.
  induction l as [ | s l IH ]; intros start; simpl; [ reflexivity | ]. now rewrite IH.
Qed.

(* ===================================================================== *)
(** * Canvas: what is painted and what is hit                            *)
(* ===================================================================== *)

Lemma num_ge_iff (a b : R) : num_ge a b = true <-> (b <= a)%R.
Proof. unfold num_ge. destruct (Rle_dec b a); split; auto; discriminate. Qed.

Lemma num_le_iff (a b : R) : num_le a b = true <-> (a <= b)%R.
Proof. unfold num_le. destruct (Rle_dec a b); split; auto; discriminate. Qed.

Section Painting.
#[local] Open Scope R_scope.
Variable measureText : string -> string -> CanvasRenderer.TextMetrics.
Variables centerX centerY : R.

(** The ink of a glyph, in the frame [fillText] draws it in: the pen at the
    origin, the baseline along the first axis. *)
Definition in_ink (m : CanvasRenderer.TextMetrics) (q : Point.t) : Prop :=
  - CanvasRenderer.actualBoundingBoxLeft m <= Point.x q
    <= CanvasRenderer.actualBoundingBoxRight m
  /\ - CanvasRenderer.actualBoundingBoxAscent m <= Point.y q
     <= CanvasRenderer.actualBoundingBoxDescent m.

(** Where [drawSprite] puts a point of the glyph frame, in world
    coordinates. *)
Definition drawn_at (sprite : SpriteObject) (customFont : string) (q : Point.t) : Point.t :=
  let screen :=
    CanvasRenderer.map_point
      (CanvasRenderer.glyph_frame measureText centerX centerY sprite customFont) q in
  CanvasRenderer.screenToWorld centerX centerY (Point.x screen) (Point.y screen).

(** The glyph frame is the sprite frame moved to the pen. *)
Lemma drawn_at_paint (sprite : SpriteObject) (customFont : string) (q : Point.t) :
  let bounds := CanvasRenderer.getSpriteBounds measureText sprite customFont in
  drawn_at sprite customFont q
  = CanvasRenderer.paint centerX centerY sprite
      {| Point.x := Point.x q + Bounds.penX bounds;
         Point.y := Point.y q + Bounds.penY bounds |}.
Proof.
  destruct q as [qx qy]. cbv zeta.
  unfold drawn_at, CanvasRenderer.paint, CanvasRenderer.glyph_frame,
    CanvasRenderer.screenToWorld.
  apply point_eq; simpl; ring.
Qed.

(** The test of [isPointInSprite], on the point turned back by the sprite's
    rotation. *)
Lemma isPointInSprite_iff (s : SpriteObject) (worldX worldY : R) (customFont : string) :
  let a := rotation s * Math_PI / 180 in
  let rotatedX := (worldX - x s) * cos a + (worldY - y s) * sin a in
  let rotatedY := - (worldX - x s) * sin a + (worldY - y s) * cos a in
  let bounds := CanvasRenderer.getSpriteBounds measureText s customFont in
  CanvasRenderer.isPointInSprite measureText s worldX worldY customFont = true
  <-> (- Bounds.width bounds / 2 <= rotatedX <= Bounds.width bounds / 2
       /\ - Bounds.height bounds / 2 <= rotatedY <= Bounds.height bounds / 2).
Proof.
  cbv zeta. unfold CanvasRenderer.isPointInSprite.
  rewrite !andb_true_iff, !num_ge_iff, !num_le_iff.
  rewrite negated_angle, cos_neg, sin_neg.
  set (a := rotation s * Math_PI / 180).
  replace ((worldX - x s) * cos a - (worldY - y s) * - sin a)
    with ((worldX - x s) * cos a + (worldY - y s) * sin a) by ring.
  replace ((worldX - x s) * - sin a + (worldY - y s) * cos a)
    with (- (worldX - x s) * sin a + (worldY - y s) * cos a) by ring.
  tauto.
Qed.

(** [paint] undoes [worldToLocal]. *)
Lemma paint_worldToLocal (sprite : SpriteObject) (worldX worldY : R) :
  scaleX sprite <> 0 -> scaleY sprite <> 0 ->
  CanvasRenderer.paint centerX centerY sprite (Gizmo.worldToLocal sprite worldX worldY)
  = {| Point.x := worldX; Point.y := worldY |}.
Proof.
  intros Hsx Hsy. rewrite paint_unfolded. cbv zeta.
  unfold Gizmo.worldToLocal, Gizmo.worldToLocalWithScale, CanvasRenderer.rotatePoint.
  cbn [Point.x Point.y].
  rewrite negated_angle, cos_neg, sin_neg.
  set (a := rotation sprite * Math_PI / 180).
  pose proof (cos_sin_unit a) as Hunit.
  apply point_eq; cbn [Point.x Point.y].
  - transitivity (x sprite + (worldX - x sprite) * (cos a * cos a + sin a * sin a));
      [ field; split; assumption | rewrite Hunit; ring ].
  - transitivity (y sprite + (worldY - y sprite) * (cos a * cos a + sin a * sin a));
      [ field; split; assumption | rewrite Hunit; ring ].
Qed.

Lemma scaled_bounds (b v s : R) :
  0 < s -> (- (b * s) / 2 <= v <= b * s / 2 <-> - b / 2 <= v / s <= b / 2).
Proof.
  intros Hs.
  assert (Hv : v = v / s * s) by (field; lra).
  split; intros [Hlo Hhi]; split.
  - apply (Rmult_le_reg_r s); [ exact Hs | ]. rewrite <- Hv. lra.
  - apply (Rmult_le_reg_r s); [ exact Hs | ]. rewrite <- Hv. lra.
  - rewrite Hv. apply (Rmult_le_compat_r s) in Hlo; lra.
  - rewrite Hv. apply (Rmult_le_compat_r s) in Hhi; lra.
Qed.

(** X18.  The hit region is the painted box.  For a sprite with positive
    scales, [isPointInSprite] accepts a world point exactly when [drawSprite]
    puts a point of the glyph's ink box there: the box that [measureText]
    reports around the pen, under the translate, rotate, scale and pen
    translate of [drawSprite]. *)
Theorem hit_region_is_the_painted_box
    (s : SpriteObject) (worldX worldY : R) (customFont : string) :
  0 < scaleX s -> 0 < scaleY s ->
  let ink := measureText (CanvasRenderer.font_setting customFont) (emoji s) in
  CanvasRenderer.isPointInSprite measureText s worldX worldY customFont = true
  <-> exists q, in_ink ink q
                /\ drawn_at s customFont q = {| Point.x := worldX; Point.y := worldY |}.
Proof.
  intros Hsx Hsy ink. rewrite isPointInSprite_iff. cbv zeta.
  set (a := rotation s * Math_PI / 180).
  set (rotatedX := (worldX - x s) * cos a + (worldY - y s) * sin a).
  set (rotatedY := - (worldX - x s) * sin a + (worldY - y s) * cos a).
  unfold CanvasRenderer.getSpriteBounds. fold ink. cbn [Bounds.width Bounds.height].
  set (left := CanvasRenderer.actualBoundingBoxLeft ink).
  set (right := CanvasRenderer.actualBoundingBoxRight ink).
  set (ascent := CanvasRenderer.actualBoundingBoxAscent ink).
  set (descent := CanvasRenderer.actualBoundingBoxDescent ink).
  rewrite (scaled_bounds (left + right) rotatedX Hsx).
  rewrite (scaled_bounds (ascent + descent) rotatedY Hsy).
  assert (Hlocal : Gizmo.worldToLocal s worldX worldY
                   = {| Point.x := rotatedX / scaleX s; Point.y := rotatedY / scaleY s |}).
  { unfold Gizmo.worldToLocal, Gizmo.worldToLocalWithScale.
    rewrite negated_angle, cos_neg, sin_neg. fold a.
    apply point_eq; cbn [Point.x Point.y]; unfold rotatedX, rotatedY; f_equal; ring. }
  split.
  - intros [[Hx1 Hx2] [Hy1 Hy2]].
    exists {| Point.x := rotatedX / scaleX s - (- (left + right) / 2 + left);
              Point.y := rotatedY / scaleY s - (ascent - (ascent + descent) / 2) |}.
    split.
    + unfold in_ink. fold left right ascent descent. cbn [Point.x Point.y]. lra.
    + rewrite drawn_at_paint. cbv zeta.
      unfold CanvasRenderer.getSpriteBounds. fold ink. fold left right ascent descent.
      cbn [Point.x Point.y Bounds.penX Bounds.penY].
      replace (rotatedX / scaleX s - (- (left + right) / 2 + left)
               + (- (left + right) / 2 + left)) with (rotatedX / scaleX s) by ring.
      replace (rotatedY / scaleY s - (ascent - (ascent + descent) / 2)
               + (ascent - (ascent + descent) / 2)) with (rotatedY / scaleY s) by ring.
      rewrite <- Hlocal. apply paint_worldToLocal; lra.
  - intros [q [[[Hx1 Hx2] [Hy1 Hy2]] Hdrawn]].
    fold left right ascent descent in Hx1, Hx2, Hy1, Hy2.
    rewrite drawn_at_paint in Hdrawn. cbv zeta in Hdrawn.
    unfold CanvasRenderer.getSpriteBounds in Hdrawn. fold ink in Hdrawn.
    fold left right ascent descent in Hdrawn.
    cbn [Bounds.penX Bounds.penY] in Hdrawn.
    set (p := {| Point.x := Point.x q + (- (left + right) / 2 + left);
                 Point.y := Point.y q + (ascent - (ascent + descent) / 2) |}) in Hdrawn.
    assert (Hback : Gizmo.worldToLocal s worldX worldY = p).
    { pose proof (@worldToLocalWithScale_paint centerX centerY s p) as H.
      cbv zeta in H. rewrite Hdrawn in H. apply H; lra. }
    rewrite Hlocal in Hback.
    assert (Hpx : rotatedX / scaleX s = Point.x p) by now rewrite <- Hback.
    assert (Hpy : rotatedY / scaleY s = Point.y p) by now rewrite <- Hback.
    rewrite Hpx, Hpy. unfold p. cbn [Point.x Point.y]. lra.
Qed.

(** X19.  A sprite whose box has a negative width or height, as under a
    negative scale, is painted (mirrored) but contains no point for
    [isPointInSprite]: no click selects it. *)
Theorem negative_box_is_never_hit
    (s : SpriteObject) (worldX worldY : R) (customFont : string) :
  let bounds := CanvasRenderer.getSpriteBounds measureText s customFont in
  Bounds.width bounds < 0 \/ Bounds.height bounds < 0 ->
  CanvasRenderer.isPointInSprite measureText s worldX worldY customFont = false
  /\ CanvasRenderer.hitTest measureText [s] worldX worldY customFont = None.
Proof.
  intros bounds Hneg.
  assert (Hout : CanvasRenderer.isPointInSprite measureText s worldX worldY customFont
                 = false).
  { apply not_true_is_false. rewrite isPointInSprite_iff. cbv zeta. fold bounds.
    intros [[Hx1 Hx2] [Hy1 Hy2]]. lra. }
  split; [ exact Hout | ].
  unfold CanvasRenderer.hitTest. simpl. now rewrite Hout.
Qed.

End Painting.

(** The star of the examples under a negative scale. *)
Definition mirrored_star : SpriteObject :=
  {| id := "sprite-1"; emoji := "star"; x := 0; y := 0; rotation := 0;
     scaleX := -1; scaleY := 1; zIndex := 0 |}.

Lemma hit_region_is_the_painted_box_witness :
  CanvasRenderer.isPointInSprite box_metrics star 5 5 "Arial" = true
  <-> exists q, in_ink (box_metrics (CanvasRenderer.font_setting "Arial") "star") q
                /\ drawn_at box_metrics 400 300 star "Arial" q
                   = {| Point.x := 5; Point.y := 5 |}.
Proof.
  apply (@hit_region_is_the_painted_box box_metrics 400 300 star 5 5 "Arial");
    simpl; lra.
Defined.

Lemma negative_box_is_never_hit_witness :
  CanvasRenderer.isPointInSprite box_metrics mirrored_star 0 0 "Arial" = false
  /\ CanvasRenderer.hitTest box_metrics [mirrored_star] 0 0 "Arial" = None.
Proof.
  apply (@negative_box_is_never_hit box_metrics mirrored_star 0 0 "Arial").
  left. simpl. lra.
Defined.

(** ** The order of painting and the order of hit testing *)

Lemma StronglySorted_weaken {A : Type} (R R' : A -> A -> Prop) (l : list A) :
  (forall a b, R a b -> R' a b) -> StronglySorted R l -> StronglySorted R' l.
Proof.
  intros Himpl. induction 1 as [ | a l _ IH Ha ]; constructor; [ exact IH | ].
  eapply Forall_impl; [ | exact Ha ]. intros b. apply Himpl.
Qed.

Lemma StronglySorted_snoc {A : Type} (R : A -> A -> Prop) (l : list A) (a : A) :
  StronglySorted R l -> (forall b, In b l -> R b a) -> StronglySorted R (l ++ [a]).
Proof.
  induction 1 as [ | c l _ IH Hc ]; intros Ha; simpl.
  - repeat constructor.
  - constructor.
    + apply IH. intros b Hb. apply Ha. now right.
    + apply Forall_app. split; [ exact Hc | ]. repeat constructor. apply Ha. now left.
Qed.

(** A sorted array read backwards is sorted the other way round. *)
Lemma backwards_sorted {A : Type} (R : A -> A -> Prop) (l : list A) :
  StronglySorted R l -> StronglySorted (fun a b => R b a) (rev l).
Proof.
  induction 1 as [ | a l _ IH Ha ]; simpl; [ constructor | ].
  apply StronglySorted_snoc; [ exact IH | ].
  intros b Hb. apply in_rev in Hb. rewrite Forall_forall in Ha. now apply Ha.
Qed.

(** Two arrangements of the same sprites with the same sequence of distinct
    [zIndex] values are the same array. *)
Lemma same_zIndex_same_array (l1 l2 : list SpriteObject) :
  NoDup (map zIndex l1) -> Permutation l1 l2 -> map zIndex l1 = map zIndex l2 ->
  l1 = l2.
Proof.
  revert l2. induction l1 as [ | a l1 IH ]; intros l2 Hnodup Hperm Hkeys.
  - apply Permutation_nil in Hperm. now subst.
  - destruct l2 as [ | b l2 ]; [ discriminate Hkeys | ].
    simpl in Hkeys. injection Hkeys as Hab Hrest.
    inversion Hnodup as [ | ? ? Hnotin Hnodup' ]. subst.
    assert (Hb : In b (a :: l1))
      by (apply (Permutation_in _ (Permutation_sym Hperm)); now left).
    assert (Hsame : a = b).
    { destruct Hb as [Hb | Hb]; [ exact Hb | ].
      exfalso. apply Hnotin. rewrite Hab. now apply in_map. }
    subst b. f_equal. apply IH; trivial. now apply Permutation_cons_inv in Hperm.
Qed.

(** With distinct [zIndex] values, the sort of [hitTest] is the sort of
    [render] read backwards. *)
Lemma topmost_first_is_render_order_backwards (sprites : list SpriteObject) :
  NoDup (map zIndex sprites) ->
  topmost_first sprites = rev (sorted_by_zIndex sprites).
Proof.
  intros Hnodup.
  pose proof (Array_sort_perm (fun a b => zIndex b - zIndex a) sprites) as Hdown.
  pose proof (Array_sort_perm (fun a b => zIndex a - zIndex b) sprites) as Hup.
  fold (topmost_first sprites) in Hdown. fold (sorted_by_zIndex sprites) in Hup.
  assert (Hperm : Permutation (topmost_first sprites) (rev (sorted_by_zIndex sprites))).
  { rewrite Hdown, <- Permutation_rev. now symmetry. }
  apply same_zIndex_same_array; [ | exact Hperm | ].
  { apply (Permutation_NoDup (l := map zIndex sprites)); [ | exact Hnodup ].
    apply Permutation_map. now symmetry. }
  assert (Hneg : map (fun s => - zIndex s) (topmost_first sprites)
                 = map (fun s => - zIndex s) (rev (sorted_by_zIndex sprites))).
  { apply sorted_perm_unique.
    - apply sorted_keys. apply Array_sort_sorted. intros a b. lia.
    - apply sorted_keys.
      apply (StronglySorted_weaken (R := fun a b => key_le zIndex b a)).
      + unfold key_le. intros a b. lia.
      + apply backwards_sorted. apply Array_sort_sorted. intros a b. lia.
    - now apply Permutation_map. }
  rewrite <- (map_map zIndex Z.opp), <- (map_map zIndex Z.opp (rev _)) in Hneg.
  revert Hneg. generalize (map zIndex (topmost_first sprites)).
  generalize (map zIndex (rev (sorted_by_zIndex sprites))).
  intros l2 l1. revert l2. induction l1 as [ | a l1 IH ]; intros [ | b l2 ] H;
    try discriminate H; [ reflexivity | ].
  simpl in H. injection H as Hab Hrest. f_equal; [ lia | now apply IH ].
Qed.

Section PaintingOrder.
Variable measureText : string -> string -> CanvasRenderer.TextMetrics.
Variables centerX centerY : R.

(** The axes and the border, not a sprite. *)
Definition decoration (d : CanvasRenderer.Drawn) : Prop :=
  d = CanvasRenderer.Axes \/ d = CanvasRenderer.Border.

(** X20.  The sprite hit is the one painted last.  For sprites with
    distinct [zIndex] values, [render] paints the sprites in one order, axes
    and border before or after them all, and [hitTest] returns the id of the
    last sprite in that order whose box contains the point. *)
Theorem hit_sprite_is_the_last_painted
    (sprites : list SpriteObject) (worldX worldY : R) (customFont : string) :
  NoDup (map zIndex sprites) ->
  exists order,
    Permutation order sprites
    /\ (forall showOrigin axesOnTop borderOnTop : bool,
          exists before after,
            CanvasRenderer.render measureText centerX centerY sprites
              showOrigin axesOnTop borderOnTop customFont
            = (before
               ++ map (fun s => CanvasRenderer.drawSprite measureText centerX centerY
                                  s customFont) order
               ++ after)%list
            /\ Forall decoration before /\ Forall decoration after)
    /\ CanvasRenderer.hitTest measureText sprites worldX worldY customFont
       = option_map id
           (find (fun s => CanvasRenderer.isPointInSprite measureText s worldX worldY
                             customFont)
              (rev order)).
Proof.
  intros Hnodup. exists (sorted_by_zIndex sprites).
  split; [ apply Array_sort_perm | ]. split.
  - intros showOrigin axesOnTop borderOnTop.
    exists ((if showOrigin && negb axesOnTop then [CanvasRenderer.Axes] else [])
            ++ (if showOrigin && negb borderOnTop then [CanvasRenderer.Border] else []))%list.
    exists ((if showOrigin && axesOnTop then [CanvasRenderer.Axes] else [])
            ++ (if showOrigin && borderOnTop then [CanvasRenderer.Border] else []))%list.
    split.
    + unfold CanvasRenderer.render. fold (sorted_by_zIndex sprites).
      now rewrite <- !app_assoc.
    + unfold decoration.
      destruct showOrigin, axesOnTop, borderOnTop; simpl; split;
        repeat match goal with
               | |- Forall _ _ => constructor
               | |- _ \/ _ => first [ left; reflexivity | right; reflexivity ]
               end.
  - unfold CanvasRenderer.hitTest. fold (topmost_first sprites).
    now rewrite topmost_first_is_render_order_backwards.
Qed.

(** [paint] and [worldToLocal] are inverse to each other.  For a
    sprite with non-zero scales, the local point [worldToLocal] gives for a
    world point is painted at that world point, and it is the only local
    point painted there. *)
Lemma every_world_point_has_one_local_point
    (sprite : SpriteObject) (worldX worldY : R) :
  scaleX sprite <> 0%R -> scaleY sprite <> 0%R ->
  let world := {| Point.x := worldX; Point.y := worldY |} in
  CanvasRenderer.paint centerX centerY sprite (Gizmo.worldToLocal sprite worldX worldY)
  = world
  /\ forall p, CanvasRenderer.paint centerX centerY sprite p = world ->
               p = Gizmo.worldToLocal sprite worldX worldY.
Proof.
  intros Hsx Hsy world. split; [ now apply paint_worldToLocal | ].
  intros p Hp.
  pose proof (@worldToLocalWithScale_paint centerX centerY sprite p Hsx Hsy) as H.
  cbv zeta in H. rewrite Hp in H. symmetry. exact H.
Qed.

End PaintingOrder.

Lemma hit_sprite_is_the_last_painted_witness :
  exists order,
    Permutation order [upper; lower]
    /\ (forall showOrigin axesOnTop borderOnTop : bool,
          exists before after,
            CanvasRenderer.render box_metrics 400 300 [upper; lower]
              showOrigin axesOnTop borderOnTop "Arial"
            = (before
               ++ map (fun s => CanvasRenderer.drawSprite box_metrics 400 300 s "Arial")
                    order
               ++ after)%list
            /\ Forall decoration before /\ Forall decoration after)
    /\ CanvasRenderer.hitTest box_metrics [upper; lower] 0 0 "Arial"
       = option_map id
           (find (fun s => CanvasRenderer.isPointInSprite box_metrics s 0 0 "Arial")
              (rev order)).
Proof.
  apply (@hit_sprite_is_the_last_painted box_metrics 400 300 [upper; lower] 0 0 "Arial").
  repeat constructor; simpl; intuition discriminate.
Defined.

Lemma every_world_point_has_one_local_point_witness :
  CanvasRenderer.paint 400 300 moon (Gizmo.worldToLocal moon 30 40)
  = {| Point.x := 30; Point.y := 40 |}
  /\ forall p, CanvasRenderer.paint 400 300 moon p = {| Point.x := 30; Point.y := 40 |} ->
               p = Gizmo.worldToLocal moon 30 40.
Proof.
  apply (@every_world_point_has_one_local_point 400 300 moon 30 40); simpl; lra.
Defined.

(* ===================================================================== *)
(** * Pointer sessions of the gizmo                                      *)
(* ===================================================================== *)

Lemma modify_at_again {A : Type} (first second : A -> A) (ref : nat) (arr : list A) :
  (forall a, second (first a) = second a) ->
  modify_at ref second (modify_at ref first arr) = modify_at ref second arr.
Proof.
  intros H. revert ref. induction arr as [ | a arr IH ]; intros [ | ref ]; simpl; trivial.
  - now rewrite H.
  - now rewrite IH.
Qed.

(** An update that carries no id leaves the selected sprite selected, with
    the update applied, and touches neither stack nor the store. *)
Lemma updateSpriteWithoutSnapshot_selected
    (sm : StateManager.t) (selected : SpriteObject) (updates : SpriteUpdates) :
  getSelectedSprite sm = Some selected -> new_id updates = None ->
  let sm' := updateSpriteWithoutSnapshot (id selected) updates sm in
  getSelectedSprite sm' = Some (Object_assign selected updates)
  /\ (exists ref,
        find_ref (has_id (id selected)) (sprites (state sm)) = Some ref
        /\ nth_error (sprites (state sm)) ref = Some selected
        /\ state sm'
           = with_sprites (modify_at ref (fun s => Object_assign s updates)
                             (sprites (state sm))) (state sm))
  /\ undoStack sm' = undoStack sm /\ redoStack sm' = redoStack sm
  /\ localStorage sm' = localStorage sm.
Proof.
  intros Hsel Hid sm'.
  destruct (selected_sprite_ref _ Hsel) as [ref [Href [Hnth [Hselected Hne]]]].
  unfold sm', updateSpriteWithoutSnapshot. rewrite Href. cbn.
  repeat split; trivial.
  - unfold getSelectedSprite. cbn. rewrite Hselected.
    apply String.eqb_neq in Hne. rewrite Hne.
    apply (find_modify_at (has_id (id selected))
             (fun s => Object_assign s updates) _ Href Hnth).
    unfold has_id. cbn. rewrite Hid. apply String.eqb_refl.
  - exists ref. now repeat split.
Qed.

(** When the second update overwrites all the first has written, the first
    leaves no trace in the state. *)
Lemma updateSpriteWithoutSnapshot_again
    (i : string) (first second : SpriteUpdates) (sm : StateManager.t) :
  new_id first = None ->
  (forall s, Object_assign (Object_assign s first) second = Object_assign s second) ->
  state (updateSpriteWithoutSnapshot i second (updateSpriteWithoutSnapshot i first sm))
  = state (updateSpriteWithoutSnapshot i second sm).
Proof.
  intros Hid Hover. unfold updateSpriteWithoutSnapshot at 2 3.
  destruct (find_ref (has_id i) (sprites (state sm))) as [ref | ] eqn:Href.
  - unfold updateSpriteWithoutSnapshot. cbn.
    rewrite (@find_ref_same_ids i (sprites (state sm))
               (modify_at ref (fun s => Object_assign s first) (sprites (state sm)))).
    + rewrite Href. cbn. unfold with_sprites. cbn.
      now rewrite (modify_at_again _ _ ref (sprites (state sm)) Hover).
    + apply map_modify_at. intros s. cbn. now rewrite Hid.
  - unfold updateSpriteWithoutSnapshot. now rewrite Href.
Qed.

(** The scales [handleScaling] works out, when the session is complete. *)
Definition new_scales (g : Gizmo.t) (sprite : SpriteObject) (mousePos : Point.t)
    (shiftKey : bool) : option (R * R) :=
  match Gizmo.dragStartPos g, Gizmo.dragStartSpriteState g, Gizmo.dragStartLocalPos g with
  | Some _, Some start, Some startLocal =>
      let startScaleX := num_or (scaleX start) 1 in
      let startScaleY := num_or (scaleY start) 1 in
      let currentLocal :=
        Gizmo.worldToLocalWithScale (x sprite) (y sprite) (rotation sprite)
          startScaleX startScaleY (Point.x mousePos) (Point.y mousePos) in
      if shiftKey then
        Some (Math_max 0.1
                (Math_abs (if num_gt (Math_abs (Point.x startLocal)) 0.001
                           then startScaleX * (Point.x currentLocal / Point.x startLocal)
                           else startScaleX)),
              Math_max 0.1
                (Math_abs (if num_gt (Math_abs (Point.y startLocal)) 0.001
                           then startScaleY * (Point.y currentLocal / Point.y startLocal)
                           else startScaleY)))%R
      else
        let startDist :=
          Math_sqrt (Point.x startLocal * Point.x startLocal
                     + Point.y startLocal * Point.y startLocal) in
        let scaleRatio :=
          (if num_gt startDist 0.001
           then Math_sqrt (Point.x currentLocal * Point.x currentLocal
                           + Point.y currentLocal * Point.y currentLocal) / startDist
           else 1)%R in
        Some (Math_max 0.1 (startScaleX * scaleRatio),
              Math_max 0.1 (startScaleY * scaleRatio))%R
  | _, _, _ => None
  end.

Lemma handleScaling_new_scales (g : Gizmo.t) (sprite : SpriteObject) (mousePos : Point.t)
    (shiftKey : bool) (sm : StateManager.t) :
  Gizmo.handleScaling g sprite mousePos shiftKey sm
  = match new_scales g sprite mousePos shiftKey with
    | Some (sx, sy) => updateSpriteWithoutSnapshot (id sprite) (Gizmo.scale_updates sx sy) sm
    | None => sm
    end.
Proof.
  unfold Gizmo.handleScaling, new_scales.
  destruct (Gizmo.dragStartPos g), (Gizmo.dragStartSpriteState g),
    (Gizmo.dragStartLocalPos g); trivial.
  now destruct shiftKey.
Qed.

(** The update a pointer move of a session asks for, if any. *)
Definition pointer_update (g : Gizmo.t) (selected : SpriteObject) (mousePos : Point.t)
    (shiftKey : bool) : option SpriteUpdates :=
  match Gizmo.mode g, Gizmo.dragStartPos g, Gizmo.dragStartSpriteState g with
  | InteractionMode.None, _, _ => None
  | _, None, _ => None
  | _, _, None => None
  | InteractionMode.Dragging, Some startPos, Some start =>
      Some (Gizmo.position_updates
              (num_or (x start) 0 + (Point.x mousePos - Point.x startPos))
              (num_or (y start) 0 + (Point.y mousePos - Point.y startPos)))%R
  | InteractionMode.Rotating, Some _, Some _ =>
      Some (Gizmo.rotation_update
              (Gizmo.Math_atan2 (Point.y mousePos - y selected)
                 (Point.x mousePos - x selected) * 180 / Math_PI + 90))%R
  | _, Some _, Some _ =>
      option_map (fun scales : R * R => Gizmo.scale_updates (fst scales) (snd scales))
        (new_scales g selected mousePos shiftKey)
  end.

Lemma onPointerMove_update (g : Gizmo.t) (mousePos : Point.t) (shiftKey : bool)
    (sm : StateManager.t) :
  Gizmo.onPointerMove g mousePos shiftKey sm
  = match getSelectedSprite sm with
    | Some selected =>
        match pointer_update g selected mousePos shiftKey with
        | Some updates => updateSpriteWithoutSnapshot (id selected) updates sm
        | None => sm
        end
    | None => sm
    end.
Proof.
  unfold Gizmo.onPointerMove, pointer_update.
  destruct (getSelectedSprite sm) as [selected | ];
    destruct (Gizmo.mode g), (Gizmo.dragStartPos g) as [startPos | ],
      (Gizmo.dragStartSpriteState g) as [start | ] eqn:Hstart; trivial;
    try (rewrite handleScaling_new_scales;
         now destruct (new_scales g selected mousePos shiftKey) as [[sx sy] | ]).
  unfold Gizmo.handleRotation. now rewrite Hstart.
Qed.

(** The members an update of a session writes depend on the mode only, and
    the id is never one of them. *)
Lemma pointer_update_overwrites (g : Gizmo.t) (s1 s2 : SpriteObject) (p1 p2 : Point.t)
    (k1 k2 : bool) (u1 u2 : SpriteUpdates) :
  pointer_update g s1 p1 k1 = Some u1 -> pointer_update g s2 p2 k2 = Some u2 ->
  new_id u1 = None
  /\ forall s, Object_assign (Object_assign s u1) u2 = Object_assign s u2.
Proof.
  unfold pointer_update.
  destruct (Gizmo.mode g), (Gizmo.dragStartPos g), (Gizmo.dragStartSpriteState g);
    try discriminate;
    try (destruct (new_scales g s1 p1 k1), (new_scales g s2 p2 k2); try discriminate);
    cbn; intros H1 H2; injection H1 as <-; injection H2 as <-; now split.
Qed.

(** The update asked for reads of the selected sprite only what no update of
    the same session writes. *)
Lemma pointer_update_after (g : Gizmo.t) (selected : SpriteObject) (p1 p : Point.t)
    (k1 k : bool) (u1 : SpriteUpdates) :
  pointer_update g selected p1 k1 = Some u1 ->
  pointer_update g (Object_assign selected u1) p k = pointer_update g selected p k.
Proof.
  unfold pointer_update, new_scales.
  destruct (Gizmo.mode g), (Gizmo.dragStartPos g), (Gizmo.dragStartSpriteState g);
    try discriminate; trivial;
    try (destruct (Gizmo.dragStartLocalPos g); [ | discriminate ];
         destruct k1; cbn; intros H; injection H as <-; reflexivity).
  cbn. intros H. injection H as <-. reflexivity.
Qed.

(** A pointer move records nothing. *)
Lemma onPointerMove_history (g : Gizmo.t) (mousePos : Point.t) (shiftKey : bool)
    (sm : StateManager.t) :
  let sm' := Gizmo.onPointerMove g mousePos shiftKey sm in
  undoStack sm' = undoStack sm /\ redoStack sm' = redoStack sm
  /\ localStorage sm' = localStorage sm.
Proof.
  cbv zeta. rewrite onPointerMove_update.
  destruct (getSelectedSprite sm) as [selected | ]; [ | now repeat split ].
  destruct (pointer_update g selected mousePos shiftKey); [ | now repeat split ].
  unfold updateSpriteWithoutSnapshot. now destruct (find_ref _ _).
Qed.

Lemma onPointerMove_again (g : Gizmo.t) (p1 p2 : Point.t) (k1 k2 : bool)
    (sm : StateManager.t) :
  state (Gizmo.onPointerMove g p2 k2 (Gizmo.onPointerMove g p1 k1 sm))
  = state (Gizmo.onPointerMove g p2 k2 sm).
Proof.
  rewrite (onPointerMove_update g p1 k1 sm).
  destruct (getSelectedSprite sm) as [selected | ] eqn:Hsel; [ | reflexivity ].
  destruct (pointer_update g selected p1 k1) as [u1 | ] eqn:Hu1; [ | reflexivity ].
  assert (Hid1 : new_id u1 = None).
  { exact (proj1 (pointer_update_overwrites g _ _ _ _ _ _ Hu1 Hu1)). }
  destruct (updateSpriteWithoutSnapshot_selected sm u1 Hsel Hid1) as [Hsel1 _].
  rewrite !onPointerMove_update. rewrite Hsel1, Hsel.
  rewrite (pointer_update_after g selected p1 p2 k1 k2 Hu1).
  destruct (pointer_update g selected p2 k2) as [u2 | ] eqn:Hu2.
  - replace (id (Object_assign selected u1)) with (id selected)
      by (cbn; now rewrite Hid1).
    apply updateSpriteWithoutSnapshot_again; [ exact Hid1 | ].
    exact (proj2 (pointer_update_overwrites g _ _ _ _ _ _ Hu1 Hu2)).
  - (* no update for the second move: none for the first either *)
    exfalso. revert Hu1 Hu2. unfold pointer_update, new_scales.
    destruct (Gizmo.mode g), (Gizmo.dragStartPos g), (Gizmo.dragStartSpriteState g);
      try discriminate;
      destruct (Gizmo.dragStartLocalPos g); try discriminate;
      destruct k2; discriminate.
Qed.

(** The pointer moves of one session, in the order of the events. *)
Definition drag (g : Gizmo.t) (moves : list (Point.t * bool)) (sm : StateManager.t)
  : StateManager.t :=
  fold_left (fun sm0 move => Gizmo.onPointerMove g (fst move) (snd move) sm0) moves sm.

Lemma drag_history (g : Gizmo.t) (moves : list (Point.t * bool)) (sm : StateManager.t) :
  undoStack (drag g moves sm) = undoStack sm
  /\ redoStack (drag g moves sm) = redoStack sm
  /\ localStorage (drag g moves sm) = localStorage sm.
Proof.
  revert sm. induction moves as [ | move moves IH ]; intros sm; [ now repeat split | ].
  change (drag g (move :: moves) sm)
    with (drag g moves (Gizmo.onPointerMove g (fst move) (snd move) sm)).
  destruct (IH (Gizmo.onPointerMove g (fst move) (snd move) sm)) as (-> & -> & ->).
  apply onPointerMove_history.
Qed.

(** X21.  The pointer moves of a session do not add up: after any sequence
    of moves, the state is the one the last move alone gives from the state
    at the start, whatever the mode, the positions passed through and the
    shift key on the way; and neither stack nor the store has changed. *)
Theorem only_the_last_pointer_move_counts
    (g : Gizmo.t) (moves : list (Point.t * bool)) (mousePos : Point.t) (shiftKey : bool)
    (sm : StateManager.t) :
  let moved := drag g (moves ++ [(mousePos, shiftKey)]) sm in
  state moved = state (Gizmo.onPointerMove g mousePos shiftKey sm)
  /\ undoStack moved = undoStack sm /\ redoStack moved = redoStack sm
  /\ localStorage moved = localStorage sm.
Proof.
  cbv zeta. split; [ | apply drag_history ].
  unfold drag. rewrite fold_left_app. cbn. fold (drag g moves sm).
  revert sm. induction moves as [ | move moves IH ]; intros sm; [ reflexivity | ].
  change (drag g (move :: moves) sm)
    with (drag g moves (Gizmo.onPointerMove g (fst move) (snd move) sm)).
  rewrite IH. apply onPointerMove_again.
Qed.

(** X22.  A drag is one undo step.  Over a manager whose state is the one
    recorded on top of the undo stack, the moves of a session record
    nothing and the release records once: when the moves have changed the
    state, the release pushes one entry and hands its text to the storage,
    which holds it afterwards unless [setItem] throws, and is left as it was
    if it does; an [undo] right after gives back the state from before the
    first move, with the state dragged to as the one entry of the redo
    stack.  The release ends the session. *)
Theorem drag_is_one_undo_step
    (g : Gizmo.t) (moves : list (Point.t * bool)) (sm : StateManager.t) :
  Gizmo.mode g <> InteractionMode.None ->
  recorded_on_top sm ->
  let dragged := drag g moves sm in
  let released := snd (Gizmo.onPointerUp g dragged) in
  undoStack dragged = undoStack sm
  /\ Gizmo.mode (fst (Gizmo.onPointerUp g dragged)) = InteractionMode.None
  /\ state released = state dragged
  /\ recorded_on_top released
  /\ (state dragged <> state sm ->
      undoStack released = bounded (push (undoStack sm) (serialize (state dragged)))
      /\ (refuses (localStorage sm) (serialize (state dragged)) = false ->
          getItem (localStorage released) = Some (serialize (state dragged)))
      /\ (refuses (localStorage sm) (serialize (state dragged)) = true ->
          localStorage released = localStorage sm)
      /\ exists sm2,
           undo released = Return (Typed sm2)
           /\ state sm2 = state sm
           /\ redoStack sm2 = [serialize (state dragged)]).
Proof.
  intros Hmode [top [Htop Hparse]] dragged released.
  destruct (drag_history g moves sm) as (Hundo & _ & Hstorage).
  fold dragged in Hundo, Hstorage.
  assert (Hreleased : released = saveSnapshot dragged).
  { unfold released, Gizmo.onPointerUp. cbn [snd].
    destruct (Gizmo.mode g); trivial. now contradiction Hmode. }
  assert (Hstate : state released = state dragged)
    by (rewrite Hreleased; apply saveSnapshot_state).
  split; [ exact Hundo | ]. split; [ reflexivity | ]. split; [ exact Hstate | ].
  split; [ rewrite Hreleased; apply saveSnapshot_recorded | ].
  intros Hchanged.
  assert (Hdiffers : top_differs (undoStack dragged) (serialize (state dragged)) = true).
  { apply top_differs_true. rewrite Hundo, Htop. intros E. injection E as ->.
    apply Hchanged. apply json_of_state_inj.
    unfold serialize, JSON_stringify in Hparse. cbn in Hparse. congruence. }
  assert (Hstack : undoStack released
                   = bounded (push (undoStack sm) (serialize (state dragged)))).
  { rewrite Hreleased. unfold saveSnapshot. fold (serialize (state dragged)).
    rewrite Hdiffers. cbn [undoStack]. now rewrite Hundo. }
  split; [ exact Hstack | ].
  assert (Hwritten : localStorage released
                     = store_snapshot (serialize (state dragged)) (localStorage sm)).
  { rewrite Hreleased. unfold saveSnapshot. fold (serialize (state dragged)).
    rewrite Hdiffers. cbn [localStorage]. now rewrite Hstorage. }
  split; [ intros Hwrite; rewrite Hwritten; now apply store_snapshot_accepted | ].
  split; [ intros Hwrite; rewrite Hwritten; now apply store_snapshot_refused | ].
  assert (Hcall : call FinalizeChanges dragged = Return (Typed released))
    by (rewrite Hreleased; reflexivity).
  assert (Hpushed : undoStack released <> undoStack dragged).
  { intros E. apply (f_equal (@last_entry JSONText)) in E.
    rewrite Hstack, last_entry_bounded_push, Hundo, Htop in E.
    apply top_differs_true in Hdiffers. rewrite Hundo, Htop in Hdiffers. congruence. }
  rewrite <- Hundo in Htop.
  destruct (@undo_after_change FinalizeChanges dragged released top (state sm))
    as (sm2 & Hsm2 & Hback & _ & Hredo & _); trivial; try discriminate.
  exists sm2. rewrite Hstate in Hredo. now repeat split.
Qed.

Lemma drag_is_one_undo_step_witness :
  let sm := saveSnapshot star_selected in
  let dragged := drag star_session [(pointer, false)] sm in
  let released := snd (Gizmo.onPointerUp star_session dragged) in
  undoStack dragged = undoStack sm
  /\ Gizmo.mode (fst (Gizmo.onPointerUp star_session dragged)) = InteractionMode.None
  /\ state released = state dragged
  /\ recorded_on_top released
  /\ (state dragged <> state sm ->
      undoStack released = bounded (push (undoStack sm) (serialize (state dragged)))
      /\ (refuses (localStorage sm) (serialize (state dragged)) = false ->
          getItem (localStorage released) = Some (serialize (state dragged)))
      /\ (refuses (localStorage sm) (serialize (state dragged)) = true ->
          localStorage released = localStorage sm)
      /\ exists sm2,
           undo released = Return (Typed sm2)
           /\ state sm2 = state sm
           /\ redoStack sm2 = [serialize (state dragged)]).
Proof.
  apply (@drag_is_one_undo_step star_session [(pointer, false)]
           (saveSnapshot star_selected)).
  - discriminate.
  - apply saveSnapshot_recorded.
Defined.

(** ** Scaling sessions *)

Lemma num_or_never_zero (v d : R) : d <> 0%R -> num_or v d <> 0%R.
Proof.
  intros Hd. unfold num_or. destruct (num_eq v 0) eqn:E; [ exact Hd | ].
  now apply num_eq_false in E.
Qed.

(** A move of a complete scaling session leaves the selected sprite
    selected, with the scales [handleScaling] has worked out. *)
Lemma scaling_move_selected (g : Gizmo.t) (mousePos : Point.t) (shiftKey : bool)
    (sm : StateManager.t) (selected start : SpriteObject) (startPos grabbed : Point.t) :
  getSelectedSprite sm = Some selected ->
  corner_mode (Gizmo.mode g) ->
  Gizmo.dragStartPos g = Some startPos ->
  Gizmo.dragStartSpriteState g = Some start ->
  Gizmo.dragStartLocalPos g = Some grabbed ->
  exists sx sy,
    new_scales g selected mousePos shiftKey = Some (sx, sy)
    /\ getSelectedSprite (Gizmo.onPointerMove g mousePos shiftKey sm)
       = Some (Object_assign selected (Gizmo.scale_updates sx sy)).
Proof.
  intros Hsel Hmode Hpos Hstart Hlocal.
  destruct (new_scales g selected mousePos shiftKey) as [[sx sy] | ] eqn:Hscales.
  - exists sx, sy. split; [ reflexivity | ].
    rewrite onPointerMove_update, Hsel.
    assert (Hupdate : pointer_update g selected mousePos shiftKey
                      = Some (Gizmo.scale_updates sx sy)).
    { unfold pointer_update. rewrite Hpos, Hstart, Hscales.
      now destruct Hmode as [-> | [-> | [-> | ->]]]. }
    rewrite Hupdate.
    now apply updateSpriteWithoutSnapshot_selected.
  - exfalso. revert Hscales. unfold new_scales. rewrite Hpos, Hstart, Hlocal.
    now destruct shiftKey.
Qed.

Section ScalingSessions.
#[local] Open Scope R_scope.
Variables centerX centerY : R.

(** X23.  With the shift key, a scaling move pins the grab point on each
    axis.  In a corner session whose grab point is off both axes of the
    sprite, a move to a pointer position whose coordinates in the unscaled
    frame of the sprite are at least a tenth of the grab point's sets
    each scale to the quotient of the two, whatever the scales at the start;
    under the new scales the grab point is painted under the pointer.
    Nothing else of the sprite changes. *)
Theorem shift_scaling_pins_the_grab_point
    (g : Gizmo.t) (sm : StateManager.t) (selected start : SpriteObject)
    (startPos grabbed mousePos : Point.t) :
  getSelectedSprite sm = Some selected ->
  corner_mode (Gizmo.mode g) ->
  Gizmo.dragStartPos g = Some startPos ->
  Gizmo.dragStartSpriteState g = Some start ->
  Gizmo.dragStartLocalPos g = Some grabbed ->
  let unscaled :=
    Gizmo.worldToLocalWithScale (x selected) (y selected) (rotation selected) 1 1
      (Point.x mousePos) (Point.y mousePos) in
  0.001 < Rabs (Point.x grabbed) -> 0.001 < Rabs (Point.y grabbed) ->
  0.1 <= Point.x unscaled / Point.x grabbed ->
  0.1 <= Point.y unscaled / Point.y grabbed ->
  exists scaled,
    getSelectedSprite (Gizmo.onPointerMove g mousePos true sm) = Some scaled
    /\ scaleX scaled = Point.x unscaled / Point.x grabbed
    /\ scaleY scaled = Point.y unscaled / Point.y grabbed
    /\ Gizmo.worldToLocal scaled (Point.x mousePos) (Point.y mousePos) = grabbed
    /\ CanvasRenderer.paint centerX centerY scaled grabbed = mousePos
    /\ scaled = Object_assign selected
                  (Gizmo.scale_updates (scaleX scaled) (scaleY scaled)).
Proof.
  intros Hsel Hmode Hpos Hstart Hlocal unscaled Hgx Hgy Hx Hy.
  destruct (@scaling_move_selected g mousePos true sm selected start startPos grabbed
              Hsel Hmode Hpos Hstart Hlocal) as (sx & sy & Hscales & Hmoved).
  unfold new_scales in Hscales. rewrite Hpos, Hstart, Hlocal in Hscales.
  cbv zeta in Hscales.
  unfold Math_abs in Hscales.
  rewrite (num_gt_true Hgx), (num_gt_true Hgy) in Hscales.
  set (startScaleX := num_or (scaleX start) 1) in Hscales.
  set (startScaleY := num_or (scaleY start) 1) in Hscales.
  assert (HsX : startScaleX <> 0) by (apply num_or_never_zero; lra).
  assert (HsY : startScaleY <> 0) by (apply num_or_never_zero; lra).
  assert (Hgx0 : Point.x grabbed <> 0)
    by (intros E; rewrite E, Rabs_R0 in Hgx; lra).
  assert (Hgy0 : Point.y grabbed <> 0)
    by (intros E; rewrite E, Rabs_R0 in Hgy; lra).
  unfold Gizmo.worldToLocalWithScale in Hscales, unscaled.
  cbn [Point.x Point.y] in Hscales.
  set (rad := - rotation selected * Math_PI / 180) in *.
  set (rx := (Point.x mousePos - x selected) * cos rad
             - (Point.y mousePos - y selected) * sin rad) in *.
  set (ry := (Point.x mousePos - x selected) * sin rad
             + (Point.y mousePos - y selected) * cos rad) in *.
  unfold unscaled in *. cbn [Point.x Point.y] in *.
  replace (startScaleX * (rx / startScaleX / Point.x grabbed))
    with (rx / 1 / Point.x grabbed) in Hscales by (field; now split).
  replace (startScaleY * (ry / startScaleY / Point.y grabbed))
    with (ry / 1 / Point.y grabbed) in Hscales by (field; now split).
  unfold Math_max in Hscales.
  rewrite (Rabs_pos_eq (rx / 1 / Point.x grabbed)) in Hscales by lra.
  rewrite (Rabs_pos_eq (ry / 1 / Point.y grabbed)) in Hscales by lra.
  rewrite (Rmax_right _ _ Hx), (Rmax_right _ _ Hy) in Hscales.
  injection Hscales as <- <-.
  assert (Hrx : rx <> 0).
  { intros E. rewrite E in Hx. unfold Rdiv in Hx. rewrite !Rmult_0_l in Hx. lra. }
  assert (Hry : ry <> 0).
  { intros E. rewrite E in Hy. unfold Rdiv in Hy. rewrite !Rmult_0_l in Hy. lra. }
  set (scaled := Object_assign selected
                   (Gizmo.scale_updates (rx / 1 / Point.x grabbed)
                      (ry / 1 / Point.y grabbed))) in *.
  assert (Hback : Gizmo.worldToLocal scaled (Point.x mousePos) (Point.y mousePos)
                  = grabbed).
  { unfold Gizmo.worldToLocal, Gizmo.worldToLocalWithScale. cbn.
    fold rad. fold rx. fold ry.
    apply point_eq; cbn [Point.x Point.y]; field; now split. }
  exists scaled. repeat split; trivial.
  rewrite <- Hback. destruct mousePos as [mx my]. cbn [Point.x Point.y].
  apply paint_worldToLocal; cbn; lra.
Qed.

(** X24.  Without the shift key, a scaling move keeps the proportions and
    the distance of the grab point.  Both scales of the start are multiplied
    by the quotient of the distances to the sprite's centre of the pointer,
    in the frame of the start scales, and of the grab point; when neither
    product is under a tenth, the pointer is, in the new frame of the
    sprite, as far from the centre as the grab point, and it is on the grab
    point itself when it has moved along the ray from the centre through
    it. *)
Theorem uniform_scaling_keeps_the_grab_distance
    (g : Gizmo.t) (sm : StateManager.t) (selected start : SpriteObject)
    (startPos grabbed mousePos : Point.t) :
  getSelectedSprite sm = Some selected ->
  corner_mode (Gizmo.mode g) ->
  Gizmo.dragStartPos g = Some startPos ->
  Gizmo.dragStartSpriteState g = Some start ->
  Gizmo.dragStartLocalPos g = Some grabbed ->
  let startScaleX := num_or (scaleX start) 1 in
  let startScaleY := num_or (scaleY start) 1 in
  let current :=
    Gizmo.worldToLocalWithScale (x selected) (y selected) (rotation selected)
      startScaleX startScaleY (Point.x mousePos) (Point.y mousePos) in
  let distance (p : Point.t) := sqrt (Point.x p * Point.x p + Point.y p * Point.y p) in
  let ratio := distance current / distance grabbed in
  0.001 < distance grabbed ->
  0.1 <= startScaleX * ratio -> 0.1 <= startScaleY * ratio ->
  exists scaled,
    getSelectedSprite (Gizmo.onPointerMove g mousePos false sm) = Some scaled
    /\ scaleX scaled = startScaleX * ratio
    /\ scaleY scaled = startScaleY * ratio
    /\ scaled = Object_assign selected
                  (Gizmo.scale_updates (scaleX scaled) (scaleY scaled))
    /\ distance (Gizmo.worldToLocal scaled (Point.x mousePos) (Point.y mousePos))
       = distance grabbed
    /\ forall t, 0 < t ->
         Point.x current = t * Point.x grabbed ->
         Point.y current = t * Point.y grabbed ->
         Gizmo.worldToLocal scaled (Point.x mousePos) (Point.y mousePos) = grabbed
         /\ CanvasRenderer.paint centerX centerY scaled grabbed = mousePos.
Proof.
  intros Hsel Hmode Hpos Hstart Hlocal startScaleX startScaleY current distance ratio
    Hgrab Hx Hy.
  destruct (@scaling_move_selected g mousePos false sm selected start startPos grabbed
              Hsel Hmode Hpos Hstart Hlocal) as (sx & sy & Hscales & Hmoved).
  unfold new_scales in Hscales. rewrite Hpos, Hstart, Hlocal in Hscales.
  cbv zeta in Hscales. fold startScaleX startScaleY in Hscales. fold current in Hscales.
  unfold Math_sqrt in Hscales. fold (distance grabbed) in Hscales.
  fold (distance current) in Hscales.
  rewrite (num_gt_true Hgrab) in Hscales. fold ratio in Hscales.
  unfold Math_max in Hscales.
  rewrite (Rmax_right _ _ Hx), (Rmax_right _ _ Hy) in Hscales.
  injection Hscales as <- <-.
  assert (HsX : startScaleX <> 0) by (apply num_or_never_zero; lra).
  assert (HsY : startScaleY <> 0) by (apply num_or_never_zero; lra).
  assert (Hdist : 0 <= distance current) by apply sqrt_pos.
  assert (Hratio : 0 < ratio).
  { assert (H0 : 0 <= ratio).
    { unfold ratio. apply Rmult_le_pos; [ exact Hdist | ].
      left. apply Rinv_0_lt_compat. lra. }
    destruct H0 as [H0 | H0]; [ exact H0 | ].
    rewrite <- H0, Rmult_0_r in Hx. lra. }
  set (scaled := Object_assign selected
                   (Gizmo.scale_updates (startScaleX * ratio) (startScaleY * ratio)))
    in *.
  assert (Hnew : Gizmo.worldToLocal scaled (Point.x mousePos) (Point.y mousePos)
                 = {| Point.x := Point.x current / ratio;
                      Point.y := Point.y current / ratio |}).
  { unfold Gizmo.worldToLocal, current, Gizmo.worldToLocalWithScale. cbn.
    apply point_eq; cbn [Point.x Point.y]; field; split; trivial; lra. }
  exists scaled. split; [ exact Hmoved | ]. do 3 (split; [ reflexivity | ]). split.
  - rewrite Hnew. unfold distance at 1. cbn [Point.x Point.y].
    assert (Hsquare : Point.x current * Point.x current
                      + Point.y current * Point.y current
                      = distance current * distance current).
    { unfold distance. rewrite sqrt_sqrt; [ reflexivity | ]. nra. }
    replace (Point.x current / ratio * (Point.x current / ratio)
             + Point.y current / ratio * (Point.y current / ratio))
      with ((Point.x current * Point.x current + Point.y current * Point.y current)
            / (ratio * ratio)) by (field; lra).
    rewrite Hsquare.
    assert (Hcurrent : distance current = ratio * distance grabbed)
      by (unfold ratio; field; lra).
    rewrite Hcurrent.
    replace (ratio * distance grabbed * (ratio * distance grabbed) / (ratio * ratio))
      with (distance grabbed * distance grabbed) by (field; lra).
    apply sqrt_square. lra.
  - intros t Ht Hcx Hcy.
    assert (Hgrabbed : 0 <= Point.x grabbed * Point.x grabbed
                            + Point.y grabbed * Point.y grabbed) by nra.
    assert (Hrt : ratio = t).
    { unfold ratio, distance at 1. rewrite Hcx, Hcy.
      replace (t * Point.x grabbed * (t * Point.x grabbed)
               + t * Point.y grabbed * (t * Point.y grabbed))
        with (t * t * (Point.x grabbed * Point.x grabbed
                       + Point.y grabbed * Point.y grabbed)) by ring.
      rewrite sqrt_mult; [ | nra | exact Hgrabbed ].
      rewrite sqrt_square by lra. fold (distance grabbed). field. lra. }
    assert (Hback : Gizmo.worldToLocal scaled (Point.x mousePos) (Point.y mousePos)
                    = grabbed).
    { rewrite Hnew, Hcx, Hcy, Hrt.
      apply point_eq; cbn [Point.x Point.y]; field; lra. }
    split; [ exact Hback | ].
    rewrite <- Hback. destruct mousePos as [mx my]. cbn [Point.x Point.y].
    apply paint_worldToLocal; cbn; nra.
Qed.

End ScalingSessions.

(** The frame of an unrotated sprite. *)
Lemma unrotated_local (spriteX spriteY scaleX scaleY worldX worldY : R) :
  Gizmo.worldToLocalWithScale spriteX spriteY 0 scaleX scaleY worldX worldY
  = {| Point.x := ((worldX - spriteX) / scaleX)%R;
       Point.y := ((worldY - spriteY) / scaleY)%R |}.
Proof.
  unfold Gizmo.worldToLocalWithScale.
  replace (- 0 * Math_PI / 180)%R with 0%R by (unfold Rdiv; ring).
  rewrite cos_0, sin_0. apply point_eq; cbn [Point.x Point.y]; unfold Rdiv; ring.
Qed.

Lemma shift_scaling_pins_the_grab_point_witness :
  let unscaled :=
    Gizmo.worldToLocalWithScale (x star) (y star) (rotation star) 1 1
      (Point.x pointer) (Point.y pointer) in
  exists scaled,
    getSelectedSprite (Gizmo.onPointerMove star_session pointer true star_selected)
    = Some scaled
    /\ scaleX scaled = (Point.x unscaled / Point.x grab)%R
    /\ scaleY scaled = (Point.y unscaled / Point.y grab)%R
    /\ Gizmo.worldToLocal scaled (Point.x pointer) (Point.y pointer) = grab
    /\ CanvasRenderer.paint 400 300 scaled grab = pointer
    /\ scaled = Object_assign star
                  (Gizmo.scale_updates (scaleX scaled) (scaleY scaled)).
Proof.
  apply (@shift_scaling_pins_the_grab_point 400 300 star_session star_selected
           star star grab grab pointer); try reflexivity.
  - right; right; right; reflexivity.
  - cbn. rewrite Rabs_pos_eq; lra.
  - cbn. rewrite Rabs_pos_eq; lra.
  - change (rotation star) with 0%R. rewrite unrotated_local. cbn. lra.
  - change (rotation star) with 0%R. rewrite unrotated_local. cbn. lra.
Defined.

Lemma uniform_scaling_keeps_the_grab_distance_witness :
  let startScaleX := num_or (scaleX star) 1 in
  let startScaleY := num_or (scaleY star) 1 in
  let current :=
    Gizmo.worldToLocalWithScale (x star) (y star) (rotation star)
      startScaleX startScaleY (Point.x pointer) (Point.y pointer) in
  let distance (p : Point.t) :=
    sqrt (Point.x p * Point.x p + Point.y p * Point.y p) in
  let ratio := (distance current / distance grab)%R in
  exists scaled,
    getSelectedSprite (Gizmo.onPointerMove star_session pointer false star_selected)
    = Some scaled
    /\ scaleX scaled = (startScaleX * ratio)%R
    /\ scaleY scaled = (startScaleY * ratio)%R
    /\ scaled = Object_assign star
                  (Gizmo.scale_updates (scaleX scaled) (scaleY scaled))
    /\ distance (Gizmo.worldToLocal scaled (Point.x pointer) (Point.y pointer))
       = distance grab
    /\ forall t, (0 < t)%R ->
         Point.x current = (t * Point.x grab)%R ->
         Point.y current = (t * Point.y grab)%R ->
         Gizmo.worldToLocal scaled (Point.x pointer) (Point.y pointer) = grab
         /\ CanvasRenderer.paint 400 300 scaled grab = pointer.
Proof.
  assert (Hscale : num_or 1 1 = 1%R) by (apply num_or_nonzero; lra).
  assert (Hratio :
    (sqrt (Point.x (Gizmo.worldToLocalWithScale (x star) (y star) (rotation star)
                      (num_or (scaleX star) 1) (num_or (scaleY star) 1)
                      (Point.x pointer) (Point.y pointer))
           * Point.x (Gizmo.worldToLocalWithScale (x star) (y star) (rotation star)
                        (num_or (scaleX star) 1) (num_or (scaleY star) 1)
                        (Point.x pointer) (Point.y pointer))
           + Point.y (Gizmo.worldToLocalWithScale (x star) (y star) (rotation star)
                        (num_or (scaleX star) 1) (num_or (scaleY star) 1)
                        (Point.x pointer) (Point.y pointer))
             * Point.y (Gizmo.worldToLocalWithScale (x star) (y star) (rotation star)
                          (num_or (scaleX star) 1) (num_or (scaleY star) 1)
                          (Point.x pointer) (Point.y pointer)))
     / sqrt (Point.x grab * Point.x grab + Point.y grab * Point.y grab) = 2)%R).
  { change (rotation star) with 0%R. rewrite unrotated_local. cbn. rewrite Hscale.
    replace ((20 - 0) / 1)%R with 20%R by field. exact doubled_distance. }
  apply (@uniform_scaling_keeps_the_grab_distance 400 300 star_session star_selected
           star star grab grab pointer); try reflexivity.
  - right; right; right; reflexivity.
  - exact sqrt_200_positive.
  - rewrite Hratio. change (scaleX star) with 1%R. rewrite Hscale. lra.
  - rewrite Hratio. change (scaleY star) with 1%R. rewrite Hscale. lra.
Defined.

(** ** Rotating sessions *)

Section Polar.
#[local] Open Scope R_scope.

Lemma atan_polar (dx dy : R) :
  dx <> 0 ->
  let dist := sqrt (dx * dx + dy * dy) in
  0 < dist
  /\ cos (atan (dy / dx)) = Rabs dx / dist
  /\ sin (atan (dy / dx)) = dy / dx * Rabs dx / dist.
Proof.
  intros Hdx dist.
  assert (Hsquare : 0 < dx * dx) by nra.
  assert (Hdist : 0 < dist) by (apply sqrt_lt_R0; nra).
  assert (Habs : 0 < Rabs dx) by now apply Rabs_pos_lt.
  assert (Hroot : sqrt (1 + (dy / dx)²) = dist / Rabs dx).
  { replace (1 + (dy / dx)²) with ((dx * dx + dy * dy) / dx²)
      by (unfold Rsqr; field; exact Hdx).
    rewrite sqrt_div_alt by (unfold Rsqr; exact Hsquare).
    now rewrite sqrt_Rsqr_abs. }
  split; [ exact Hdist | ].
  rewrite cos_atan, sin_atan, Hroot. split; field; repeat split; lra.
Qed.

(** [Math.atan2] gives the direction of a vector that is not null. *)
Lemma Math_atan2_polar (dx dy : R) :
  dx <> 0 \/ dy <> 0 ->
  let dist := sqrt (dx * dx + dy * dy) in
  0 < dist
  /\ cos (Gizmo.Math_atan2 dy dx) = dx / dist
  /\ sin (Gizmo.Math_atan2 dy dx) = dy / dist.
Proof.
  intros Hvector dist. unfold Gizmo.Math_atan2, num_gt, num_ge.
  destruct (Rlt_dec 0 dx) as [Hpos | Hnotpos].
  - destruct (@atan_polar dx dy) as (Hdist & Hcos & Hsin); [ lra | ].
    fold dist in Hdist, Hcos, Hsin.
    rewrite Rabs_pos_eq in Hcos, Hsin by lra.
    split; [ exact Hdist | ]. rewrite Hcos, Hsin. split; [ reflexivity | ].
    field. repeat split; lra.
  - destruct (Rlt_dec dx 0) as [Hneg | Hnotneg].
    + destruct (@atan_polar dx dy) as (Hdist & Hcos & Hsin); [ lra | ].
      fold dist in Hdist, Hcos, Hsin.
      rewrite Rabs_left in Hcos, Hsin by lra.
      split; [ exact Hdist | ].
      destruct (Rle_dec 0 dy).
      * rewrite neg_cos, neg_sin, Hcos, Hsin. split; field; repeat split; lra.
      * rewrite cos_minus, sin_minus, cos_PI, sin_PI, Hcos, Hsin.
        split; field; repeat split; lra.
    + assert (Hdx : dx = 0) by lra.
      assert (Hroot : dist = Rabs dy).
      { unfold dist. rewrite Hdx. rewrite <- sqrt_Rsqr_abs. f_equal. unfold Rsqr. ring. }
      destruct (Rlt_dec 0 dy) as [Hup | Hnotup].
      * rewrite Rabs_pos_eq in Hroot by lra.
        rewrite cos_PI2, sin_PI2, Hroot, Hdx. repeat split; [ lra | | ]; field; repeat split; lra.
      * destruct (Rlt_dec dy 0) as [Hdown | Hnotdown]; [ | lra ].
        rewrite Rabs_left in Hroot by lra.
        replace (- PI / 2) with (- (PI / 2)) by (unfold Rdiv; ring).
        rewrite cos_neg, sin_neg, cos_PI2, sin_PI2, Hroot, Hdx.
        repeat split; [ lra | | ]; field; repeat split; lra.
Qed.

(** A point on the axis of the rotation handle, turned by the rotation a
    rotating move sets. *)
Lemma rotatePoint_towards (dx dy localY : R) :
  dx <> 0 \/ dy <> 0 ->
  let dist := sqrt (dx * dx + dy * dy) in
  CanvasRenderer.rotatePoint 0 localY (Gizmo.Math_atan2 dy dx * 180 / Math_PI + 90)
  = {| Point.x := - localY * dx / dist; Point.y := - localY * dy / dist |}.
Proof.
  intros Hvector dist.
  destruct (Math_atan2_polar Hvector) as (Hdist & Hcos & Hsin).
  fold dist in Hdist, Hcos, Hsin.
  unfold CanvasRenderer.rotatePoint. unfold Math_PI.
  replace ((Gizmo.Math_atan2 dy dx * 180 / PI + 90) * PI / 180)
    with (Gizmo.Math_atan2 dy dx + PI / 2) by (field; apply PI_neq0).
  rewrite cos_plus, sin_plus, cos_PI2, sin_PI2, Hcos, Hsin.
  apply point_eq; cbn [Point.x Point.y]; field; repeat split; lra.
Qed.

End Polar.

Section RotatingSessions.
#[local] Open Scope R_scope.
Variable measureText : string -> string -> CanvasRenderer.TextMetrics.
Variable fontFamily : string.

(** X25.  A rotating move turns the rotation handle towards the pointer.
    In a rotating session, a move to a pointer that is not on the centre of
    the selected sprite changes the rotation of the sprite and nothing else,
    and puts the rotation handle that [getHandles] then gives on the line
    from the centre through the pointer, at the reach of the handle (half
    the margined height of the bounds and the handle offset) from the
    centre, whatever the rotation was and wherever the session started. *)
Theorem rotation_handle_follows_the_pointer
    (g : Gizmo.t) (sm : StateManager.t) (selected start : SpriteObject)
    (startPos mousePos : Point.t) (shiftKey : bool) :
  getSelectedSprite sm = Some selected ->
  Gizmo.mode g = InteractionMode.Rotating ->
  Gizmo.dragStartPos g = Some startPos ->
  Gizmo.dragStartSpriteState g = Some start ->
  Point.x mousePos <> x selected \/ Point.y mousePos <> y selected ->
  let dx := Point.x mousePos - x selected in
  let dy := Point.y mousePos - y selected in
  let dist := sqrt (dx * dx + dy * dy) in
  let bounds := CanvasRenderer.getSpriteBounds measureText selected fontFamily in
  let reach :=
    (Bounds.height bounds + Gizmo.BOUNDS_MARGIN * 2) / 2 + Gizmo.ROTATION_HANDLE_OFFSET in
  exists rotated handle,
    getSelectedSprite (Gizmo.onPointerMove g mousePos shiftKey sm) = Some rotated
    /\ rotated = Object_assign selected (Gizmo.rotation_update (rotation rotated))
    /\ find (fun h => Gizmo.is_rotating (Handle.mode h))
         (Gizmo.getHandles measureText fontFamily rotated) = Some handle
    /\ Handle.x handle = x selected + reach * dx / dist
    /\ Handle.y handle = y selected + reach * dy / dist.
Proof.
  intros Hsel Hmode Hpos Hstart Haway dx dy dist bounds reach.
  assert (Hvector : dx <> 0 \/ dy <> 0) by (unfold dx, dy; lra).
  set (degrees := Gizmo.Math_atan2 dy dx * 180 / Math_PI + 90).
  assert (Hupdate : pointer_update g selected mousePos shiftKey
                    = Some (Gizmo.rotation_update degrees)).
  { unfold pointer_update. now rewrite Hmode, Hpos, Hstart. }
  exists (Object_assign selected (Gizmo.rotation_update degrees)).
  eexists. split.
  { rewrite onPointerMove_update, Hsel, Hupdate.
    now apply updateSpriteWithoutSnapshot_selected. }
  split; [ reflexivity | ]. split; [ reflexivity | ].
  cbn [Handle.x Handle.y Object_assign Gizmo.rotation_update or_keep x y rotation
       new_x new_y new_rotation].
  unfold degrees. rewrite (rotatePoint_towards _ Hvector). fold dist.
  cbn [Point.x Point.y]. unfold reach, bounds.
  destruct (Math_atan2_polar Hvector) as (Hdist & _). fold dist in Hdist.
  change (CanvasRenderer.getSpriteBounds measureText
            (Object_assign selected
               (Gizmo.rotation_update (Gizmo.Math_atan2 dy dx * 180 / Math_PI + 90)))
            fontFamily)
    with (CanvasRenderer.getSpriteBounds measureText selected fontFamily).
  split; field; repeat split; lra.
Qed.

End RotatingSessions.

Definition rotating_session : Gizmo.t :=
  {| Gizmo.mode := InteractionMode.Rotating;
     Gizmo.dragStartPos := Some grab;
     Gizmo.dragStartSpriteState := Some star;
     Gizmo.dragStartLocalPos := None |}.

Lemma rotation_handle_follows_the_pointer_witness :
  let dx := (Point.x pointer - x star)%R in
  let dy := (Point.y pointer - y star)%R in
  let dist := sqrt (dx * dx + dy * dy) in
  let bounds := CanvasRenderer.getSpriteBounds box_metrics star "Arial" in
  let reach :=
    ((Bounds.height bounds + Gizmo.BOUNDS_MARGIN * 2) / 2
     + Gizmo.ROTATION_HANDLE_OFFSET)%R in
  exists rotated handle,
    getSelectedSprite (Gizmo.onPointerMove rotating_session pointer false star_selected)
    = Some rotated
    /\ rotated = Object_assign star (Gizmo.rotation_update (rotation rotated))
    /\ find (fun h => Gizmo.is_rotating (Handle.mode h))
         (Gizmo.getHandles box_metrics "Arial" rotated) = Some handle
    /\ Handle.x handle = (x star + reach * dx / dist)%R
    /\ Handle.y handle = (y star + reach * dy / dist)%R.
Proof.
  apply (@rotation_handle_follows_the_pointer box_metrics "Arial" rotating_session
           star_selected star star grab pointer false); try reflexivity.
  left. simpl. lra.
Defined.

(** ** Pressing the pointer *)

Section PointerDown.
Variable measureText : string -> string -> CanvasRenderer.TextMetrics.
Variable fontFamily : string.

(** The id [hitTest] returns is the id of a sprite, which [selectSprite]
    then selects. *)
Lemma selectSprite_hit (mousePos : Point.t) (sm : StateManager.t) (hitId : string) :
  CanvasRenderer.hitTest measureText (sprites (state sm))
    (Point.x mousePos) (Point.y mousePos) fontFamily = Some hitId ->
  Gizmo.known (Some hitId) = true ->
  exists newlySelected,
    getSelectedSprite (selectSprite (Some hitId) sm) = Some newlySelected
    /\ id newlySelected = hitId.
Proof.
  intros Hhit Hknown.
  destruct (@hit_some measureText (Point.x mousePos) (Point.y mousePos) fontFamily
              (sprites (state sm)) hitId Hhit) as (s & Hin & Hid & _).
  destruct (find (has_id hitId) (sprites (state sm))) as [found | ] eqn:Hfind.
  - exists found. split.
    + unfold getSelectedSprite, selectSprite. rewrite commit_state. cbn.
      unfold Gizmo.known in Hknown. apply negb_true_iff in Hknown. now rewrite Hknown.
    + apply find_some in Hfind. destruct Hfind as [_ H]. now apply String.eqb_eq in H.
  - pose proof (find_none _ _ Hfind s Hin) as H. unfold has_id in H.
    rewrite Hid, String.eqb_refl in H. discriminate H.
Qed.

(** The handles of a sprite are the four corners and the rotation
    handle. *)
Lemma getHandles_modes (sprite : SpriteObject) (handle : Handle.t) :
  In handle (Gizmo.getHandles measureText fontFamily sprite) ->
  Gizmo.is_rotating (Handle.mode handle) = false ->
  corner_mode (Handle.mode handle).
Proof.
  unfold Gizmo.getHandles, corner_mode. cbn [map In].
  intros [<- | [<- | [<- | [<- | [<- | []]]]]]; cbn [Handle.mode Gizmo.is_rotating];
    intros H; try discriminate H; tauto.
Qed.

(** What a press leaves: the sprites as they were and, with a sprite
    selected, a session on it from the position of the press. *)
Definition pressed (g : Gizmo.t) (mousePos : Point.t) (sm : StateManager.t)
    (after : Gizmo.t * StateManager.t) : Prop :=
  let g' := fst after in
  let sm' := snd after in
  sprites (state sm') = sprites (state sm)
  /\ match getSelectedSprite sm' with
     | Some selected =>
         Gizmo.dragStartPos g' = Some mousePos
         /\ Gizmo.dragStartSpriteState g' = Some selected
         /\ ((Gizmo.mode g' = InteractionMode.Dragging
              /\ CanvasRenderer.hitTest measureText (sprites (state sm))
                   (Point.x mousePos) (Point.y mousePos) fontFamily
                 = Some (id selected))
             \/ (Gizmo.mode g' = InteractionMode.Rotating /\ sm' = sm)
             \/ (corner_mode (Gizmo.mode g') /\ sm' = sm
                 /\ Gizmo.dragStartLocalPos g'
                    = Some (Gizmo.worldToLocal selected
                              (Point.x mousePos) (Point.y mousePos))))
     | None => g' = g /\ selectedId (state sm') = None
     end.

Lemma pressed_outside (g : Gizmo.t) (mousePos : Point.t) (sm : StateManager.t) :
  pressed g mousePos sm (g, selectSprite None sm).
Proof.
  unfold pressed. cbn [fst snd]. unfold selectSprite. rewrite commit_state.
  split; [ reflexivity | ]. unfold getSelectedSprite. rewrite commit_state. now cbn.
Qed.

Lemma pressed_on_a_sprite (g : Gizmo.t) (mousePos : Point.t) (sm : StateManager.t)
    (hitId : string) :
  CanvasRenderer.hitTest measureText (sprites (state sm))
    (Point.x mousePos) (Point.y mousePos) fontFamily = Some hitId ->
  Gizmo.known (Some hitId) = true ->
  pressed g mousePos sm
    (let sm1 := selectSprite (Some hitId) sm in
     match getSelectedSprite sm1 with
     | Some newlySelected =>
         ({| Gizmo.mode := InteractionMode.Dragging;
             Gizmo.dragStartPos := Some mousePos;
             Gizmo.dragStartSpriteState := Some newlySelected;
             Gizmo.dragStartLocalPos := Gizmo.dragStartLocalPos g |}, sm1)
     | None => (g, sm1)
     end).
Proof.
  intros Hhit Hknown.
  destruct (selectSprite_hit mousePos sm Hhit Hknown) as (newlySelected & Hsel & Hid).
  cbv zeta. rewrite Hsel. unfold pressed. cbn [fst snd]. rewrite Hsel.
  split; [ unfold selectSprite; now rewrite commit_state | ].
  cbn [Gizmo.mode Gizmo.dragStartPos Gizmo.dragStartSpriteState].
  repeat split. left. split; [ reflexivity | ]. now rewrite Hid.
Qed.

Lemma onPointerDown_pressed (g : Gizmo.t) (mousePos : Point.t) (sm : StateManager.t) :
  pressed g mousePos sm (Gizmo.onPointerDown measureText fontFamily g mousePos sm).
Proof.
  assert (Houtside :
    pressed g mousePos sm
      match CanvasRenderer.hitTest measureText (sprites (state sm))
              (Point.x mousePos) (Point.y mousePos) fontFamily with
      | Some hitId =>
          if Gizmo.known (Some hitId)
          then
            let sm1 := selectSprite (Some hitId) sm in
            match getSelectedSprite sm1 with
            | Some newlySelected =>
                ({| Gizmo.mode := InteractionMode.Dragging;
                    Gizmo.dragStartPos := Some mousePos;
                    Gizmo.dragStartSpriteState := Some newlySelected;
                    Gizmo.dragStartLocalPos := Gizmo.dragStartLocalPos g |}, sm1)
            | None => (g, sm1)
            end
          else (g, selectSprite None sm)
      | None => (g, selectSprite None sm)
      end).
  { destruct (CanvasRenderer.hitTest _ _ _ _ _) as [hitId | ] eqn:Hhit;
      [ | apply pressed_outside ].
    destruct (Gizmo.known (Some hitId)) eqn:Hknown; [ | apply pressed_outside ].
    now apply pressed_on_a_sprite. }
  unfold Gizmo.onPointerDown. cbv zeta. unfold getState.
  destruct (getSelectedSprite sm) as [selected | ] eqn:Hsel; [ | exact Houtside ].
  destruct (Gizmo.on_rotation_handle _ _).
  { unfold pressed. cbn [fst snd]. rewrite Hsel.
    cbn [Gizmo.mode Gizmo.dragStartPos Gizmo.dragStartSpriteState]. tauto. }
  destruct (Gizmo.corner_handle_at _ _) as [handle | ] eqn:Hcorner.
  { unfold pressed. cbn [fst snd]. rewrite Hsel.
    cbn [Gizmo.mode Gizmo.dragStartPos Gizmo.dragStartSpriteState
         Gizmo.dragStartLocalPos].
    unfold Gizmo.corner_handle_at in Hcorner. apply find_some in Hcorner.
    destruct Hcorner as [Hin Hnot]. apply andb_true_iff in Hnot.
    destruct Hnot as [Hnot _]. apply negb_true_iff in Hnot.
    pose proof (@getHandles_modes selected handle Hin Hnot) as Hmode. tauto. }
  destruct (CanvasRenderer.hitTest _ _ _ _ _) as [hitId | ] eqn:Hhit;
    [ | exact Houtside ].
  destruct (Gizmo.known (Some hitId) && negb (String.eqb hitId (id selected))) eqn:Hother.
  { apply andb_true_iff in Hother. destruct Hother as [Hknown _].
    now apply pressed_on_a_sprite. }
  destruct (String.eqb hitId (id selected)) eqn:Hsame; [ | exact Houtside ].
  apply String.eqb_eq in Hsame. subst hitId.
  unfold pressed. cbn [fst snd]. rewrite Hsel.
  cbn [Gizmo.mode Gizmo.dragStartPos Gizmo.dragStartSpriteState]. tauto.
Qed.


(** X26.  A press of the pointer never changes a sprite, and it leaves
    either a sprite selected and a session on it, or no sprite selected and
    the gizmo as it was.  The session holds the position of the press and
    the selected sprite as it is; it is a drag of the sprite [hitTest] gives
    at the position, or, the manager being left as it was, a rotation or a
    scaling by a corner of the sprite already selected, the latter with the
    position in the frame of the sprite as its grab point. *)
Theorem press_starts_a_session_on_the_selected_sprite
    (g : Gizmo.t) (mousePos : Point.t) (sm : StateManager.t) :
  let g' := fst (Gizmo.onPointerDown measureText fontFamily g mousePos sm) in
  let sm' := snd (Gizmo.onPointerDown measureText fontFamily g mousePos sm) in
  sprites (state sm') = sprites (state sm)
  /\ match getSelectedSprite sm' with
     | Some selected =>
         Gizmo.dragStartPos g' = Some mousePos
         /\ Gizmo.dragStartSpriteState g' = Some selected
         /\ ((Gizmo.mode g' = InteractionMode.Dragging
              /\ CanvasRenderer.hitTest measureText (sprites (state sm))
                   (Point.x mousePos) (Point.y mousePos) fontFamily
                 = Some (id selected))
             \/ (Gizmo.mode g' = InteractionMode.Rotating /\ sm' = sm)
             \/ (corner_mode (Gizmo.mode g') /\ sm' = sm
                 /\ Gizmo.dragStartLocalPos g'
                    = Some (Gizmo.worldToLocal selected
                              (Point.x mousePos) (Point.y mousePos))))
     | None => g' = g /\ selectedId (state sm') = None
     end.
Proof. exact (onPointerDown_pressed g mousePos sm). Qed.

End PointerDown.

(** ** A press without a move *)

Lemma modify_at_same {A : Type} (f : A -> A) (ref : nat) (arr : list A) (a : A) :
  nth_error arr ref = Some a -> f a = a -> modify_at ref f arr = arr.
Proof.
  intros Hnth Hsame. revert ref Hnth.
  induction arr as [ | b arr IH ]; intros [ | ref ]; simpl; try discriminate.
  - intros H. injection H as ->. now rewrite Hsame.
  - intros H. now rewrite (IH ref H).
Qed.

(** An update that gives the selected sprite the members it has leaves the
    state as it is. *)
Lemma updateSpriteWithoutSnapshot_same
    (sm : StateManager.t) (selected : SpriteObject) (updates : SpriteUpdates) :
  getSelectedSprite sm = Some selected -> Object_assign selected updates = selected ->
  state (updateSpriteWithoutSnapshot (id selected) updates sm) = state sm.
Proof.
  intros Hsel Hsame.
  destruct (selected_sprite_ref _ Hsel) as [ref [Href [Hnth _]]].
  unfold updateSpriteWithoutSnapshot. rewrite Href. cbn.
  rewrite (modify_at_same (fun s => Object_assign s updates) ref _ Hnth Hsame).
  now destruct (state sm).
Qed.

Section PressAndHold.
#[local] Open Scope R_scope.
Variable measureText : string -> string -> CanvasRenderer.TextMetrics.
Variable fontFamily : string.

(** X27.  A press does not move the sprite it grabs.  When no sprite has a
    scale under a tenth, a pointer move at the position of the press, with or
    without the shift key, leaves the state as the press has left it, unless
    the press has grabbed the rotation handle: a drag starts with no
    offset, and a scaling by a corner with the scales of the sprite. *)
Theorem press_and_hold_changes_nothing
    (g : Gizmo.t) (mousePos : Point.t) (shiftKey : bool) (sm : StateManager.t) :
  (forall s, In s (sprites (state sm)) -> 0.1 <= scaleX s /\ 0.1 <= scaleY s) ->
  let g' := fst (Gizmo.onPointerDown measureText fontFamily g mousePos sm) in
  let sm' := snd (Gizmo.onPointerDown measureText fontFamily g mousePos sm) in
  Gizmo.mode g' = InteractionMode.Rotating
  \/ state (Gizmo.onPointerMove g' mousePos shiftKey sm') = state sm'.
Proof.
  intros Hscales g' sm'.
  destruct (@onPointerDown_pressed measureText fontFamily g mousePos sm)
    as [Hsprites Hsession].
  fold g' sm' in Hsprites, Hsession.
  rewrite onPointerMove_update.
  destruct (getSelectedSprite sm') as [selected | ] eqn:Hsel; [ | now right ].
  destruct Hsession as (Hpos & Hstart & Hmode).
  assert (Hin : In selected (sprites (state sm))).
  { destruct (selected_sprite_ref _ Hsel) as [ref [_ [Hnth _]]].
    rewrite <- Hsprites. exact (nth_error_In _ _ Hnth). }
  destruct (Hscales selected Hin) as [HsX HsY].
  destruct Hmode as [[Hmode _] | [[Hmode _] | (Hmode & _ & Hlocal)]];
    [ right | now left | right ].
  - (* a drag *)
    unfold pointer_update. rewrite Hmode, Hpos, Hstart.
    apply updateSpriteWithoutSnapshot_same; [ exact Hsel | ].
    assert (Hx : num_or (x selected) 0 + (Point.x mousePos - Point.x mousePos)
                 = x selected).
    { unfold num_or. destruct (num_eq (x selected) 0) eqn:E; [ | ring ].
      apply num_eq_true in E. rewrite E. ring. }
    assert (Hy : num_or (y selected) 0 + (Point.y mousePos - Point.y mousePos)
                 = y selected).
    { unfold num_or. destruct (num_eq (y selected) 0) eqn:E; [ | ring ].
      apply num_eq_true in E. rewrite E. ring. }
    rewrite Hx, Hy. now destruct selected.
  - (* a scaling *)
    assert (Hnew : new_scales g' selected mousePos shiftKey
                   = Some (scaleX selected, scaleY selected)).
    { unfold new_scales. rewrite Hpos, Hstart, Hlocal. cbv zeta.
      rewrite !num_or_nonzero by lra.
      fold (Gizmo.worldToLocal selected (Point.x mousePos) (Point.y mousePos)).
      set (grabbed := Gizmo.worldToLocal selected (Point.x mousePos) (Point.y mousePos)).
      unfold Math_max, Math_abs, Math_sqrt.
      destruct shiftKey.
      - assert (Hx : (if num_gt (Rabs (Point.x grabbed)) 0.001
                      then scaleX selected * (Point.x grabbed / Point.x grabbed)
                      else scaleX selected) = scaleX selected).
        { destruct (num_gt (Rabs (Point.x grabbed)) 0.001) eqn:E; [ | reflexivity ].
          unfold num_gt in E. destruct (Rlt_dec 0.001 (Rabs (Point.x grabbed)));
            [ | discriminate ].
          field. intros E0. rewrite E0, Rabs_R0 in r. lra. }
        assert (Hy : (if num_gt (Rabs (Point.y grabbed)) 0.001
                      then scaleY selected * (Point.y grabbed / Point.y grabbed)
                      else scaleY selected) = scaleY selected).
        { destruct (num_gt (Rabs (Point.y grabbed)) 0.001) eqn:E; [ | reflexivity ].
          unfold num_gt in E. destruct (Rlt_dec 0.001 (Rabs (Point.y grabbed)));
            [ | discriminate ].
          field. intros E0. rewrite E0, Rabs_R0 in r. lra. }
        rewrite Hx, Hy, !Rabs_pos_eq by lra. now rewrite !Rmax_right.
      - set (dist := sqrt (Point.x grabbed * Point.x grabbed
                           + Point.y grabbed * Point.y grabbed)).
        assert (Hratio : (if num_gt dist 0.001 then dist / dist else 1) = 1).
        { destruct (num_gt dist 0.001) eqn:E; [ | reflexivity ].
          unfold num_gt in E. destruct (Rlt_dec 0.001 dist); [ | discriminate ].
          field. lra. }
        rewrite Hratio, !Rmult_1_r. now rewrite !Rmax_right. }
    assert (Hupdate : pointer_update g' selected mousePos shiftKey
                      = Some (Gizmo.scale_updates (scaleX selected) (scaleY selected))).
    { unfold pointer_update. rewrite Hpos, Hstart, Hnew.
      now destruct Hmode as [-> | [-> | [-> | ->]]]. }
    rewrite Hupdate.
    apply updateSpriteWithoutSnapshot_same; [ exact Hsel | ]. now destruct selected.
Qed.

End PressAndHold.

Definition idle : Gizmo.t :=
  {| Gizmo.mode := InteractionMode.None; Gizmo.dragStartPos := None;
     Gizmo.dragStartSpriteState := None; Gizmo.dragStartLocalPos := None |}.

Lemma press_and_hold_changes_nothing_witness :
  let press := Gizmo.onPointerDown box_metrics "Arial" idle grab star_selected in
  Gizmo.mode (fst press) = InteractionMode.Rotating
  \/ state (Gizmo.onPointerMove (fst press) grab false (snd press)) = state (snd press).
Proof.
  apply (@press_and_hold_changes_nothing box_metrics "Arial" idle grab false
           star_selected).
  intros s [<- | [<- | []]]; simpl; lra.
Defined.

(** ** The cursor *)

Section Cursor.
#[local] Open Scope R_scope.

Lemma Math_atan2_range (y x : R) : - PI < Gizmo.Math_atan2 y x <= PI.
Proof.
  pose proof PI_RGT_0 as Hpi.
  pose proof (atan_bound (y / x)) as [Hlow Hhigh].
  unfold Gizmo.Math_atan2, num_gt, num_ge.
  destruct (Rlt_dec 0 x) as [Hpos | _]; [ lra | ].
  destruct (Rlt_dec x 0) as [Hneg | _].
  - assert (Hinv : / x < 0) by now apply Rinv_lt_0_compat.
    destruct (Rle_dec 0 y) as [Hy | Hy].
    + assert (Hle : atan (y / x) <= 0).
      { destruct Hy as [Hy | <-].
        - left. rewrite <- atan_0. apply atan_increasing. unfold Rdiv. nra.
        - unfold Rdiv. rewrite Rmult_0_l, atan_0. lra. }
      lra.
    + assert (Hgt : 0 < atan (y / x)).
      { rewrite <- atan_0. apply atan_increasing. unfold Rdiv. nra. }
      lra.
  - destruct (Rlt_dec 0 y); [ lra | ]. destruct (Rlt_dec y 0); lra.
Qed.

(** The remainder of a dividend that is not negative. *)
Lemma num_rem_range (a b : R) : 0 <= a -> 0 < b ->
  exists m : Z, (0 <= m)%Z /\ num_rem a b = a - b * IZR m /\ 0 <= num_rem a b < b.
Proof.
  intros Ha Hb. unfold num_rem. cbv zeta.
  assert (Hq : 0 <= a / b).
  { unfold Rdiv. apply Rmult_le_pos; [ exact Ha | ]. left. now apply Rinv_0_lt_compat. }
  destruct (Rle_dec 0 (a / b)) as [_ | Hno]; [ | contradiction ].
  exists (Zfloor (a / b)). split; [ now apply Zfloor_lub | ]. split; [ reflexivity | ].
  pose proof (Zfloor_bound (a / b)) as [Hlow Hhigh].
  assert (Hab : a = a / b * b) by (field; lra).
  split.
  - apply (Rmult_le_compat_r b) in Hlow; lra.
  - apply (Rmult_lt_compat_r b) in Hhigh; lra.
Qed.

Lemma cursor_direction (handle : Handle.t) (sprite : SpriteObject) :
  let angle :=
    Gizmo.Math_atan2 (Handle.y handle - y sprite) (Handle.x handle - x sprite)
    * 180 / Math_PI in
  exists direction turn : Z,
    (0 <= direction <= 7)%Z
    /\ at_index Gizmo.cursors direction = Some (Gizmo.getCursorForHandle handle sprite)
    /\ 45 * IZR direction - 22.5 <= angle + 360 * IZR turn < 45 * IZR direction + 22.5.
Proof.
  intros angle. unfold Gizmo.getCursorForHandle. cbv zeta. fold angle.
  pose proof PI_RGT_0 as Hpi.
  assert (Hangle : -180 < angle <= 180).
  { pose proof (Math_atan2_range (Handle.y handle - y sprite)
                  (Handle.x handle - x sprite)) as [Hlow Hhigh].
    unfold angle, Math_PI.
    set (theta := Gizmo.Math_atan2 (Handle.y handle - y sprite)
                    (Handle.x handle - x sprite)) in *.
    assert (Hdeg : theta * 180 / PI = theta / PI * 180) by (field; lra).
    rewrite Hdeg.
    assert (H1 : -1 < theta / PI).
    { apply (Rmult_lt_reg_r PI); [ exact Hpi | ].
      replace (theta / PI * PI) with theta by (field; lra). lra. }
    assert (H2 : theta / PI <= 1).
    { apply (Rmult_le_reg_r PI); [ exact Hpi | ].
      replace (theta / PI * PI) with theta by (field; lra). lra. }
    lra. }
  set (turned := if num_lt angle 0 then angle + 360 else angle).
  assert (Hturned : exists n : Z, turned = angle + 360 * IZR n /\ 0 <= turned < 360).
  { unfold turned, num_lt. destruct (Rlt_dec angle 0).
    - exists 1%Z. split; lra.
    - exists 0%Z. split; lra. }
  destruct Hturned as (n & Hn & Hrange).
  destruct (@num_rem_range (turned + 22.5) 360) as (m & _ & Hm & Hrem); try lra.
  set (rest := num_rem (turned + 22.5) 360) in *.
  pose proof (Zfloor_bound (rest / 45)) as [Hlow Hhigh].
  remember (Zfloor (rest / 45)) as direction eqn:Hdirection.
  assert (Hrest : rest = rest / 45 * 45) by (field; lra).
  assert (H0 : (0 <= direction)%Z).
  { rewrite Hdirection. apply Zfloor_lub. lra. }
  assert (H7 : (direction <= 7)%Z).
  { assert (H8 : (direction < 8)%Z) by (apply lt_IZR; lra). lia. }
  exists direction, (n - m)%Z. split; [ lia | ]. split.
  - assert (Hcases : (direction = 0 \/ direction = 1 \/ direction = 2 \/ direction = 3
                      \/ direction = 4 \/ direction = 5 \/ direction = 6
                      \/ direction = 7)%Z) by lia.
    destruct Hcases as [-> | [-> | [-> | [-> | [-> | [-> | [-> | ->]]]]]]]; reflexivity.
  - rewrite minus_IZR. lra.
Qed.


(** X28.  The resize cursor of a handle is the one of the eight compass
    directions nearest to the direction from the centre of the sprite to the
    handle, in screen coordinates: with the directions numbered clockwise
    from east, the angle of the handle is, up to full turns, within 22.5
    degrees of 45 times the number, the upper end excluded.  The fallback
    cursor is never given. *)
Theorem resize_cursor_points_along_the_handle (handle : Handle.t) (sprite : SpriteObject) :
  let angle :=
    Gizmo.Math_atan2 (Handle.y handle - y sprite) (Handle.x handle - x sprite)
    * 180 / Math_PI in
  exists direction turn : Z,
    (0 <= direction <= 7)%Z
    /\ at_index Gizmo.cursors direction = Some (Gizmo.getCursorForHandle handle sprite)
    /\ 45 * IZR direction - 22.5 <= angle + 360 * IZR turn < 45 * IZR direction + 22.5.
Proof. exact (cursor_direction handle sprite). Qed.

End Cursor.

Section CursorAndPress.
Variable measureText : string -> string -> CanvasRenderer.TextMetrics.
Variable fontFamily : string.

Lemma getCursorForHandle_resize (handle : Handle.t) (sprite : SpriteObject) :
  In (Gizmo.getCursorForHandle handle sprite) Gizmo.cursors.
Proof.
  destruct (cursor_direction handle sprite) as (direction & _ & _ & Hat & _).
  unfold at_index in Hat. destruct (direction <? 0)%Z; [ discriminate | ].
  exact (nth_error_In _ _ Hat).
Qed.

Ltac settle_cursor Hmode :=
  cbn [fst Gizmo.mode]; try rewrite Hmode;
  unfold corner_mode, Gizmo.cursors; cbn [In];
  repeat split; intros;
  repeat match goal with
         | H : _ \/ _ |- _ => destruct H
         end;
  try discriminate; try contradiction; auto 12.

(** X29.  The cursor tells what a press will do.  With no session under
    way, the cursor [updateCursor] sets at a position is "grab" exactly when
    a press there starts a rotation, and one of the eight resize cursors
    exactly when a press there starts a scaling by a corner; it is never
    anything but these, "move" and "default". *)
Theorem cursor_announces_the_press
    (g : Gizmo.t) (mousePos : Point.t) (sm : StateManager.t) :
  Gizmo.mode g = InteractionMode.None ->
  let cursor := Gizmo.updateCursor measureText fontFamily mousePos sm in
  let g' := fst (Gizmo.onPointerDown measureText fontFamily g mousePos sm) in
  (cursor = "grab" <-> Gizmo.mode g' = InteractionMode.Rotating)
  /\ (In cursor Gizmo.cursors <-> corner_mode (Gizmo.mode g'))
  /\ In cursor ("default" :: "move" :: "grab" :: Gizmo.cursors).
Proof.
  intros Hmode. cbv zeta. unfold Gizmo.updateCursor, Gizmo.onPointerDown. cbv zeta.
  unfold getState.
  assert (Houtside : forall cursor : string,
    cursor = "default" \/ cursor = "move" ->
    let g' :=
      fst match CanvasRenderer.hitTest measureText (sprites (state sm))
                  (Point.x mousePos) (Point.y mousePos) fontFamily with
          | Some hitId =>
              if Gizmo.known (Some hitId)
              then
                match getSelectedSprite (selectSprite (Some hitId) sm) with
                | Some newlySelected =>
                    ({| Gizmo.mode := InteractionMode.Dragging;
                        Gizmo.dragStartPos := Some mousePos;
                        Gizmo.dragStartSpriteState := Some newlySelected;
                        Gizmo.dragStartLocalPos := Gizmo.dragStartLocalPos g |},
                     selectSprite (Some hitId) sm)
                | None => (g, selectSprite (Some hitId) sm)
                end
              else (g, selectSprite None sm)
          | None => (g, selectSprite None sm)
          end in
    (cursor = "grab" <-> Gizmo.mode g' = InteractionMode.Rotating)
    /\ (In cursor Gizmo.cursors <-> corner_mode (Gizmo.mode g'))
    /\ In cursor ("default" :: "move" :: "grab" :: Gizmo.cursors)).
  { intros cursor Hcursor. cbv zeta.
    destruct (CanvasRenderer.hitTest _ _ _ _ _) as [hitId | ];
      [ destruct (Gizmo.known (Some hitId));
        [ destruct (getSelectedSprite (selectSprite (Some hitId) sm)) | ] | ];
      destruct Hcursor as [-> | ->]; settle_cursor Hmode. }
  destruct (getSelectedSprite sm) as [selected | ] eqn:Hsel;
    [ | apply Houtside; now left ].
  destruct (Gizmo.on_rotation_handle _ _); [ settle_cursor Hmode | ].
  destruct (Gizmo.corner_handle_at _ _) as [handle | ] eqn:Hcorner.
  { unfold Gizmo.corner_handle_at in Hcorner. apply find_some in Hcorner.
    destruct Hcorner as [Hin Hnot]. apply andb_true_iff in Hnot.
    destruct Hnot as [Hnot _]. apply negb_true_iff in Hnot.
    pose proof (@getHandles_modes measureText fontFamily selected handle Hin Hnot)
      as Hcornered.
    pose proof (getCursorForHandle_resize handle selected) as Hresize.
    cbn [fst Gizmo.mode]. split; [ | split ].
    - split.
      + intros E. rewrite E in Hresize. exfalso.
        unfold Gizmo.cursors in Hresize. cbn [In] in Hresize. intuition discriminate.
      + intros E. rewrite E in Hcornered. exfalso.
        unfold corner_mode in Hcornered. intuition discriminate.
    - tauto.
    - now do 3 right. }
  assert (Hcursor :
    (if CanvasRenderer.isPointInSprite measureText selected
          (Point.x mousePos) (Point.y mousePos) "Arial"
     then "move" else "default") = "default"
    \/ (if CanvasRenderer.isPointInSprite measureText selected
            (Point.x mousePos) (Point.y mousePos) "Arial"
         then "move" else "default") = "move")
    by (destruct (CanvasRenderer.isPointInSprite _ _ _ _ _); tauto).
  destruct (CanvasRenderer.hitTest _ _ _ _ _) as [hitId | ] eqn:Hhit.
  - destruct (Gizmo.known (Some hitId) && negb (String.eqb hitId (id selected)))
      eqn:Hother.
    + apply andb_true_iff in Hother. destruct Hother as [Hknown _].
      specialize (Houtside _ Hcursor). cbv zeta in Houtside.
      rewrite Hknown in Houtside. exact Houtside.
    + destruct (String.eqb hitId (id selected)).
      * destruct Hcursor as [-> | ->]; settle_cursor Hmode.
      * exact (Houtside _ Hcursor).
  - specialize (Houtside _ Hcursor). exact Houtside.
Qed.

End CursorAndPress.

Lemma cursor_announces_the_press_witness :
  let cursor := Gizmo.updateCursor box_metrics "Arial" grab star_selected in
  let g' := fst (Gizmo.onPointerDown box_metrics "Arial" idle grab star_selected) in
  (cursor = "grab" <-> Gizmo.mode g' = InteractionMode.Rotating)
  /\ (In cursor Gizmo.cursors <-> corner_mode (Gizmo.mode g'))
  /\ In cursor ("default" :: "move" :: "grab" :: Gizmo.cursors).
Proof.
  apply (@cursor_announces_the_press box_metrics "Arial" idle grab star_selected).
  reflexivity.
Defined.

(* ===================================================================== *)
(** * The floor of the scales                                            *)
(* ===================================================================== *)




